(** * Label-to-playlist pipeline of the Spotify playlist creator (src/app.js)

    A shallow embedding of the server's pipeline: the token exchange, the
    paginated label search, the per-album track collection, the
    chronological sort and the batched playlist write, with the progress
    events the server broadcasts and the HTTP answer it sends.

    The platform (Spotify's web API reached through axios) is an oracle that
    answers each request from the history of the run; the JavaScript runtime
    pieces the code relies on ([Array.prototype.sort], [new Date(s).getTime()],
    template strings) are modelled next to the code that uses them. *)

From Stdlib Require Import List ZArith String Ascii Bool Lia.
From Stdlib Require Import Permutation Sorted.
From Stdlib Require Import DecimalString.
From Equations Require Import Equations.
Import ListNotations.

Local Open Scope string_scope.
Local Open Scope list_scope.
Local Open Scope Z_scope.

(** Template-string concatenation; [++] stays list append. *)
Infix "+++" := String.append (right associativity, at level 60).

(** ** JavaScript values the code converts to text *)

Module JS.

(** The double-quote character, as the template strings of app.js embed it. *)
Definition dquote : string := String (ascii_of_nat 34) EmptyString.

(** [`${n}`] for an integral number below [1e21] in absolute value, which
    a template string prints with all its digits (from [1e21] on it prints
    an exponent); the numbers printed by app.js are lengths, batch numbers
    and the total of a search. *)
Definition of_Z (z : Z) : string := NilZero.string_of_int (Z.to_int z).

(** [`${xs.length}`]. *)
Definition of_length {A} (xs : list A) : string := of_Z (Z.of_nat (List.length xs)).

(** [`${v}`] for a value that is a string or [undefined]. *)
Definition of_opt (v : option string) : string :=
  match v with
  | Some s => s
  | None => "undefined"
  end.

(** [!v] for a value that is a string or [undefined]: the empty string
    and [undefined] are the falsy ones. *)
Definition falsy (v : option string) : bool :=
  match v with
  | Some s => String.eqb s ""
  | None => true
  end.

(** [xs.slice(i, j)] for [0 <= i <= j]. *)
Definition slice {A} (i j : nat) (xs : list A) : list A :=
  firstn (j - i) (skipn i xs).

End JS.

(** ** Data model: what the platform returns and what the server builds *)

(** An item of [response.data.albums.items]. *)
Record album := mkAlbum {
album_id : string;
album_name : string;
release_date : string
}.

(** An item of the album-tracks response, then annotated in place by the
  [forEach] of the callback ([albumReleaseDate], [albumTrackNumber]).
  Before the annotation the two derived fields are absent; the model keeps
  the API item and the annotated track apart. *)
Record api_track := mkApiTrack {
track_number : Z;
api_uri : string
}.

Record track := mkTrack {
uri : string;
albumReleaseDate : string;
albumTrackNumber : Z
}.

(** ** The chronological sorter (app.js 247-254) *)

(** [Array.prototype.sort(comparefn)]: ECMAScript requires a stable sort and
  reads a [NaN] returned by the comparator as [+0].  The model is the
  stable insertion sort: an element moves right past exactly the elements
  it compares strictly greater than.  For a consistent comparator every
  stable sort returns this same array ([stable_sorted_unique]), so the
  model stands for the engine's sort on tracks whose dates parse.  For a
  comparator that is not consistent (it answers [NaN] on a date that does
  not parse) ECMAScript leaves the order to the implementation, and the
  engine's may differ from the model's: what is proved of a sorted list
  is proved under [valid_date]. *)
Section ArraySort.

Context {A : Type}.

(** The comparator returns a number; [None] stands for [NaN]. *)
Variable comparefn : A -> A -> option Z.

Definition SortCompare (x y : A) : Z :=
  match comparefn x y with
  | Some v => v
  | None => 0
  end.

Fixpoint sort_insert (x : A) (sorted : list A) : list A :=
  match sorted with
  | [] => [x]
  | y :: rest =>
      if SortCompare x y <=? 0 then x :: y :: rest
      else y :: sort_insert x rest
  end.

Fixpoint Array_sort (xs : list A) : list A :=
  match xs with
  | [] => []
  | x :: rest => sort_insert x (Array_sort rest)
  end.

End ArraySort.

(** The comparator passed to [allTracks.sort] (app.js 247-254).
    [Date_getTime s] is [new Date(s).getTime()], [None] for the [NaN] of an
    invalid date.  [dateA.getTime() === dateB.getTime()] is false as soon as
    one side is [NaN], and [dateA - dateB] is then [NaN] as well. *)
Section Sorter.

Variable Date_getTime : string -> option Z.

Definition compareTracks (a b : track) : option Z :=
  let dateA := Date_getTime (albumReleaseDate a) in
  let dateB := Date_getTime (albumReleaseDate b) in
  match dateA, dateB with
  | Some tA, Some tB =>
      if tA =? tB then Some (albumTrackNumber a - albumTrackNumber b)
      else Some (tA - tB)
  | _, _ => None
  end.

Definition sortTracks (allTracks : list track) : list track :=
  Array_sort compareTracks allTracks.

(** The order the sorter is meant to establish between neighbours:
    [date x < date y], or equal dates and [trackNumber x <= trackNumber y]. *)
Definition chron_le (x y : track) : Prop :=
  match Date_getTime (albumReleaseDate x), Date_getTime (albumReleaseDate y) with
  | Some dx, Some dy =>
      dx < dy \/ (dx = dy /\ albumTrackNumber x <= albumTrackNumber y)
  | _, _ => False
  end.

(** A track whose release date parses. *)
Definition valid_date (t : track) : Prop :=
  Date_getTime (albumReleaseDate t) <> None.

(** Tracks with the parsed date [d] and the track number [n]. *)
Definition has_key (d n : Z) (t : track) : bool :=
  match Date_getTime (albumReleaseDate t) with
  | Some dt => (dt =? d) && (albumTrackNumber t =? n)
  | None => false
  end.

End Sorter.

(** An instance of [Date_getTime] for the date-only ISO forms the platform
    uses for [release_date] ([YYYY], [YYYY-MM], [YYYY-MM-DD]), read as UTC
    midnight; a day up to 31 that the month does not have rolls over into
    the next month, as [new Date] does.  The date-time and the legacy forms
    that [new Date] also reads are not release dates of the platform and
    are invalid dates here; the instance only serves to run the model on
    dates of the three forms. *)
Module IsoDate.

Definition digit (c : ascii) : option Z :=
  let n := Z.of_nat (nat_of_ascii c) in
  if (48 <=? n) && (n <=? 57) then Some (n - 48) else None.

Fixpoint number (s : string) (acc : Z) : option Z :=
  match s with
  | EmptyString => Some acc
  | String c rest =>
      match digit c with
      | Some d => number rest (10 * acc + d)
      | None => None
      end
  end.

Definition field (width : nat) (s : string) : option Z :=
  if Nat.eqb (String.length s) width then number s 0 else None.

(** Days between 1970-01-01 and the civil date [y-m-d]. *)
Definition days_from_civil (y m d : Z) : Z :=
  let y' := if m <=? 2 then y - 1 else y in
  let era := y' / 400 in
  let yoe := y' - era * 400 in
  let mp := if 2 <? m then m - 3 else m + 9 in
  let doy := (153 * mp + 2) / 5 + d - 1 in
  let doe := yoe * 365 + yoe / 4 - yoe / 100 + doy in
  era * 146097 + doe - 719468.

Definition civil (y m d : Z) : option Z :=
  if (1 <=? m) && (m <=? 12) && (1 <=? d) && (d <=? 31)
  then Some (days_from_civil y m d * 86400000)
  else None.

Definition getTime (s : string) : option Z :=
  match String.length s with
  | 4%nat =>
      match field 4 s with
      | Some y => civil y 1 1
      | None => None
      end
  | 7%nat =>
      match field 4 (substring 0 4 s), field 2 (substring 5 2 s) with
      | Some y, Some m =>
          if String.eqb (substring 4 1 s) "-" then civil y m 1 else None
      | _, _ => None
      end
  | 10%nat =>
      match field 4 (substring 0 4 s), field 2 (substring 5 2 s),
            field 2 (substring 8 2 s) with
      | Some y, Some m, Some d =>
          if String.eqb (substring 4 1 s) "-" && String.eqb (substring 7 1 s) "-"
          then civil y m d else None
      | _, _, _ => None
      end
  | _ => None
  end.

End IsoDate.

(** ** The platform and the effects of a run *)

(** [response.data] of the profile endpoint. *)
Record profile := mkProfile {
  id : string;
  display_name : string
}.

(** [response.data] of the token endpoint; [access_token] is [None] when
    the body has no such field (the property read yields [undefined]). *)
Record token_body := mkTokenBody {
  access_token : option string
}.

(** [response.data.albums] of the search endpoint. *)
Record search_body := mkSearchBody {
  items : list album;
  total : Z
}.

(** [response.data] of the create-playlist endpoint
    ([external_urls.spotify] flattened). *)
Record playlist := mkPlaylist {
  playlist_id : string;
  playlist_name : string;
  external_url : string
}.

(** The error axios throws for a non-2xx answer or a network failure:
    [error.message] and, when the platform answered, [error.response.data]. *)
Record error := mkError {
  err_message : string;
  err_response : option string
}.

(** The requests app.js sends through axios, with the fields that vary. *)
Inductive request :=
| PostToken (code redirect_uri client_id client_secret : string)
| GetMe (authorization : string)
| GetSearch (authorization q : string) (limit offset : Z)
| GetAlbumTracks (albumId authorization : string)
| PostPlaylist (userId authorization name description : string)
| PostPlaylistTracks (playlistId authorization : string) (uris : list string).

(** The payload of [io.emit('progress', ...)]. *)
Record progress := mkProgress {
  message : string;
  percent : Z;
  playlist_url : option string
}.

(** What a run does that is visible outside it, in the order it happens. *)
Inductive action :=
| Call (r : request)
| Emit (p : progress)
| Sleep (ms : Z)
| Log (line : string)
| Send (body : string)
| RedirectTo (url : string) (params : list (string * string)).

Definition history := list action.

(** The type of [response.data] for each request.  Bodies have the shape
    the code reads: an answer of another shape (a search answer without
    [albums], say) would raise a [TypeError] in the component that reads it,
    which the component's catch block logs and rethrows like a failed
    request; such answers are outside the model. *)
Definition data (r : request) : Type :=
  match r with
  | PostToken _ _ _ _ => token_body
  | GetMe _ => profile
  | GetSearch _ _ _ _ => search_body
  | GetAlbumTracks _ _ => list api_track
  | PostPlaylist _ _ _ _ => playlist
  | PostPlaylistTracks _ _ _ => unit
  end.

(** The platform answers a request knowing everything the run did before
    it: either axios throws or it resolves with [response.data]. *)
Definition platform := history -> forall r : request, error + data r.

(** How a computation ends: it returns, it throws, or the model ran out of
    fuel (the search loop has no bound of its own). *)
Inductive outcome (A : Type) :=
| Returned (a : A)
| Thrown (e : error)
| OutOfFuel.
Arguments Returned {A} a.
Arguments Thrown {A} e.
Arguments OutOfFuel {A}.

Definition M (A : Type) := history -> outcome A * history.

Definition ret {A} (a : A) : M A := fun h => (Returned a, h).

Definition bind {A B} (m : M A) (k : A -> M B) : M B :=
  fun h =>
    match m h with
    | (Returned a, h') => k a h'
    | (Thrown e, h') => (Thrown e, h')
    | (OutOfFuel, h') => (OutOfFuel, h')
    end.

Definition throw {A} (e : error) : M A := fun h => (Thrown e, h).

Definition diverge {A} : M A := fun h => (OutOfFuel, h).

Definition try_catch {A} (m : M A) (handler : error -> M A) : M A :=
  fun h =>
    match m h with
    | (Thrown e, h') => handler e h'
    | other => other
    end.

Definition act (a : action) : M unit := fun h => (Returned tt, h ++ [a]).

Declare Scope js_scope.
Delimit Scope js_scope with js.
Notation "x <- m ;; k" := (bind m (fun x => k))
  (at level 100, m at next level, right associativity) : js_scope.
Notation "m ;; k" := (bind m (fun _ => k))
  (at level 100, right associativity) : js_scope.
Local Open Scope js_scope.

(** [io.emit('progress', {message, percent})]. *)
Definition emit (msg : string) (pct : Z) : M unit :=
  act (Emit (mkProgress msg pct None)).

(** [await sleep(ms)]. *)
Definition sleep (ms : Z) : M unit := act (Sleep ms).

(** [res.send(body)]. *)
Definition send (body : string) : M unit := act (Send body).

(** [error.response?.data || error.message]. *)
Definition error_detail (e : error) : string :=
  match err_response e with
  | Some d => if String.eqb d "" then err_message e else d
  | None => err_message e
  end.

(** [console.error(label, detail)]. *)
Definition console_error (label detail : string) : M unit :=
  act (Log (label +++ " " +++ detail)).

(** [`Bearer ${token}`]. *)
Definition bearer (token : option string) : string :=
  "Bearer " +++ JS.of_opt token.

(** ** The server (src/app.js) *)

(** The text the catch block of the callback sends to the browser
    (app.js 324). *)
Definition failure_page : string :=
  "Error during processing. Check the server logs for details.".

Section Server.

(** Configuration read from the environment (app.js 25-29). *)
Variable CLIENT_ID : string.
Variable CLIENT_SECRET : string.
Variable REDIRECT_URI : string.

(** [new Date(s).getTime()], as in [compareTracks]. *)
Variable Date_getTime : string -> option Z.

(** The platform the run talks to. *)
Variable api : platform.

Definition SCOPES : string := "playlist-modify-private".

(** [await axios.get/post(...)]: the request reaches the platform; a failure
    is thrown, a success resolves with [response.data]. *)
Definition axios (r : request) : M (data r) :=
  fun h =>
    match api h r with
    | inl e => (Thrown e, h ++ [Call r])
    | inr d => (Returned d, h ++ [Call r])
    end.

(** app.js 44-54. *)
Definition getUserProfile (token : option string) : M profile :=
  try_catch
    (axios (GetMe (bearer token)))
    (fun error =>
       console_error "Error fetching user profile:" (error_detail error) ;;
       throw error).

(** app.js 57-78.  The result is [response.data.access_token], which is
    [undefined] ([None]) when the body has no such field. *)
Definition getAccessToken (code : string) : M (option string) :=
  try_catch
    (response_data <- axios (PostToken code REDIRECT_URI CLIENT_ID CLIENT_SECRET) ;;
     ret (access_token response_data))
    (fun error =>
       console_error "Error obtaining access token:" (error_detail error) ;;
       throw error).

(** The body of the do-while of [searchAlbumsByLabel] (app.js 89-111);
    [fuel] bounds the number of pages the model fetches. *)
Fixpoint searchAlbumsLoop (fuel : nat) (query : string) (token : option string)
    (albums : list album) (offset : Z) : M (list album) :=
  match fuel with
  | O => diverge
  | S fuel' =>
      let limit := 50 in
      page <- try_catch
        (response_data <- axios (GetSearch (bearer token) query limit offset) ;;
         let items := items response_data in
         let total := total response_data in
         let albums := albums ++ items in
         let offset := offset + limit in
         emit ("Fetched " +++ JS.of_length albums +++ " of " +++ JS.of_Z total
                 +++ " albums...") 40 ;;
         sleep 500 ;;
         ret (albums, offset, total))
        (fun error =>
           console_error "Error searching for albums:" (error_detail error) ;;
           throw error) ;;
      let '(albums, offset, total) := page in
      if offset <? total then searchAlbumsLoop fuel' query token albums offset
      else ret albums
  end.

(** app.js 81-114. *)
Definition searchAlbumsByLabel (fuel : nat) (label : option string)
    (token : option string) : M (list album) :=
  let query := "label:" +++ JS.dquote +++ JS.of_opt label +++ JS.dquote in
  searchAlbumsLoop fuel query token [] 0.

(** app.js 117-129. *)
Definition getAlbumTracks (albumId : string) (token : option string)
    : M (list api_track) :=
  try_catch
    (axios (GetAlbumTracks albumId (bearer token)))
    (fun error =>
       console_error ("Error fetching tracks for album " +++ albumId +++ ":")
         (error_detail error) ;;
       throw error).

(** app.js 132-153. *)
Definition createPlaylist (userId : string) (token : option string)
    (label : option string) : M playlist :=
  let playlistName := "Label Playlist: " +++ JS.of_opt label +++ " (Chronological)" in
  let description :=
    "A chronological playlist of songs from albums tagged with " +++ JS.dquote
      +++ JS.of_opt label +++ JS.dquote +++ "." in
  try_catch
    (axios (PostPlaylist userId (bearer token) playlistName description))
    (fun error =>
       console_error "Error creating playlist:" (error_detail error) ;;
       throw error).

Definition BATCH_SIZE : nat := 100.

(** The for loop of [addTracksToPlaylist] from index [i] on (app.js 160-175). *)
Equations? addTracksFrom (playlistId : string) (trackURIs : list string)
    (token : option string) (i : nat) : M unit
    by wf (List.length trackURIs - i)%nat lt :=
  addTracksFrom playlistId trackURIs token i
    with lt_dec i (List.length trackURIs) := {
    | left _ =>
        let batch := JS.slice i (i + BATCH_SIZE) trackURIs in
        try_catch
          (axios (PostPlaylistTracks playlistId (bearer token) batch) ;;
           emit ("Added batch "
                   +++ JS.of_Z (Z.of_nat (i / BATCH_SIZE) + 1)
                   +++ " of tracks.") 90 ;;
           sleep 300)
          (fun error =>
             console_error "Error adding tracks to playlist:" (error_detail error) ;;
             throw error) ;;
        addTracksFrom playlistId trackURIs token (i + BATCH_SIZE)%nat
    | right _ => ret tt }.
Proof. unfold BATCH_SIZE. lia. Qed.

(** app.js 156-176. *)
Definition addTracksToPlaylist (playlistId : string) (trackURIs : list string)
    (token : option string) : M unit :=
  addTracksFrom playlistId trackURIs token 0.

(** The global [currentLabel] (app.js 32) starts as the empty string. *)
Definition initialLabel : option string := Some "".

(** POST /start (app.js 188-202): stores [req.body.label] in [currentLabel]
    (the value returned here; [None] when the form field is absent) and
    redirects to the authorization page. *)
Definition start (req_body_label : option string) : M (option string) :=
  let currentLabel := req_body_label in
  act (Log ("Label received: " +++ JS.of_opt currentLabel)) ;;
  act (RedirectTo "https://accounts.spotify.com/authorize"
         [("response_type", "code"); ("client_id", CLIENT_ID); ("scope", SCOPES);
          ("redirect_uri", REDIRECT_URI); ("state", "some-random-state")]) ;;
  ret currentLabel.

(** The [forEach] of app.js 231-234: the album's date and the track's own
    number are stamped on each track. *)
Definition annotate (album : album) (t : api_track) : track :=
  mkTrack (api_uri t) (release_date album) (track_number t).

(** The for-of loop of the callback (app.js 229-238). *)
Fixpoint collectTracks (albums : list album) (accessToken : option string)
    (allTracks : list track) : M (list track) :=
  match albums with
  | [] => ret allTracks
  | album :: rest =>
      albumTracks <- getAlbumTracks (album_id album) accessToken ;;
      let albumTracks := map (annotate album) albumTracks in
      let allTracks := allTracks ++ albumTracks in
      emit ("Processed album " +++ JS.dquote +++ album_name album +++ JS.dquote
              +++ ".") 45 ;;
      sleep 200 ;;
      collectTracks rest accessToken allTracks
  end.

(** What the callback has in hand once the tracks are collected. *)
Record gathered := mkGathered {
  g_accessToken : option string;
  g_userProfile : profile;
  g_allTracks : list track
}.

(** First half of the try block of the callback (app.js 213-238): token,
    profile, search, collection. *)
Definition gather (fuel : nat) (currentLabel : option string) (code : string)
    : M gathered :=
  emit "Received authorization code." 10 ;;
  accessToken <- getAccessToken code ;;
  emit "Access token received." 20 ;;
  userProfile <- getUserProfile accessToken ;;
  emit ("Logged in as " +++ display_name userProfile +++ " (" +++ id userProfile
          +++ ").") 30 ;;
  albums <- searchAlbumsByLabel fuel currentLabel accessToken ;;
  emit ("Found " +++ JS.of_length albums +++ " albums for label " +++ JS.dquote
          +++ JS.of_opt currentLabel +++ JS.dquote +++ ".") 40 ;;
  allTracks <- collectTracks albums accessToken [] ;;
  ret (mkGathered accessToken userProfile allTracks).

(** The page sent on completion (app.js 272-321), reduced to its text. *)
Definition completion_page : string :=
  "Processing Complete: You can now close this window and check the main page for progress updates.".

(** Second half of the try block (app.js 240-321): the empty-tracks guard,
    the sort, the playlist creation and the batched append. *)
Definition publish (currentLabel : option string) (g : gathered) : M unit :=
  let accessToken := g_accessToken g in
  let userProfile := g_userProfile g in
  let allTracks := g_allTracks g in
  if Nat.eqb (List.length allTracks) 0 then
    emit ("No tracks found for label " +++ JS.dquote +++ JS.of_opt currentLabel
            +++ JS.dquote +++ ".") 50 ;;
    send "No tracks found."
  else
    let allTracks := sortTracks Date_getTime allTracks in
    emit ("Total tracks to add: " +++ JS.of_length allTracks +++ ".") 65 ;;
    let trackURIs := map uri allTracks in
    newPlaylist <- createPlaylist (id userProfile) accessToken currentLabel ;;
    emit ("Created playlist " +++ JS.dquote +++ playlist_name newPlaylist
            +++ JS.dquote +++ ".") 80 ;;
    addTracksToPlaylist (playlist_id newPlaylist) trackURIs accessToken ;;
    emit "All tracks added to the playlist successfully." 90 ;;
    act (Emit (mkProgress
                 "Processing complete. Check the main page for progress updates."
                 100 (Some (external_url newPlaylist)))) ;;
    send completion_page.

(** The event of the empty-tracks guard (app.js 241). *)
Definition no_tracks_event (currentLabel : option string) : progress :=
  mkProgress ("No tracks found for label " +++ JS.dquote +++ JS.of_opt currentLabel
                +++ JS.dquote +++ ".") 50 None.

(** The catch block of the callback (app.js 322-325). *)
Definition on_error (error : error) : M unit :=
  console_error "Error during processing:" (err_message error) ;;
  send failure_page.

(** GET /callback (app.js 205-326); [code] is [req.query.code], and
    [currentLabel] is the value the global holds throughout the run, that
    is when no POST /start arrives while the callback awaits. *)
Definition callback (fuel : nat) (currentLabel : option string)
    (code : option string) : M unit :=
  if JS.falsy code then send "Error: No authorization code provided."
  else
    try_catch
      (g <- gather fuel currentLabel (JS.of_opt code) ;;
       publish currentLabel g)
      on_error.

(** One run: the callback from an empty history. *)
Definition run (fuel : nat) (currentLabel : option string) (code : option string)
    : outcome unit * history :=
  callback fuel currentLabel code [].

End Server.

(** ** Reading a history *)

Definition calls (h : history) : list request :=
  flat_map (fun a => match a with Call r => [r] | _ => [] end) h.

Definition events (h : history) : list progress :=
  flat_map (fun a => match a with Emit p => [p] | _ => [] end) h.

Definition percents (h : history) : list Z := map percent (events h).

Definition sent (h : history) : list string :=
  flat_map (fun a => match a with Send b => [b] | _ => [] end) h.

(** The pages asked of the search endpoint, by offset. *)
Definition search_offsets (h : history) : list Z :=
  flat_map (fun r => match r with GetSearch _ _ _ o => [o] | _ => [] end) (calls h).

(** The batches handed to the add-tracks endpoint. *)
Definition append_batches (h : history) : list (list string) :=
  flat_map (fun r => match r with PostPlaylistTracks _ _ us => [us] | _ => [] end)
    (calls h).

(** Requests of the Playlist Writer: create-playlist and add-tracks. *)
Definition is_writer_call (r : request) : bool :=
  match r with
  | PostPlaylist _ _ _ _ | PostPlaylistTracks _ _ _ => true
  | _ => false
  end.

Definition is_call (a : action) : bool :=
  match a with Call _ => true | _ => false end.

Definition is_emit (a : action) : bool :=
  match a with Emit _ => true | _ => false end.

(** The first request of [h] that the platform fails, with the history
    that preceded it and the error thrown; [before] is what happened ahead
    of [h]. *)
Fixpoint first_failure (api : platform) (before h : history)
    : option (history * request * error) :=
  match h with
  | [] => None
  | a :: rest =>
      match a with
      | Call r =>
          match api before r with
          | inl e => Some (before, r, e)
          | inr _ => first_failure api (before ++ [a]) rest
          end
      | _ => first_failure api (before ++ [a]) rest
      end
  end.

(** Every request of the run was answered successfully. *)
Definition all_answered (api : platform) (h : history) : Prop :=
  first_failure api [] h = None.

(** What the run did after its first failed request. *)
Definition after_failure (api : platform) (h : history) : history :=
  match first_failure api [] h with
  | Some (before, _, _) => skipn (S (List.length before)) h
  | None => []
  end.

(** The number of pages the search loop fetches from the offset [o] on when
    the platform keeps reporting the total [T]: [max(1, ceil((T - o) / 50))]. *)
Definition pages_from (T o : Z) : nat :=
  Z.to_nat (Z.max 1 ((T - o + 49) / 50)).

(** The offsets [o, o + 50, ...] of [n] consecutive pages. *)
Fixpoint page_offsets (n : nat) (o : Z) : list Z :=
  match n with
  | O => []
  | S n' => o :: page_offsets n' (o + 50)
  end.

(** [ceil(n / d)] on naturals. *)
Definition ceil_div (n d : nat) : nat := ((n + d - 1) / d)%nat.

(** ** Weakest preconditions of the effects

    [wp m Q h]: run from the history [h], the computation [m] ends in an
    outcome and a history that satisfy [Q]. *)

Definition wp {A} (m : M A) (Q : outcome A -> history -> Prop) (h : history) : Prop :=
  Q (fst (m h)) (snd (m h)).

(** The postcondition that [bind m k] asks of [m]. *)
Definition bind_post {A B} (k : A -> M B) (Q : outcome B -> history -> Prop)
    : outcome A -> history -> Prop :=
  fun o h =>
    match o with
    | Returned a => wp (k a) Q h
    | Thrown e => Q (Thrown e) h
    | OutOfFuel => Q OutOfFuel h
    end.

(** The postcondition that [try_catch m handler] asks of [m]. *)
Definition catch_post {A} (handler : error -> M A) (Q : outcome A -> history -> Prop)
    : outcome A -> history -> Prop :=
  fun o h =>
    match o with
    | Thrown e => wp (handler e) Q h
    | other => Q other h
    end.

(** ** Invariants of a run *)

(** The percents emitted so far never decrease and lie between 0 and the
    checkpoint [p] reached. *)
Definition progress_ok (p : Z) (h : history) : Prop :=
  Sorted Z.le (percents h) /\ Forall (fun q => 0 <= q <= p) (percents h).

(** [w = false]: the Playlist Writer has not been called. *)
Definition writer_ok (w : bool) (h : history) : Prop :=
  w = false -> Forall (fun r => is_writer_call r = false) (calls h).

(** The state of a run that has not failed: progress up to [p], writer
    calls only if [w], and every request answered. *)
Definition running (api : platform) (p : Z) (w : bool) (h : history) : Prop :=
  progress_ok p h /\ writer_ok w h /\ all_answered api h.

(** The label under which the component that sent [r] logs its failure
    (the first argument of [console.error] in app.js 51, 75, 108, 126, 150
    and 172). *)
Definition failure_label (r : request) : string :=
  match r with
  | PostToken _ _ _ _ => "Error obtaining access token:"
  | GetMe _ => "Error fetching user profile:"
  | GetSearch _ _ _ _ => "Error searching for albums:"
  | GetAlbumTracks albumId _ => "Error fetching tracks for album " +++ albumId +++ ":"
  | PostPlaylist _ _ _ _ => "Error creating playlist:"
  | PostPlaylistTracks _ _ _ => "Error adding tracks to playlist:"
  end.

(** The line a component logs when its request [r] fails with [e]: its
    label, then [error.response?.data || error.message]. *)
Definition failure_log (r : request) (e : error) : string :=
  failure_label r +++ " " +++ error_detail e.

(** The state of a run in which a component has just rethrown [e]: the
    history ends with the failed request and the component's log line, and
    every earlier request was answered. *)
Definition failed (api : platform) (p : Z) (w : bool) (e : error) (h : history) : Prop :=
  progress_ok p h /\ writer_ok w h /\
  exists before r,
    h = before ++ [Call r; Log (failure_log r e)] /\
    all_answered api before /\ api before r = inl e.

(** The postcondition of every component: [running] unless it threw. *)
Definition component_post {A} (api : platform) (p : Z) (w : bool)
    : outcome A -> history -> Prop :=
  fun o h =>
    match o with
    | Thrown e => failed api p w e h
    | _ => running api p w h
    end.

(** How a run that met a failed request ends: the request [r] failed with
    [e] after [before], the component logged the error, and the catch block
    of the callback logged [error.message] and sent [failure_page]. *)
Definition halted_at (api : platform) (before : history) (r : request) (e : error)
    (h : history) : Prop :=
  api before r = inl e /\ all_answered api before /\
  h = before ++ [Call r; Log (failure_log r e);
                 Log ("Error during processing: " +++ err_message e);
                 Send failure_page].

(** The postcondition of the callback. *)
Definition callback_post (api : platform) (o : outcome unit) (h : history) : Prop :=
  progress_ok 100 h /\
  (all_answered api h \/
   (o = Returned tt /\ exists before r e, halted_at api before r e h)).

(** Equality of albums is decidable, field by field. *)
Definition album_eq_dec (a b : album) : {a = b} + {a <> b}.
Proof. decide equality; apply string_dec. Defined.

(** ** Mock platforms, to run the model *)

Module Mock.

Record release := mkRelease {
  rel_album : album;
  rel_tracks : list api_track
}.

Definition find_tracks (catalog : list release) (albumId : string) : list api_track :=
  match find (fun r => String.eqb (album_id (rel_album r)) albumId) catalog with
  | Some r => rel_tracks r
  | None => []
  end.

(** A platform that holds a catalog and answers every request: the search
    serves the slice [offset, offset + limit) of the catalog together with
    its size. *)
Definition serve (catalog : list release) : platform :=
  fun _ r =>
    match r return error + data r with
    | PostToken _ _ _ _ => inr (mkTokenBody (Some "BQD-token"))
    | GetMe _ => inr (mkProfile "user-1" "Ana")
    | GetSearch _ _ limit offset =>
        inr (mkSearchBody
               (JS.slice (Z.to_nat offset) (Z.to_nat (offset + limit))
                  (map rel_album catalog))
               (Z.of_nat (List.length catalog)))
    | GetAlbumTracks albumId _ => inr (find_tracks catalog albumId)
    | PostPlaylist _ _ name _ =>
        inr (mkPlaylist "pl-1" name "https://open.spotify.com/playlist/pl-1")
    | PostPlaylistTracks _ _ _ => inr tt
    end.

(** The page that [serve] lists at the offset [k]. *)
Definition catalog_page (catalog : list release) (k : Z) : list album :=
  JS.slice (Z.to_nat k) (Z.to_nat (k + 50)) (map rel_album catalog).

(** The same platform, except that its request number [n] (from 0) fails. *)
Definition failing_at (n : nat) (e : error) (api : platform) : platform :=
  fun h r => if Nat.eqb (List.length (calls h)) n then inl e else api h r.

(** A token endpoint whose 200 answer carries no [access_token]; the
    profile endpoint then rejects the bearer. *)
Definition tokenless (api : platform) : platform :=
  fun h r =>
    match r return error + data r with
    | PostToken _ _ _ _ => inr (mkTokenBody None)
    | GetMe _ => inl (mkError "Request failed with status code 401" (Some "invalid token"))
    | r' => api h r'
    end.

Definition http500 : error :=
  mkError "Request failed with status code 500" (Some "server error").

(** [n] tracks numbered 1..n of the album [a]. *)
Definition numbered_tracks (a : string) (n : nat) : list api_track :=
  map (fun k => mkApiTrack (Z.of_nat k) (a +++ "t" +++ JS.of_Z (Z.of_nat k)))
    (seq 1 n).

(** [n] releases [r0 .. r(n-1)], each with [k] tracks and the date [d]. *)
Definition releases (n k : nat) (d : string) : list release :=
  map (fun i =>
         let a := "r" +++ JS.of_Z (Z.of_nat i) in
         mkRelease (mkAlbum a a d) (numbered_tracks a k))
    (seq 0 n).

(** 250 track URIs. *)
Definition uris250 : list string := map api_uri (numbered_tracks "u" 250).

(** A catalog of 51 releases: one full page and a page of one. *)
Definition fifty_one : list release := releases 51 1 "2020".

(** The catalog of the README's example label: two releases, the later one
    discovered first. *)
Definition crosstown : list release :=
  [ mkRelease (mkAlbum "A2020" "Later" "2020-01-01") (numbered_tracks "A2020" 2);
    mkRelease (mkAlbum "A2019" "Earlier" "2019-06-15") (numbered_tracks "A2019" 1) ].

(** A run of the callback with the ISO date parser and fixed credentials. *)
Definition run_on (api : platform) (fuel : nat) (currentLabel : option string)
    : outcome unit * history :=
  run "client-id" "client-secret" "http://localhost:8888/callback"
    IsoDate.getTime api fuel currentLabel (Some "auth-code").

(** 51 releases, so two search pages; the request for the second page
    (the fourth request of the run) gets HTTP 500. *)
Definition second_page_fails : platform :=
  failing_at 3 http500 (serve fifty_one).

(** What that run did before the failed request, and the request. *)
Definition second_page_prefix : history :=
  Eval vm_compute in
    match first_failure second_page_fails []
            (snd (run_on second_page_fails 5 (Some "Fifty One"))) with
    | Some (before, _, _) => before
    | None => []
    end.

Definition second_page_request : request :=
  GetSearch "Bearer BQD-token"
    ("label:" +++ JS.dquote +++ "Fifty One" +++ JS.dquote) 50 50.

(** A platform whose search always reports 120 matches but lists a single
    release per page. *)
Definition short_page (k : Z) : list album :=
  [mkAlbum ("a" +++ JS.of_Z k) "Single listing" "2021-03-05"].

Definition short_pages : platform :=
  fun h r =>
    match r return error + data r with
    | GetSearch _ _ _ offset => inr (mkSearchBody (short_page offset) 120)
    | r' => serve [] h r'
    end.

(** Two releases whose track listings are empty, and what the first half
    of the callback yields on them. *)
Definition empty_releases : list release := releases 2 0 "2020".

Definition quiet_gathered : gathered :=
  mkGathered (Some "BQD-token") (mkProfile "user-1" "Ana") [].

Definition quiet_history : history :=
  Eval vm_compute in
    snd (gather "client-id" "client-secret" "http://localhost:8888/callback"
           (serve empty_releases) 5 (Some "Quiet") "auth-code" []).

(** Tracks as collected from two releases R1 (three tracks) and R2 (two
    tracks) that share the release date [d], R1 first. *)
Definition R1 (d : string) : list track :=
  [mkTrack "R1t1" d 1; mkTrack "R1t2" d 2; mkTrack "R1t3" d 3].

Definition R2 (d : string) : list track :=
  [mkTrack "R2t1" d 1; mkTrack "R2t2" d 2].

End Mock.

(** ** The protocol of a run

    The stages a run goes through, read off the order of the statements of
    the callback (app.js 212-321), and the actions each stage allows. *)

(** [`label:"${label}"`], the query of [searchAlbumsByLabel] (app.js 83). *)
Definition label_query (label : option string) : string :=
  "label:" +++ JS.dquote +++ JS.of_opt label +++ JS.dquote.

(** [`Label Playlist: ${label} (Chronological)`], the name given by
    [createPlaylist] (app.js 134). *)
Definition playlist_title (label : option string) : string :=
  "Label Playlist: " +++ JS.of_opt label +++ " (Chronological)".

(** Where a run stands, by the last request it sent; from the profile
    lookup on, the stage remembers the Authorization header in use, and the
    search remembers the offset of the next page. *)
Inductive stage :=
| Idle
| TokenAsked
| ProfileAsked (auth : string)
| Searching (auth : string) (next : Z)
| Collecting (auth : string)
| Created (auth : string)
| Appending (auth : string)
| Announced (auth : string).

(** Stages in which progress may still be reported. *)
Definition reporting (s : stage) : Prop :=
  match s with
  | Announced _ => False
  | _ => True
  end.

(** One action of a run that has not answered the browser yet. *)
Inductive step (label : option string) : stage -> action -> stage -> Prop :=
| step_log s line : step label s (Log line) s
| step_sleep s ms : step label s (Sleep ms) s
| step_emit s msg pct :
    reporting s -> step label s (Emit (mkProgress msg pct None)) s
| step_token code uri cid secret :
    step label Idle (Call (PostToken code uri cid secret)) TokenAsked
| step_profile a :
    step label TokenAsked (Call (GetMe a)) (ProfileAsked a)
| step_first_page a :
    step label (ProfileAsked a) (Call (GetSearch a (label_query label) 50 0))
      (Searching a 50)
| step_next_page a o :
    step label (Searching a o) (Call (GetSearch a (label_query label) 50 o))
      (Searching a (o + 50))
| step_first_album a o albumId :
    step label (Searching a o) (Call (GetAlbumTracks albumId a)) (Collecting a)
| step_next_album a albumId :
    step label (Collecting a) (Call (GetAlbumTracks albumId a)) (Collecting a)
| step_create a userId description :
    step label (Collecting a)
      (Call (PostPlaylist userId a (playlist_title label) description)) (Created a)
| step_first_batch a playlistId uris :
    step label (Created a) (Call (PostPlaylistTracks playlistId a uris)) (Appending a)
| step_next_batch a playlistId uris :
    step label (Appending a) (Call (PostPlaylistTracks playlistId a uris)) (Appending a)
| step_announce a msg url :
    step label (Appending a) (Emit (mkProgress msg 100 (Some url))) (Announced a).

(** [follows label h s answered]: the history [h] of a run leads from the
    start to the stage [s]; [answered] tells whether the HTTP answer has
    been sent, after which nothing more happens. *)
Inductive follows (label : option string) : history -> stage -> bool -> Prop :=
| follows_start : follows label [] Idle false
| follows_step h s a s' :
    follows label h s false -> step label s a s' ->
    follows label (h ++ [a]) s' false
| follows_send h s body :
    follows label h s false -> follows label (h ++ [Send body]) s true.

(** The postcondition of a component under the protocol: the history still
    follows it, unanswered; a returned value relates to the stage reached as
    [R] says, and the component runs out of fuel only in a stage [F]. *)
Definition stage_post {A} (label : option string) (R : A -> stage -> Prop)
    (F : stage -> Prop) : outcome A -> history -> Prop :=
  fun o h =>
    exists s, follows label h s false /\
              match o with
              | Returned a => R a s
              | Thrown _ => True
              | OutOfFuel => F s
              end.

(** A component that always ends. *)
Definition ends : stage -> Prop := fun _ => False.

(** Where a run stands when the model has fetched [fuel] search pages and
    the search goes on. *)
Definition stalled (fuel : nat) (s : stage) : Prop :=
  match fuel with
  | O => exists auth, s = ProfileAsked auth
  | S _ => exists auth, s = Searching auth (50 * Z.of_nat fuel)
  end.

(** The stage of a request, in the order of the pipeline. *)
Definition rank (r : request) : nat :=
  match r with
  | PostToken _ _ _ _ => 1
  | GetMe _ => 2
  | GetSearch _ _ _ _ => 3
  | GetAlbumTracks _ _ => 4
  | PostPlaylist _ _ _ _ => 5
  | PostPlaylistTracks _ _ _ => 6
  end.

(** The requests a run may repeat: search pages, album listings, batches. *)
Definition repeatable (r : request) : bool :=
  match r with
  | GetSearch _ _ _ _ | GetAlbumTracks _ _ | PostPlaylistTracks _ _ _ => true
  | _ => false
  end.

(** [r1] may come before [r2] in a run. *)
Definition stage_order (r1 r2 : request) : Prop :=
  (rank r1 < rank r2)%nat \/ (rank r1 = rank r2 /\ repeatable r1 = true).

(** The highest rank of request a stage has seen. *)
Definition level (s : stage) : nat :=
  match s with
  | Idle => 0
  | TokenAsked => 1
  | ProfileAsked _ => 2
  | Searching _ _ => 3
  | Collecting _ => 4
  | Created _ => 5
  | Appending _ | Announced _ => 6
  end.

(** The Authorization header of a request; the token exchange has none of
    this kind (it carries the client credentials). *)
Definition authorization (r : request) : option string :=
  match r with
  | PostToken _ _ _ _ => None
  | GetMe a | GetSearch a _ _ _ | GetAlbumTracks _ a
  | PostPlaylist _ a _ _ | PostPlaylistTracks _ a _ => Some a
  end.

Definition is_search (r : request) : bool :=
  match r with GetSearch _ _ _ _ => true | _ => false end.

Definition is_create (r : request) : bool :=
  match r with PostPlaylist _ _ _ _ => true | _ => false end.

Definition is_append (r : request) : bool :=
  match r with PostPlaylistTracks _ _ _ => true | _ => false end.

(** An event that carries a playlist link. *)
Definition has_link (p : progress) : bool :=
  match playlist_url p with Some _ => true | None => false end.

(** The batches the loop of [addTracksToPlaylist] forms from the index [i]
    on: [n] slices of a hundred. *)
Definition batches_from (trackURIs : list string) (i n : nat) : list (list string) :=
  map (fun j => JS.slice (i + 100 * j) (i + 100 * j + 100) trackURIs) (seq 0 n).

Definition batch_list (trackURIs : list string) : list (list string) :=
  batches_from trackURIs 0 (ceil_div (List.length trackURIs) 100).

(** The postcondition of the second half of the callback: an answer has
    been sent when it returns, none when it throws. *)
Definition answer_post (label : option string) : outcome unit -> history -> Prop :=
  fun o h =>
    exists s,
      match o with
      | Returned _ => follows label h s true
      | Thrown _ => follows label h s false
      | OutOfFuel => False
      end.

(** The postcondition of the callback: it never throws, it has answered
    when it returns, and it is out of fuel only in a stage [F]. *)
Definition callback_follows (label : option string) (F : stage -> Prop)
    : outcome unit -> history -> Prop :=
  fun o h =>
    exists s,
      match o with
      | Returned _ => follows label h s true
      | OutOfFuel => follows label h s false /\ F s
      | Thrown _ => False
      end.

(** ** More platforms, to run the model *)

Module Scenario.

(** A platform whose search reports, at every offset, a total a hundred
    beyond it, and lists nothing. *)
Definition growing : platform :=
  fun h r =>
    match r return error + data r with
    | GetSearch _ _ _ offset => inr (mkSearchBody [] (offset + 100))
    | r' => Mock.serve [] h r'
    end.

(** Three albums; the platform has the listings of the first and the last
    and fails the listing of [B]. *)
Definition three_albums : list album :=
  [mkAlbum "A" "First" "2019-06-15"; mkAlbum "B" "Second" "2020-01-01";
   mkAlbum "C" "Third" "2021"].

Definition listing (albumId : string) : list api_track :=
  Mock.numbered_tracks albumId 2.

Definition listing_fails_at_B : platform :=
  fun h r =>
    match r return error + data r with
    | GetAlbumTracks albumId _ =>
        if String.eqb albumId "B" then inl Mock.http500 else inr (listing albumId)
    | r' => Mock.serve [] h r'
    end.

Definition listing_works : platform :=
  fun h r =>
    match r return error + data r with
    | GetAlbumTracks albumId _ => inr (listing albumId)
    | r' => Mock.serve [] h r'
    end.

(** A platform that accepts the first batch sent to a playlist and fails
    the following ones. *)
Definition second_batch_fails : platform :=
  fun h r =>
    match r return error + data r with
    | PostPlaylistTracks _ _ _ =>
        if Nat.eqb (List.length (append_batches h)) 0 then inr tt
        else inl Mock.http500
    | r' => Mock.serve [] h r'
    end.

(** What the first half of the callback yields on the README's example. *)
Definition crosstown_gathered : gathered :=
  mkGathered (Some "BQD-token") (mkProfile "user-1" "Ana")
    [mkTrack "A2020t1" "2020-01-01" 1; mkTrack "A2020t2" "2020-01-01" 2;
     mkTrack "A2019t1" "2019-06-15" 1].

Definition crosstown_history : history :=
  Eval vm_compute in
    snd (gather "client-id" "client-secret" "http://localhost:8888/callback"
           (Mock.serve Mock.crosstown) 5 (Some "Crosstown Rebels") "auth-code" []).

Definition crosstown_playlist : playlist :=
  mkPlaylist "pl-1" "Label Playlist: Crosstown Rebels (Chronological)"
    "https://open.spotify.com/playlist/pl-1".

End Scenario.

(** ** The delays between requests *)

(** The pause the loops of app.js make after a request: 500 ms after a
    search page (line 106), 200 ms after an album listing (line 237),
    300 ms after a batch (line 170). *)
Definition delay_after (r : request) : option Z :=
  match r with
  | GetSearch _ _ _ _ => Some 500
  | GetAlbumTracks _ _ => Some 200
  | PostPlaylistTracks _ _ _ => Some 300
  | _ => None
  end.

Definition is_sleep (a : action) : bool :=
  match a with Sleep _ => true | _ => false end.

(** [paced h due]: in the history [h] no request was sent while a pause
    was due, and [due] is the pause still due at its end. *)
Inductive paced : history -> option Z -> Prop :=
| paced_start : paced [] None
| paced_call h r : paced h None -> paced (h ++ [Call r]) (delay_after r)
| paced_rest h ms : paced h (Some ms) -> paced (h ++ [Sleep ms]) None
| paced_other h due a :
    paced h due -> is_call a = false -> is_sleep a = false ->
    paced (h ++ [a]) due.

(** The postcondition of a component: no pause is due when it returns. *)
Definition rest_post {A} : outcome A -> history -> Prop :=
  fun o h =>
    match o with
    | Thrown _ => exists due, paced h due
    | _ => paced h None
    end.

Module Pacing.

(** The run of the README's example, cut around its two album requests. *)
Definition crosstown_run : history :=
  Eval vm_compute in
    snd (Mock.run_on (Mock.serve Mock.crosstown) 5 (Some "Crosstown Rebels")).

Definition before_first_album : history := firstn 9 crosstown_run.

Definition between_albums : history := firstn 2 (skipn 10 crosstown_run).

Definition after_second_album : history := skipn 13 crosstown_run.

End Pacing.

(** ** The token a run was given *)

(** The access token of a history: the [access_token] field of the
    platform's answer to the first token request of [h], when that request
    was answered ([Some None] when the answer has no such field); [before] is
    what happened ahead of [h]. *)
Fixpoint exchanged_token (api : platform) (before h : history)
    : option (option string) :=
  match h with
  | [] => None
  | a :: rest =>
      match a with
      | Call (PostToken code redirect_uri client_id client_secret) =>
          match api before (PostToken code redirect_uri client_id client_secret) with
          | inr body => Some (access_token body)
          | inl _ => None
          end
      | _ => exchanged_token api (before ++ [a]) rest
      end
  end.

(** A request that carries no Authorization header of the bearer kind. *)
Definition unauthorized (r : request) : Prop := authorization r = None.

(** The run was given [token], and each of its requests that carries an
    Authorization header carries [Bearer <token>]. *)
Definition bears (api : platform) (token : option string) (h : history) : Prop :=
  exchanged_token api [] h = Some token /\
  Forall (fun r => authorization r = None \/ authorization r = Some (bearer token))
    (calls h).

(** Either no request of the run carries a bearer header yet, or the run
    [bears] the token it was given. *)
Definition settled (api : platform) (h : history) : Prop :=
  Forall unauthorized (calls h) \/ exists token, bears api token h.

(** The postcondition of the token exchange. *)
Definition token_post (api : platform) : outcome (option string) -> history -> Prop :=
  fun o h =>
    match o with
    | Returned token => bears api token h
    | _ => Forall unauthorized (calls h)
    end.

(** The postcondition of the first half of the callback. *)
Definition gather_bears (api : platform) : outcome gathered -> history -> Prop :=
  fun o h =>
    match o with
    | Returned g => bears api (g_accessToken g) h
    | _ => settled api h
    end.

(** ** The label, read while the run goes on *)

(** [currentLabel] is a global of app.js (line 32): POST /start overwrites
    it (line 189), and the callback reads it four times, at lines 224, 225,
    241 and 261, with awaits in between.  A [label_store] gives the value of
    the global at the moment the run has come as far as a history, so that a
    POST /start that arrives while the callback awaits changes what the next
    read sees.  [callback] above is the run during which no POST /start
    arrives: the store is constant. *)
Definition label_store : Type := history -> option string.

(** A read of the global [currentLabel]. *)
Definition read_label (currentLabel : label_store) : M (option string) :=
  fun h => (Returned (currentLabel h), h).

Section LiveLabel.

Variable CLIENT_ID : string.
Variable CLIENT_SECRET : string.
Variable REDIRECT_URI : string.
Variable Date_getTime : string -> option Z.
Variable api : platform.

(** app.js 213-238, the label read at lines 224 and 225. *)
Definition gather_live (fuel : nat) (currentLabel : label_store) (code : string)
    : M gathered :=
  emit "Received authorization code." 10 ;;
  accessToken <- getAccessToken CLIENT_ID CLIENT_SECRET REDIRECT_URI api code ;;
  emit "Access token received." 20 ;;
  userProfile <- getUserProfile api accessToken ;;
  emit ("Logged in as " +++ display_name userProfile +++ " (" +++ id userProfile
          +++ ").") 30 ;;
  label <- read_label currentLabel ;;
  albums <- searchAlbumsByLabel api fuel label accessToken ;;
  label <- read_label currentLabel ;;
  emit ("Found " +++ JS.of_length albums +++ " albums for label " +++ JS.dquote
          +++ JS.of_opt label +++ JS.dquote +++ ".") 40 ;;
  allTracks <- collectTracks api albums accessToken [] ;;
  ret (mkGathered accessToken userProfile allTracks).

(** app.js 240-321, the label read at line 241 or at line 261. *)
Definition publish_live (currentLabel : label_store) (g : gathered) : M unit :=
  let accessToken := g_accessToken g in
  let userProfile := g_userProfile g in
  let allTracks := g_allTracks g in
  if Nat.eqb (List.length allTracks) 0 then
    label <- read_label currentLabel ;;
    emit ("No tracks found for label " +++ JS.dquote +++ JS.of_opt label
            +++ JS.dquote +++ ".") 50 ;;
    send "No tracks found."
  else
    let allTracks := sortTracks Date_getTime allTracks in
    emit ("Total tracks to add: " +++ JS.of_length allTracks +++ ".") 65 ;;
    let trackURIs := map uri allTracks in
    label <- read_label currentLabel ;;
    newPlaylist <- createPlaylist api (id userProfile) accessToken label ;;
    emit ("Created playlist " +++ JS.dquote +++ playlist_name newPlaylist
            +++ JS.dquote +++ ".") 80 ;;
    addTracksToPlaylist api (playlist_id newPlaylist) trackURIs accessToken ;;
    emit "All tracks added to the playlist successfully." 90 ;;
    act (Emit (mkProgress
                 "Processing complete. Check the main page for progress updates."
                 100 (Some (external_url newPlaylist)))) ;;
    send completion_page.

(** GET /callback (app.js 205-326) with the global re-read at each use. *)
Definition callback_live (fuel : nat) (currentLabel : label_store)
    (code : option string) : M unit :=
  if JS.falsy code then send "Error: No authorization code provided."
  else
    try_catch
      (g <- gather_live fuel currentLabel (JS.of_opt code) ;;
       publish_live currentLabel g)
      on_error.

(** One run of the callback while POST /start may go on arriving. *)
Definition run_live (fuel : nat) (currentLabel : label_store)
    (code : option string) : outcome unit * history :=
  callback_live fuel currentLabel code [].

End LiveLabel.

(** An action that sends a request built from the label: a search page or
    the creation of the playlist. *)
Definition names_label (a : action) : bool :=
  match a with
  | Call r => is_search r || is_create r
  | _ => false
  end.

(** [labelled currentLabel h s]: every request of [h] built from the label
    was built from the value the global had when it was sent, as follows.
    The first search page carries the query of the label of that moment, at
    the offset 0; [s] then holds the Authorization header and the query of
    the search and the offset of its next page, and each later page repeats
    the two at that offset; a playlist is created under the title of the
    label of the moment of its creation. *)
Inductive labelled (currentLabel : label_store)
    : history -> option (string * string * Z) -> Prop :=
| labelled_start : labelled currentLabel [] None
| labelled_first_page h auth :
    labelled currentLabel h None ->
    labelled currentLabel
      (h ++ [Call (GetSearch auth (label_query (currentLabel h)) 50 0)])
      (Some (auth, label_query (currentLabel h), 50))
| labelled_next_page h auth q offset :
    labelled currentLabel h (Some (auth, q, offset)) ->
    labelled currentLabel (h ++ [Call (GetSearch auth q 50 offset)])
      (Some (auth, q, offset + 50))
| labelled_create h s userId auth description :
    labelled currentLabel h s ->
    labelled currentLabel
      (h ++ [Call (PostPlaylist userId auth (playlist_title (currentLabel h))
                     description)]) s
| labelled_other h s a :
    labelled currentLabel h s -> names_label a = false ->
    labelled currentLabel (h ++ [a]) s.

(** The postcondition of the components that run before the search. *)
Definition unsearched_post {A} (currentLabel : label_store)
    : outcome A -> history -> Prop :=
  fun o h =>
    match o with
    | Returned _ => labelled currentLabel h None
    | _ => exists s, labelled currentLabel h s
    end.

(** The postcondition of the other components. *)
Definition labelled_post {A} (currentLabel : label_store)
    : outcome A -> history -> Prop :=
  fun _ h => exists s, labelled currentLabel h s.

Module Overwrite.

(** POST /start stores another label while the callback awaits the first
    search page: the global holds [Alpha] until the search request is sent,
    [Beta] from then on. *)
Definition store : label_store :=
  fun h =>
    if existsb is_search (calls h) then Some "Beta" else Some "Alpha".

Definition run_on_crosstown : outcome unit * history :=
  run_live "client-id" "client-secret" "http://localhost:8888/callback"
    IsoDate.getTime (Mock.serve Mock.crosstown) 5 store (Some "auth-code").

End Overwrite.

(** * Properties *)

(** ** Rules of the weakest precondition *)

Lemma wp_ret {A} (a : A) Q h : wp (ret a) Q h <-> Q (Returned a) h.
Proof. reflexivity. Qed.

Lemma wp_throw {A} e (Q : outcome A -> history -> Prop) h :
  wp (throw e) Q h <-> Q (Thrown e) h.
Proof. reflexivity. Qed.

Lemma wp_diverge {A} (Q : outcome A -> history -> Prop) h :
  wp diverge Q h <-> Q OutOfFuel h.
Proof. reflexivity. Qed.

Lemma wp_act a Q h : wp (act a) Q h <-> Q (Returned tt) (h ++ [a]).
Proof. reflexivity. Qed.

Lemma wp_bind {A B} (m : M A) (k : A -> M B) Q h :
  wp (bind m k) Q h <-> wp m (bind_post k Q) h.
Proof.
  unfold wp, bind_post, bind. destruct (m h) as [[a|e|] h']; reflexivity.
Qed.

Lemma wp_try_catch {A} (m : M A) handler Q h :
  wp (try_catch m handler) Q h <-> wp m (catch_post handler Q) h.
Proof.
  unfold wp, catch_post, try_catch. destruct (m h) as [[a|e|] h']; reflexivity.
Qed.

Lemma wp_axios api r Q h :
  wp (axios api r) Q h <->
  match api h r with
  | inl e => Q (Thrown e) (h ++ [Call r])
  | inr d => Q (Returned d) (h ++ [Call r])
  end.
Proof. unfold wp, axios. destruct (api h r); reflexivity. Qed.

Lemma wp_mono {A} (m : M A) (Q Q' : outcome A -> history -> Prop) h :
  (forall o h', Q o h' -> Q' o h') -> wp m Q h -> wp m Q' h.
Proof. unfold wp. auto. Qed.

(** ** Reading a history that grows *)

Lemma calls_app h1 h2 : calls (h1 ++ h2) = calls h1 ++ calls h2.
Proof. apply flat_map_app. Qed.

Lemma events_app h1 h2 : events (h1 ++ h2) = events h1 ++ events h2.
Proof. apply flat_map_app. Qed.

Lemma percents_app h1 h2 : percents (h1 ++ h2) = percents h1 ++ percents h2.
Proof. unfold percents. now rewrite events_app, map_app. Qed.

Lemma sent_app h1 h2 : sent (h1 ++ h2) = sent h1 ++ sent h2.
Proof. apply flat_map_app. Qed.

Lemma search_offsets_app h1 h2 :
  search_offsets (h1 ++ h2) = search_offsets h1 ++ search_offsets h2.
Proof. unfold search_offsets. now rewrite calls_app, flat_map_app. Qed.

Lemma append_batches_app h1 h2 :
  append_batches (h1 ++ h2) = append_batches h1 ++ append_batches h2.
Proof. unfold append_batches. now rewrite calls_app, flat_map_app. Qed.

Lemma first_failure_app api before h1 h2 :
  first_failure api before (h1 ++ h2) =
  match first_failure api before h1 with
  | Some f => Some f
  | None => first_failure api (before ++ h1) h2
  end.
Proof.
  revert before. induction h1 as [|a h1 IH]; intros before.
  - cbn. now rewrite app_nil_r.
  - cbn [app first_failure].
    replace (before ++ a :: h1) with ((before ++ [a]) ++ h1)
      by now rewrite <- app_assoc.
    destruct a; try apply IH. destruct (api before r); [reflexivity | apply IH].
Qed.

Lemma Sorted_snoc (l : list Z) (x : Z) :
  Sorted Z.le l -> Forall (fun y => y <= x) l -> Sorted Z.le (l ++ [x]).
Proof.
  induction 1 as [|a l Hs IH Hhd]; intros Hb; cbn.
  - repeat constructor.
  - inversion Hb; subst. constructor; [now apply IH|].
    destruct l; cbn; constructor; [assumption | now inversion Hhd].
Qed.

Lemma wp_run {A} (m : M A) Q h o h' : wp m Q h -> m h = (o, h') -> Q o h'.
Proof. unfold wp. intros H E. now rewrite E in H. Qed.

(** ** [Array_sort]: permutation, order between neighbours, stability *)

Section ArraySortFacts.

Context {A : Type}.
Variable comparefn : A -> A -> option Z.

Local Abbreviation SortCompare := (SortCompare comparefn).
Local Abbreviation sort_insert := (sort_insert comparefn).
Local Abbreviation Array_sort := (Array_sort comparefn).

Lemma sort_insert_perm x l : Permutation (sort_insert x l) (x :: l).
Proof.
  induction l as [|y l IH]; simpl; [reflexivity|].
  destruct (SortCompare x y <=? 0); [reflexivity|].
  rewrite IH. apply perm_swap.
Qed.

Lemma Array_sort_perm l : Permutation (Array_sort l) l.
Proof.
  induction l as [|x l IH]; simpl; [constructor|].
  rewrite sort_insert_perm. now constructor.
Qed.

Lemma Array_sort_Forall (P : A -> Prop) l : Forall P l -> Forall P (Array_sort l).
Proof.
  intros H. rewrite Forall_forall in *. intros x Hx. apply H.
  eapply Permutation_in; [apply Array_sort_perm | exact Hx].
Qed.

(** Sortedness and stability need the comparator to be consistent on the
    elements at hand: [dom] is the set on which it is. *)
Variable dom : A -> Prop.
Variable le : A -> A -> Prop.
Hypothesis le_of_compare : forall x y, dom x -> dom y -> SortCompare x y <= 0 -> le x y.
Hypothesis le_of_greater : forall x y, dom x -> dom y -> 0 < SortCompare x y -> le y x.

Lemma sort_insert_HdRel x y l :
  dom x -> dom y -> Forall dom l ->
  0 < SortCompare x y -> HdRel le y l -> HdRel le y (sort_insert x l).
Proof.
  intros Hx Hy Hl Hgt Hhd. destruct l as [|z l]; simpl.
  - constructor. now apply le_of_greater.
  - destruct (SortCompare x z <=? 0).
    + constructor. now apply le_of_greater.
    + constructor. now inversion Hhd.
Qed.

Lemma sort_insert_Sorted x l :
  dom x -> Forall dom l -> Sorted le l -> Sorted le (sort_insert x l).
Proof.
  intros Hx Hl Hs. induction l as [|y l IH]; simpl.
  - repeat constructor.
  - inversion Hl; subst. inversion Hs; subst.
    destruct (SortCompare x y <=? 0) eqn:E.
    + constructor; [assumption|]. constructor.
      apply le_of_compare; auto. now apply Z.leb_le.
    + apply Z.leb_gt in E. constructor; [now apply IH|].
      now apply sort_insert_HdRel.
Qed.

Lemma Array_sort_Sorted l : Forall dom l -> Sorted le (Array_sort l).
Proof.
  induction 1 as [|x l Hx Hl IH]; simpl; [constructor|].
  apply sort_insert_Sorted; auto. now apply Array_sort_Forall.
Qed.

(** Stability, for a class of elements that the comparator never orders
    strictly: the members of the class keep their relative positions. *)
Variable cls : A -> bool.
Hypothesis cls_tied : forall x y,
  dom x -> dom y -> cls x = true -> cls y = true -> SortCompare x y <= 0.

Lemma sort_insert_filter x l :
  dom x -> Forall dom l -> filter cls (sort_insert x l) = filter cls (x :: l).
Proof.
  intros Hx Hl. induction Hl as [|y l Hy Hl IH]; [reflexivity|].
  cbn [sort_insert]. destruct (SortCompare x y <=? 0) eqn:E; [reflexivity|].
  apply Z.leb_gt in E. cbn [filter] in *. rewrite IH.
  destruct (cls x) eqn:Cx, (cls y) eqn:Cy; try reflexivity.
  specialize (cls_tied x y Hx Hy Cx Cy). lia.
Qed.

Lemma Array_sort_filter l : Forall dom l -> filter cls (Array_sort l) = filter cls l.
Proof.
  induction 1 as [|x l Hx Hl IH]; [reflexivity|].
  cbn [Array_sort]. rewrite sort_insert_filter; auto using Array_sort_Forall.
  cbn [filter]. now rewrite IH.
Qed.

End ArraySortFacts.

(** Neighbours of a sorted list, by position. *)
Lemma Sorted_adjacent {A} (R : A -> A -> Prop) (l : list A) :
  Sorted R l ->
  forall i x y, nth_error l i = Some x -> nth_error l (S i) = Some y -> R x y.
Proof.
  induction 1 as [|a l Hs IH Hhd]; intros i x y Hx Hy.
  - now destruct i.
  - destruct i as [|i]; cbn in Hx, Hy.
    + injection Hx as <-. destruct l as [|b l]; [discriminate|].
      cbn in Hy. injection Hy as <-. now inversion Hhd.
    + eapply IH; eassumption.
Qed.

(** ** The chronological sorter *)

Section SorterFacts.

Variable Date_getTime : string -> option Z.

Local Abbreviation compareTracks := (compareTracks Date_getTime).
Local Abbreviation sortTracks := (sortTracks Date_getTime).
Local Abbreviation chron_le := (chron_le Date_getTime).
Local Abbreviation valid_date := (valid_date Date_getTime).
Local Abbreviation has_key := (has_key Date_getTime).

Lemma compare_le x y :
  valid_date x -> valid_date y ->
  SortCompare compareTracks x y <= 0 -> chron_le x y.
Proof.
  unfold valid_date, SortCompare, compareTracks, chron_le.
  intros Hx Hy.
  destruct (Date_getTime (albumReleaseDate x)) as [dx|]; [|contradiction].
  destruct (Date_getTime (albumReleaseDate y)) as [dy|]; [|contradiction].
  destruct (Z.eqb_spec dx dy); lia.
Qed.

Lemma compare_greater x y :
  valid_date x -> valid_date y ->
  0 < SortCompare compareTracks x y -> chron_le y x.
Proof.
  unfold valid_date, SortCompare, compareTracks, chron_le.
  intros Hx Hy.
  destruct (Date_getTime (albumReleaseDate x)) as [dx|]; [|contradiction].
  destruct (Date_getTime (albumReleaseDate y)) as [dy|]; [|contradiction].
  destruct (Z.eqb_spec dx dy); lia.
Qed.

Lemma compare_same_key d n x y :
  valid_date x -> valid_date y ->
  has_key d n x = true -> has_key d n y = true ->
  SortCompare compareTracks x y <= 0.
Proof.
  unfold has_key, SortCompare, compareTracks.
  intros _ _.
  destruct (Date_getTime (albumReleaseDate x)) as [dx|]; [|discriminate].
  destruct (Date_getTime (albumReleaseDate y)) as [dy|]; [|discriminate].
  rewrite !andb_true_iff, !Z.eqb_eq. intros [-> ->] [-> ->].
  rewrite Z.eqb_refl. lia.
Qed.

Lemma has_key_spec d n x :
  has_key d n x = true <->
  Date_getTime (albumReleaseDate x) = Some d /\ albumTrackNumber x = n.
Proof.
  unfold has_key. destruct (Date_getTime (albumReleaseDate x)) as [dx|].
  - rewrite andb_true_iff, !Z.eqb_eq. split.
    + now intros [-> ->].
    + intros [[= ->] ->]. auto.
  - split; [discriminate | intros [[=] _]].
Qed.

Lemma chron_le_trans x y z : chron_le x y -> chron_le y z -> chron_le x z.
Proof.
  unfold chron_le.
  destruct (Date_getTime (albumReleaseDate x)) as [dx|]; [|contradiction].
  destruct (Date_getTime (albumReleaseDate y)) as [dy|]; [|contradiction].
  destruct (Date_getTime (albumReleaseDate z)) as [dz|]; [|tauto].
  lia.
Qed.

(** Two tracks ordered both ways have the same date and number. *)
Lemma chron_le_antisym x y :
  chron_le x y -> chron_le y x ->
  exists d, Date_getTime (albumReleaseDate x) = Some d
            /\ has_key d (albumTrackNumber x) y = true.
Proof.
  unfold chron_le. intros Hxy Hyx.
  destruct (Date_getTime (albumReleaseDate x)) as [dx|] eqn:Ex; [|contradiction].
  destruct (Date_getTime (albumReleaseDate y)) as [dy|] eqn:Ey; [|contradiction].
  exists dx. split; [reflexivity|]. apply has_key_spec. rewrite Ey.
  split; [f_equal|]; lia.
Qed.

Lemma filter_tail d n (a : track) l1 l2 :
  filter (has_key d n) (a :: l1) = filter (has_key d n) (a :: l2) ->
  filter (has_key d n) l1 = filter (has_key d n) l2.
Proof.
  cbn [filter]. destruct (has_key d n a); [now intros [= ->] | trivial].
Qed.

(** A sorted list of tracks with parsed dates is determined by its classes
    of equal keys: whatever stable sort the engine runs, it returns what
    [Array_sort] returns. *)
Lemma stable_sorted_unique l1 : forall l2,
  Forall valid_date l1 -> Forall valid_date l2 ->
  StronglySorted chron_le l1 -> StronglySorted chron_le l2 ->
  (forall d n, filter (has_key d n) l1 = filter (has_key d n) l2) ->
  l1 = l2.
Proof.
  assert (Hself : forall x, valid_date x ->
            exists d, Date_getTime (albumReleaseDate x) = Some d
                      /\ has_key d (albumTrackNumber x) x = true).
  { intros x Hx. unfold valid_date in Hx.
    destruct (Date_getTime (albumReleaseDate x)) as [d|] eqn:E; [|contradiction].
    exists d. split; [reflexivity|]. apply has_key_spec. auto. }
  induction l1 as [|a l1 IH]; intros l2 Hv1 Hv2 Hs1 Hs2 Hcls.
  - destruct l2 as [|b l2]; [reflexivity|]. inversion Hv2; subst.
    destruct (Hself b) as (d & _ & Hb); [assumption|].
    specialize (Hcls d (albumTrackNumber b)). cbn in Hcls.
    rewrite Hb in Hcls. discriminate.
  - inversion Hv1 as [|? ? Ha Hv1']; subst.
    destruct (Hself a Ha) as (da & Eda & Haa).
    destruct l2 as [|b l2].
    { specialize (Hcls da (albumTrackNumber a)). cbn in Hcls.
      rewrite Haa in Hcls. discriminate. }
    inversion Hv2 as [|? ? Hb Hv2']; subst.
    destruct (Hself b Hb) as (db & Edb & Hbb).
    inversion Hs1 as [|? ? Hs1' Hle1]; subst.
    inversion Hs2 as [|? ? Hs2' Hle2]; subst.
    rewrite Forall_forall in Hle1, Hle2.
    assert (Hab : has_key da (albumTrackNumber a) b = true).
    { destruct (has_key da (albumTrackNumber a) b) eqn:Hkb; [reflexivity|].
      pose proof (Hcls da (albumTrackNumber a)) as Ca. cbn [filter] in Ca.
      rewrite Haa, Hkb in Ca.
      assert (Hin : In a l2).
      { eapply (proj1 (filter_In _ a l2)). rewrite <- Ca. now left. }
      pose proof (Hcls db (albumTrackNumber b)) as Cb. cbn [filter] in Cb.
      rewrite Hbb in Cb.
      destruct (has_key db (albumTrackNumber b) a) eqn:Hka.
      - apply has_key_spec in Hka. destruct Hka as [Hka1 Hka2].
        assert (da = db) by congruence. subst db.
        rewrite Hka2, Hbb in Hkb. discriminate.
      - assert (Hin' : In b l1).
        { eapply (proj1 (filter_In _ b l1)). rewrite Cb. now left. }
        destruct (chron_le_antisym a b (Hle1 b Hin') (Hle2 a Hin))
          as (d & Ed & Hk).
        rewrite Eda in Ed. injection Ed as <-. congruence. }
    pose proof (Hcls da (albumTrackNumber a)) as Ca. cbn [filter] in Ca.
    rewrite Haa, Hab in Ca. injection Ca as <- _.
    f_equal. apply IH; auto. intros d n. eapply filter_tail, Hcls.
Qed.

(** Two tracks of one release date are compared by track number. *)
Lemma compare_same_date d t u n u' n' :
  Date_getTime d = Some t ->
  SortCompare compareTracks (mkTrack u d n) (mkTrack u' d n') = n - n'.
Proof.
  intros E. unfold SortCompare, compareTracks. cbn [albumReleaseDate albumTrackNumber].
  now rewrite E, Z.eqb_refl.
Qed.

End SorterFacts.

(** Any sorted, stable rearrangement of tracks with parsed dates is the one
    the model of [Array.prototype.sort] returns. *)
Lemma sortTracks_unique (Date_getTime : string -> option Z) (l l' : list track) :
  Forall (valid_date Date_getTime) l ->
  Permutation l' l ->
  Sorted (chron_le Date_getTime) l' ->
  (forall d n, filter (has_key Date_getTime d n) l'
               = filter (has_key Date_getTime d n) l) ->
  l' = sortTracks Date_getTime l.
Proof.
  intros Hv Hperm Hs Hcls.
  assert (Htrans : Relations_1.Transitive (chron_le Date_getTime))
    by (intros x y z; apply chron_le_trans).
  apply (stable_sorted_unique Date_getTime).
  - rewrite Forall_forall in *. intros x Hx. apply Hv.
    eapply Permutation_in; eassumption.
  - now apply Array_sort_Forall.
  - now apply Sorted_StronglySorted.
  - apply Sorted_StronglySorted; [exact Htrans|].
    apply Array_sort_Sorted with (dom := valid_date Date_getTime);
      auto using compare_le, compare_greater.
  - intros d n. rewrite Hcls. symmetry.
    apply Array_sort_filter with (dom := valid_date Date_getTime); auto.
    intros x y. apply compare_same_key.
Qed.

(** C1. For every list of collected tracks whose release dates parse, the
    Chronological Sorter returns a permutation of its input in which every
    pair of neighbours (x, y) has [date x < date y], or the same date and
    [trackNumber x <= trackNumber y]; and the tracks that share both the
    parsed date and the track number keep their encounter order. *)
Theorem sorter_chronological_stable
    (Date_getTime : string -> option Z) (allTracks : list track) :
  Forall (valid_date Date_getTime) allTracks ->
  let sorted := sortTracks Date_getTime allTracks in
  Permutation sorted allTracks /\
  (forall i x y,
      nth_error sorted i = Some x -> nth_error sorted (S i) = Some y ->
      chron_le Date_getTime x y) /\
  (forall d n,
      filter (has_key Date_getTime d n) sorted
      = filter (has_key Date_getTime d n) allTracks).
Proof.
  intros Hvalid sorted. subst sorted. unfold sortTracks. repeat split.
  - apply Array_sort_perm.
  - apply Sorted_adjacent.
    apply Array_sort_Sorted with (dom := valid_date Date_getTime);
      auto using compare_le, compare_greater.
  - intros d n.
    apply Array_sort_filter with (dom := valid_date Date_getTime); auto.
    intros x y. apply compare_same_key.
Qed.

(** C1 at work on three tracks of two releases, collected latest first. *)
Lemma sorter_chronological_stable_witness :
  let allTracks := [mkTrack "b1" "2020-01-01" 1; mkTrack "b2" "2020-01-01" 2;
                    mkTrack "a1" "2019-06-15" 1] in
  let sorted := sortTracks IsoDate.getTime allTracks in
  Forall (valid_date IsoDate.getTime) allTracks /\
  Permutation sorted allTracks /\
  (forall i x y,
      nth_error sorted i = Some x -> nth_error sorted (S i) = Some y ->
      chron_le IsoDate.getTime x y) /\
  (forall d n,
      filter (has_key IsoDate.getTime d n) sorted
      = filter (has_key IsoDate.getTime d n) allTracks).
Proof.
  intros allTracks sorted.
  assert (Hvalid : Forall (valid_date IsoDate.getTime) allTracks).
  { repeat constructor; unfold valid_date; vm_compute; discriminate. }
  split; [exact Hvalid|].
  exact (sorter_chronological_stable IsoDate.getTime allTracks Hvalid).
Defined.

(** C2, as stated, fails: for the release date 2020-01-01 the sorter does not
    keep the three tracks of R1 ahead of the two of R2. *)
Lemma sorter_same_date_counterexample :
  sortTracks IsoDate.getTime (Mock.R1 "2020-01-01" ++ Mock.R2 "2020-01-01")
  <> Mock.R1 "2020-01-01" ++ Mock.R2 "2020-01-01".
Proof. vm_compute. discriminate. Qed.

(** C2, amended. For two releases that share a release date that parses, R1
    with tracks numbered 1, 2, 3 and R2 with tracks numbered 1, 2, collected
    R1 first, the sorter orders by track number across the two releases and
    by encounter order among equal numbers:
    R1t1, R2t1, R1t2, R2t2, R1t3. *)
Theorem sorter_same_date_interleaves
    (Date_getTime : string -> option Z) (d : string) :
  Date_getTime d <> None ->
  sortTracks Date_getTime (Mock.R1 d ++ Mock.R2 d)
  = [mkTrack "R1t1" d 1; mkTrack "R2t1" d 1; mkTrack "R1t2" d 2;
     mkTrack "R2t2" d 2; mkTrack "R1t3" d 3].
Proof.
  intros Hd. destruct (Date_getTime d) as [t|] eqn:E; [|contradiction].
  unfold sortTracks, Mock.R1, Mock.R2. cbn [app Array_sort].
  repeat (cbn [sort_insert];
          rewrite (compare_same_date Date_getTime d t) by exact E;
          match goal with
          | |- context [?a - ?b <=? 0] =>
              let v := eval vm_compute in (a - b <=? 0) in
              change (a - b <=? 0) with v
          end;
          cbv iota).
  reflexivity.
Qed.

Lemma sorter_same_date_interleaves_witness :
  IsoDate.getTime "2020-01-01" <> None /\
  sortTracks IsoDate.getTime (Mock.R1 "2020-01-01" ++ Mock.R2 "2020-01-01")
  = [mkTrack "R1t1" "2020-01-01" 1; mkTrack "R2t1" "2020-01-01" 1;
     mkTrack "R1t2" "2020-01-01" 2; mkTrack "R2t2" "2020-01-01" 2;
     mkTrack "R1t3" "2020-01-01" 3].
Proof.
  assert (H : IsoDate.getTime "2020-01-01" <> None) by (vm_compute; discriminate).
  split; [exact H|].
  exact (sorter_same_date_interleaves IsoDate.getTime "2020-01-01" H).
Defined.

(** ** How the invariants of a run evolve *)

Section RunFacts.

Variable api : platform.

Lemma progress_ok_quiet p h a :
  is_emit a = false -> progress_ok p h -> progress_ok p (h ++ [a]).
Proof.
  intros Ha. unfold progress_ok. rewrite percents_app.
  destruct a; try discriminate; cbn; now rewrite app_nil_r.
Qed.

Lemma progress_ok_emit p q h msg url :
  p <= q -> 0 <= q ->
  progress_ok p h -> progress_ok q (h ++ [Emit (mkProgress msg q url)]).
Proof.
  intros Hpq Hq [Hs Hb]. unfold progress_ok. rewrite percents_app. cbn. split.
  - apply Sorted_snoc; [assumption|].
    eapply Forall_impl; [|exact Hb]. cbn. lia.
  - apply Forall_app. split.
    + eapply Forall_impl; [|exact Hb]. cbn. lia.
    + repeat constructor; lia.
Qed.

Lemma progress_ok_weaken p q h : p <= q -> progress_ok p h -> progress_ok q h.
Proof.
  intros Hpq [Hs Hb]. split; [assumption|].
  eapply Forall_impl; [|exact Hb]. cbn. lia.
Qed.

Lemma writer_ok_quiet w h a : is_call a = false -> writer_ok w h -> writer_ok w (h ++ [a]).
Proof.
  intros Ha H Hw. rewrite calls_app.
  destruct a; try discriminate; cbn; rewrite app_nil_r; auto.
Qed.

Lemma writer_ok_call w h r :
  (w = false -> is_writer_call r = false) ->
  writer_ok w h -> writer_ok w (h ++ [Call r]).
Proof.
  intros Hr H Hw. rewrite calls_app. apply Forall_app. split; [auto|].
  repeat constructor. auto.
Qed.

Lemma all_answered_quiet h a :
  is_call a = false -> all_answered api h -> all_answered api (h ++ [a]).
Proof.
  unfold all_answered. intros Ha H. rewrite first_failure_app, H.
  destruct a; try discriminate; reflexivity.
Qed.

Lemma all_answered_call h r d :
  api h r = inr d -> all_answered api h -> all_answered api (h ++ [Call r]).
Proof.
  unfold all_answered. intros Hr H. rewrite first_failure_app, H. cbn.
  now rewrite Hr.
Qed.

Lemma running_quiet p w h a :
  running api p w h ->
  is_call a = false -> is_emit a = false ->
  running api p w (h ++ [a]).
Proof.
  intros (Hp & Hw & Ha) Hc He.
  split; [|split];
    auto using progress_ok_quiet, writer_ok_quiet, all_answered_quiet.
Qed.

Lemma running_emit p q w h msg url :
  running api p w h ->
  p <= q -> 0 <= q ->
  running api q w (h ++ [Emit (mkProgress msg q url)]).
Proof.
  intros (Hp & Hw & Ha) Hpq Hq. split; [|split].
  - now apply progress_ok_emit with (p := p).
  - now apply writer_ok_quiet.
  - now apply all_answered_quiet.
Qed.

Lemma running_call p w h r d :
  running api p w h ->
  api h r = inr d -> (w = false -> is_writer_call r = false) ->
  running api p w (h ++ [Call r]).
Proof.
  intros (Hp & Hw & Ha) Hr Hk.
  split; [|split];
    eauto using progress_ok_quiet, writer_ok_call, all_answered_call.
Qed.

Lemma running_weaken p q w w' h :
  running api p w h ->
  p <= q -> (w' = false -> w = false) ->
  running api q w' h.
Proof.
  intros (Hp & Hw & Ha) Hpq Hww.
  split; [|split]; eauto using progress_ok_weaken.
  intros E. auto.
Qed.

Lemma failed_intro p w h r e line :
  running api p w h ->
  api h r = inl e -> (w = false -> is_writer_call r = false) ->
  line = failure_log r e ->
  failed api p w e ((h ++ [Call r]) ++ [Log line]).
Proof.
  intros (Hp & Hw & Ha) Hr Hk ->. split; [|split].
  - apply progress_ok_quiet; [reflexivity|]. now apply progress_ok_quiet.
  - apply writer_ok_quiet; [reflexivity|]. now apply writer_ok_call.
  - exists h, r. rewrite <- app_assoc. auto.
Qed.

Lemma failed_weaken p q w w' e h :
  failed api p w e h ->
  p <= q -> (w' = false -> w = false) ->
  failed api q w' e h.
Proof.
  intros (Hp & Hw & Hf) Hpq Hww.
  split; [|split]; eauto using progress_ok_weaken.
  intros E. auto.
Qed.

Lemma component_post_weaken {A} p q w w' (o : outcome A) h :
  component_post api p w o h ->
  p <= q -> (w' = false -> w = false) ->
  component_post api q w' o h.
Proof.
  destruct o; cbn; eauto using running_weaken, failed_weaken.
Qed.

End RunFacts.

(** ** Every component keeps the invariants *)

Ltac wp_step :=
  lazymatch goal with
  | |- wp (bind ?m ?k) ?Q ?h => refine (proj2 (wp_bind m k Q h) _)
  | |- wp (try_catch ?m ?hd) ?Q ?h => refine (proj2 (wp_try_catch m hd Q h) _)
  | |- wp (ret ?a) ?Q ?h => refine (proj2 (wp_ret a Q h) _)
  | |- wp (throw ?e) ?Q ?h => refine (proj2 (wp_throw e Q h) _)
  | |- wp diverge ?Q ?h => refine (proj2 (wp_diverge Q h) _)
  | |- wp (act ?a) ?Q ?h => refine (proj2 (wp_act a Q h) _)
  | |- wp (emit ?m ?p) ?Q ?h => refine (proj2 (wp_act (Emit (mkProgress m p None)) Q h) _)
  | |- wp (sleep ?ms) ?Q ?h => refine (proj2 (wp_act (Sleep ms) Q h) _)
  | |- wp (send ?b) ?Q ?h => refine (proj2 (wp_act (Send b) Q h) _)
  | |- wp (console_error ?l ?d) ?Q ?h =>
      refine (proj2 (wp_act (Log (l +++ " " +++ d)) Q h) _)
  | |- wp (axios ?api ?r) ?Q ?h =>
      refine (proj2 (wp_axios api r Q h) _);
      let E := fresh "Hapi" in destruct (api h r) eqn:E
  | |- bind_post _ _ _ _ => cbn beta iota delta [bind_post]
  | |- catch_post _ _ _ _ => cbn beta iota delta [catch_post]
  end.

Ltac wp_steps := repeat wp_step.

(** The invariant after the actions a stepped component appended: quiet
    actions, emits, answered requests, down to a hypothesis. *)
Ltac side_writer := try (intros; first [reflexivity | discriminate | assumption]).

Ltac exact_running :=
  lazymatch goal with
  | |- running _ _ _ (_ ++ [Call _]) =>
      eapply running_call; [exact_running | eassumption | side_writer]
  | |- running _ _ _ (_ ++ [Emit _]) =>
      eapply running_emit; [exact_running | lia | lia]
  | |- running _ _ _ (_ ++ [_]) =>
      eapply running_quiet; [exact_running | reflexivity | reflexivity]
  | |- running _ _ _ _ => eassumption
  end.

Ltac solve_running :=
  eapply running_weaken; [exact_running | lia | side_writer].

Ltac solve_failed :=
  eapply failed_weaken;
  [ eapply failed_intro; [exact_running | eassumption | side_writer | reflexivity]
  | lia | side_writer ].

Ltac inv_step :=
  lazymatch goal with
  | |- component_post _ _ _ (Returned _) _ =>
      cbn beta iota delta [component_post]; solve_running
  | |- component_post _ _ _ OutOfFuel _ =>
      cbn beta iota delta [component_post]; solve_running
  | |- component_post _ _ _ (Thrown _) _ =>
      cbn beta iota delta [component_post]; solve_failed
  end.

Section ServerFacts.

Variable CLIENT_ID : string.
Variable CLIENT_SECRET : string.
Variable REDIRECT_URI : string.
Variable Date_getTime : string -> option Z.
Variable api : platform.

Local Abbreviation getAccessToken := (getAccessToken CLIENT_ID CLIENT_SECRET REDIRECT_URI api).
Local Abbreviation getUserProfile := (getUserProfile api).
Local Abbreviation searchAlbumsByLabel := (searchAlbumsByLabel api).
Local Abbreviation getAlbumTracks := (getAlbumTracks api).
Local Abbreviation createPlaylist := (createPlaylist api).
Local Abbreviation addTracksToPlaylist := (addTracksToPlaylist api).
Local Abbreviation gather := (gather CLIENT_ID CLIENT_SECRET REDIRECT_URI api).
Local Abbreviation publish := (publish Date_getTime api).
Local Abbreviation callback := (callback CLIENT_ID CLIENT_SECRET REDIRECT_URI Date_getTime api).
Local Abbreviation run := (run CLIENT_ID CLIENT_SECRET REDIRECT_URI Date_getTime api).

Lemma getAccessToken_inv p w code h :
  running api p w h ->
  wp (getAccessToken code) (component_post api p w) h.
Proof.
  intros Hrun. unfold getAccessToken. wp_steps; inv_step.
Qed.

Lemma getUserProfile_inv p w token h :
  running api p w h ->
  wp (getUserProfile token) (component_post api p w) h.
Proof.
  intros Hrun. unfold getUserProfile. wp_steps; inv_step.
Qed.

Lemma getAlbumTracks_inv p w albumId token h :
  running api p w h ->
  wp (getAlbumTracks albumId token) (component_post api p w) h.
Proof.
  intros Hrun. unfold getAlbumTracks. wp_steps; inv_step.
Qed.

Lemma createPlaylist_inv p userId token label h :
  running api p true h ->
  wp (createPlaylist userId token label) (component_post api p true) h.
Proof.
  intros Hrun. unfold createPlaylist. cbv zeta.
  wp_steps; inv_step.
Qed.

Lemma searchAlbumsLoop_inv fuel : forall query token albums offset p w h,
  running api p w h -> p <= 40 ->
  wp (searchAlbumsLoop api fuel query token albums offset) (component_post api 40 w) h.
Proof.
  induction fuel as [|fuel IH]; intros query token albums offset p w h Hrun Hp;
    cbn [searchAlbumsLoop].
  - wp_steps; inv_step.
  - cbv zeta. wp_steps; try inv_step.
    cbv beta iota.
    match goal with |- context [?a <? ?b] => destruct (a <? b) end.
    + eapply IH with (p := 40); [solve_running | lia].
    + wp_steps; inv_step.
Qed.

Lemma searchAlbumsByLabel_inv fuel label token p w h :
  running api p w h -> p <= 40 ->
  wp (searchAlbumsByLabel fuel label token) (component_post api 40 w) h.
Proof. intros. unfold searchAlbumsByLabel. cbv zeta. eauto using searchAlbumsLoop_inv. Qed.

Lemma collectTracks_inv albums : forall token allTracks p w h,
  running api p w h -> p <= 45 ->
  wp (collectTracks api albums token allTracks) (component_post api 45 w) h.
Proof.
  induction albums as [|album rest IH]; intros token allTracks p w h Hrun Hp;
    cbn [collectTracks].
  - wp_steps; inv_step.
  - wp_step. eapply wp_mono; [|eapply getAlbumTracks_inv; eassumption].
    intros [albumTracks|e|] h' Hpost; cbn beta iota delta [bind_post].
    + cbn in Hpost. cbv zeta. wp_steps.
      eapply IH with (p := 45); [solve_running | lia].
    + eapply component_post_weaken; [exact Hpost | lia | auto].
    + eapply component_post_weaken; [exact Hpost | lia | auto].
Qed.

Lemma addTracksFrom_inv playlistId trackURIs token i : forall p h,
  running api p true h -> p <= 90 ->
  wp (addTracksFrom api playlistId trackURIs token i) (component_post api 90 true) h.
Proof.
  funelim (addTracksFrom api playlistId trackURIs token i); intros p h Hrun Hp.
  - wp_steps; try inv_step.
    match goal with
    | IH : unit -> history -> forall p h, running _ p true h -> _ |- _ =>
        eapply (IH tt h) with (p := 90); [solve_running | lia]
    end.
  - wp_steps; inv_step.
Qed.

Lemma addTracksToPlaylist_inv playlistId trackURIs token p h :
  running api p true h -> p <= 90 ->
  wp (addTracksToPlaylist playlistId trackURIs token) (component_post api 90 true) h.
Proof. unfold addTracksToPlaylist. apply addTracksFrom_inv. Qed.

(** Composing with a component whose invariant lemma is known. *)
Lemma wp_bind_component {A B} (m : M A) (k : A -> M B) p w q w' h :
  wp m (component_post api p w) h ->
  p <= q -> (w' = false -> w = false) ->
  (forall a h', running api p w h' -> wp (k a) (component_post api q w') h') ->
  wp m (bind_post k (component_post api q w')) h.
Proof.
  intros Hm Hpq Hww Hk. eapply wp_mono; [|exact Hm].
  intros [a|e|] h' Hpost; cbn beta iota delta [bind_post].
  - apply Hk. exact Hpost.
  - eapply (component_post_weaken api p q w w' (Thrown e)); eassumption.
  - eapply (component_post_weaken api p q w w' OutOfFuel); eassumption.
Qed.

Ltac wp_component p0 w0 :=
  lazymatch goal with
  | |- wp ?m (bind_post ?k (component_post _ ?q ?w')) ?h =>
      refine (wp_bind_component m k p0 w0 q w' h _ _ _ _)
  end.

Lemma gather_inv fuel currentLabel code p w h :
  running api p w h -> p <= 10 ->
  wp (gather fuel currentLabel code) (component_post api 45 w) h.
Proof.
  intros Hrun Hp. unfold gather. wp_steps.
  wp_component 10 w;
    [apply getAccessToken_inv; solve_running | lia | auto |].
  intros accessToken h1 H1. wp_steps.
  wp_component 20 w;
    [apply getUserProfile_inv; solve_running | lia | auto |].
  intros userProfile h2 H2. wp_steps.
  wp_component 40 w;
    [eapply searchAlbumsByLabel_inv; [exact_running | lia] | lia | auto |].
  intros albums h3 H3. wp_steps.
  wp_component 45 w;
    [eapply collectTracks_inv; [exact_running | lia] | lia | auto |].
  intros allTracks h4 H4. wp_steps. inv_step.
Qed.

Lemma publish_inv currentLabel g p w h :
  running api p w h -> p <= 50 ->
  wp (publish currentLabel g) (component_post api 100 true) h.
Proof.
  intros Hrun Hp. unfold publish. cbv zeta.
  destruct (Nat.eqb (List.length (g_allTracks g)) 0).
  - wp_steps. inv_step.
  - wp_steps.
    wp_component 65 true;
      [apply createPlaylist_inv; solve_running | lia | auto |].
    intros newPlaylist h1 H1. wp_steps.
    wp_component 90 true;
      [eapply addTracksToPlaylist_inv; [exact_running | lia] | lia | auto |].
    intros [] h2 H2. wp_steps. inv_step.
Qed.

(** The catch block of the callback, entered from a failed component. *)
Lemma on_error_halts e h p w :
  failed api p w e h -> p <= 100 ->
  wp (on_error e) (callback_post api) h.
Proof.
  intros (Hp & _ & before & r & -> & Ha & Hr) Hle.
  unfold on_error. wp_steps. split.
  - do 2 (apply progress_ok_quiet; [reflexivity|]).
    eapply progress_ok_weaken; [|exact Hp]. exact Hle.
  - right. split; [reflexivity|]. exists before, r, e.
    split; [exact Hr|]. split; [exact Ha|].
    now rewrite <- !app_assoc.
Qed.

Lemma running_init : running api 0 false [].
Proof.
  split; [|split].
  - split; constructor.
  - intros _. constructor.
  - reflexivity.
Qed.

Lemma callback_inv fuel currentLabel code h p w :
  running api p w h -> p <= 10 ->
  wp (callback fuel currentLabel code) (callback_post api) h.
Proof.
  intros Hrun Hp. unfold callback. destruct (JS.falsy code).
  - wp_steps. split; [|left].
    + apply progress_ok_quiet; [reflexivity|].
      eapply progress_ok_weaken; [|apply Hrun]. lia.
    + apply all_answered_quiet; [reflexivity | apply Hrun].
  - wp_steps. eapply wp_mono;
      [| apply (gather_inv fuel currentLabel (JS.of_opt code) p w h Hrun Hp)].
    intros [g|e|] h1 H1; cbn beta iota delta [bind_post catch_post].
    + eapply wp_mono; [| eapply publish_inv; [exact H1 | lia]].
      intros [[]|e|] h2 H2; cbn beta iota delta [catch_post].
      * destruct H2 as (Hp2 & _ & Ha2). split; auto.
      * apply (on_error_halts e h2 100 true H2). lia.
      * destruct H2 as (Hp2 & _ & Ha2). split; auto.
    + apply (on_error_halts e h1 45 w H1). lia.
    + destruct H1 as (Hp1 & _ & Ha1). split; [|left; exact Ha1].
      eapply progress_ok_weaken; [|exact Hp1]. lia.
Qed.

End ServerFacts.

(** ** The run as a whole *)

Lemma run_post CLIENT_ID CLIENT_SECRET REDIRECT_URI Date_getTime api
    fuel currentLabel code :
  let r := run CLIENT_ID CLIENT_SECRET REDIRECT_URI Date_getTime api
             fuel currentLabel code in
  callback_post api (fst r) (snd r).
Proof.
  apply (callback_inv CLIENT_ID CLIENT_SECRET REDIRECT_URI Date_getTime api
           fuel currentLabel code [] 0 false).
  - apply running_init.
  - lia.
Qed.

Lemma StronglySorted_positions (l : list Z) :
  StronglySorted Z.le l ->
  forall i j a b, (i <= j)%nat ->
    nth_error l i = Some a -> nth_error l j = Some b -> a <= b.
Proof.
  induction 1 as [|x l Hs IH Hx]; intros i j a b Hij Ha Hb.
  - now destruct i.
  - destruct i as [|i], j as [|j]; cbn in Ha, Hb; try lia.
    + injection Ha as <-. injection Hb as <-. lia.
    + injection Ha as <-. rewrite Forall_forall in Hx.
      apply Hx. eapply nth_error_In; eassumption.
    + eapply IH; [|eassumption..]. lia.
Qed.

(** C8. Within a run, the percents carried by the emitted progress events
    never decrease, and each lies between 0 and 100. *)
Theorem progress_percent_monotone
    CLIENT_ID CLIENT_SECRET REDIRECT_URI Date_getTime (api : platform)
    (fuel : nat) (currentLabel code : option string) :
  let h := snd (run CLIENT_ID CLIENT_SECRET REDIRECT_URI Date_getTime api
                  fuel currentLabel code) in
  (forall i j a b, (i <= j)%nat ->
     nth_error (percents h) i = Some a -> nth_error (percents h) j = Some b ->
     a <= b) /\
  Forall (fun q => 0 <= q <= 100) (percents h).
Proof.
  intros h.
  destruct (run_post CLIENT_ID CLIENT_SECRET REDIRECT_URI Date_getTime api
              fuel currentLabel code) as [[Hs Hb] _].
  fold h in Hs, Hb. split; [|exact Hb].
  apply StronglySorted_positions. apply Sorted_StronglySorted; [|exact Hs].
  intros x y z. apply Z.le_trans.
Qed.

Lemma halted_first_failure api before r e h :
  halted_at api before r e h -> first_failure api [] h = Some (before, r, e).
Proof.
  intros (Hr & Ha & ->). rewrite first_failure_app, Ha. cbn.
  now rewrite Hr.
Qed.

Lemma skipn_past {A} (l : list A) a rest :
  skipn (S (List.length l)) (l ++ a :: rest) = rest.
Proof. induction l as [|x l IH]; [reflexivity | exact IH]. Qed.

Lemma halted_after_failure api before r e h :
  halted_at api before r e h ->
  after_failure api h
  = [Log (failure_log r e);
     Log ("Error during processing: " +++ err_message e);
     Send failure_page].
Proof.
  intros Hh. unfold after_failure. rewrite (halted_first_failure _ _ _ _ _ Hh).
  destruct Hh as (_ & _ & ->).
  apply skipn_past.
Qed.

(** C5, amended. When a request of a run fails, the run halts there: the
    component that sent the request logs the upstream error (its own label,
    then the error's response body or, without one, its message), the catch
    block of the callback logs the error's message and sends one HTTP answer
    with the generic failure text, and nothing else happens: no further
    request (the Playlist Writer is not called after a failed search), and
    no progress event for the failure. *)
Theorem failure_halts_run
    CLIENT_ID CLIENT_SECRET REDIRECT_URI Date_getTime (api : platform)
    (fuel : nat) (currentLabel code : option string)
    (before : history) (r : request) (e : error) :
  let res := run CLIENT_ID CLIENT_SECRET REDIRECT_URI Date_getTime api
               fuel currentLabel code in
  first_failure api [] (snd res) = Some (before, r, e) ->
  fst res = Returned tt /\
  snd res = before ++ [Call r; Log (failure_log r e);
                       Log ("Error during processing: " +++ err_message e);
                       Send failure_page] /\
  calls (after_failure api (snd res)) = [] /\
  events (after_failure api (snd res)) = [] /\
  sent (after_failure api (snd res)) = [failure_page].
Proof.
  intros res Hfail.
  destruct (run_post CLIENT_ID CLIENT_SECRET REDIRECT_URI Date_getTime api
              fuel currentLabel code) as [_ [Hall | [Ho (b' & r' & e' & Hh)]]];
    fold res in Hall || fold res in Ho, Hh.
  - unfold all_answered in Hall. congruence.
  - pose proof (halted_first_failure _ _ _ _ _ Hh) as Hf.
    rewrite Hfail in Hf. injection Hf as <- <- <-.
    pose proof (halted_after_failure _ _ _ _ _ Hh) as Hafter.
    split; [exact Ho|]. split; [exact (proj2 (proj2 Hh))|].
    rewrite Hafter. repeat split.
Qed.

(** C5 at work: the second search page fails with HTTP 500. *)
Lemma failure_halts_run_witness :
  let api := Mock.second_page_fails in
  let res := Mock.run_on api 5 (Some "Fifty One") in
  first_failure api [] (snd res)
  = Some (Mock.second_page_prefix, Mock.second_page_request, Mock.http500) /\
  fst res = Returned tt /\
  snd res
  = Mock.second_page_prefix
      ++ [Call Mock.second_page_request;
          Log (failure_log Mock.second_page_request Mock.http500);
          Log ("Error during processing: " +++ err_message Mock.http500);
          Send failure_page] /\
  failure_log Mock.second_page_request Mock.http500
  = "Error searching for albums: " +++ error_detail Mock.http500 /\
  calls (after_failure api (snd res)) = [] /\
  events (after_failure api (snd res)) = [] /\
  sent (after_failure api (snd res)) = [failure_page].
Proof.
  intros api res.
  assert (H : first_failure api [] (snd res)
              = Some (Mock.second_page_prefix, Mock.second_page_request,
                      Mock.http500))
    by (vm_compute; reflexivity).
  split; [exact H|].
  destruct (failure_halts_run "client-id" "client-secret"
              "http://localhost:8888/callback" IsoDate.getTime api 5
              (Some "Fifty One") (Some "auth-code") _ _ _ H)
    as (Ho & Hh & Hc & He & Hs).
  split; [exact Ho|]. split; [exact Hh|]. split; [reflexivity|].
  repeat split; assumption.
Defined.

(** C5, as stated, fails: in that run no progress event is emitted for the
    failure, and no event of the run carries the failure text or the error's
    message. *)
Lemma failure_event_counterexample :
  let api := Mock.second_page_fails in
  let h := snd (Mock.run_on api 5 (Some "Fifty One")) in
  first_failure api [] h <> None /\
  List.length (events (after_failure api h)) <> 1%nat /\
  filter (fun p => String.eqb (message p) failure_page
                   || String.eqb (message p) (err_message Mock.http500))
    (events h) = [].
Proof. vm_compute. repeat split; discriminate. Qed.

(** C9. When the tracks collected by a run are none (no release matched,
    or every release came with an empty listing), the callback stops at the
    guard: it emits the "No tracks found" event, answers "No tracks found."
    and returns, and the run holds no create-playlist and no add-tracks
    request. *)
Theorem no_tracks_stops_before_writer
    CLIENT_ID CLIENT_SECRET REDIRECT_URI Date_getTime (api : platform)
    (fuel : nat) (currentLabel code : option string)
    (g : gathered) (h : history) :
  JS.falsy code = false ->
  gather CLIENT_ID CLIENT_SECRET REDIRECT_URI api fuel currentLabel
    (JS.of_opt code) [] = (Returned g, h) ->
  g_allTracks g = [] ->
  let res := run CLIENT_ID CLIENT_SECRET REDIRECT_URI Date_getTime api
               fuel currentLabel code in
  res = (Returned tt,
         h ++ [Emit (no_tracks_event currentLabel); Send "No tracks found."]) /\
  Forall (fun r => is_writer_call r = false) (calls (snd res)).
Proof.
  intros Hcode Hg Hnone res.
  assert (Hres : res = (Returned tt,
                        h ++ [Emit (no_tracks_event currentLabel);
                              Send "No tracks found."])).
  { subst res. unfold run, callback. rewrite Hcode.
    unfold try_catch at 1, bind at 1. rewrite Hg.
    unfold publish. rewrite Hnone. cbn. now rewrite <- app_assoc. }
  split; [exact Hres|]. rewrite Hres. cbn [snd].
  pose proof (gather_inv CLIENT_ID CLIENT_SECRET REDIRECT_URI api fuel currentLabel
                (JS.of_opt code) 0 false [] (running_init api) ltac:(lia)) as Hinv.
  apply (wp_run _ _ _ _ _ Hinv) in Hg. destruct Hg as (_ & Hw & _).
  rewrite calls_app. cbn. rewrite app_nil_r. now apply Hw.
Qed.

(** C9 at work: two releases match the label, each with an empty listing. *)
Lemma no_tracks_stops_before_writer_witness :
  let api := Mock.serve Mock.empty_releases in
  let res := Mock.run_on api 5 (Some "Quiet") in
  gather "client-id" "client-secret" "http://localhost:8888/callback" api 5
    (Some "Quiet") "auth-code" [] = (Returned Mock.quiet_gathered, Mock.quiet_history) /\
  g_allTracks Mock.quiet_gathered = [] /\
  res = (Returned tt,
         Mock.quiet_history
           ++ [Emit (no_tracks_event (Some "Quiet")); Send "No tracks found."]) /\
  Forall (fun r => is_writer_call r = false) (calls (snd res)).
Proof.
  intros api res.
  assert (Hg : gather "client-id" "client-secret" "http://localhost:8888/callback"
                 api 5 (Some "Quiet") "auth-code" []
               = (Returned Mock.quiet_gathered, Mock.quiet_history))
    by (vm_compute; reflexivity).
  split; [exact Hg|]. split; [reflexivity|].
  exact (no_tracks_stops_before_writer "client-id" "client-secret"
           "http://localhost:8888/callback" IsoDate.getTime api 5
           (Some "Quiet") (Some "auth-code") Mock.quiet_gathered Mock.quiet_history
           eq_refl Hg eq_refl).
Defined.

(** ** The token exchanger *)

(** C6, as stated, fails: a 200 answer without [access_token] does not make
    the exchange fail; it returns [undefined]. *)
Lemma token_missing_field_counterexample :
  let api := Mock.tokenless (Mock.serve []) in
  let r := PostToken "auth-code" "http://localhost:8888/callback"
             "client-id" "client-secret" in
  api [] r = inr (mkTokenBody None) /\
  getAccessToken "client-id" "client-secret" "http://localhost:8888/callback"
    api "auth-code" [] = (Returned None, [Call r]).
Proof. split; reflexivity. Qed.

(** C6, amended. The Token Exchanger sends one credentialed request.  When
    the platform fails it, the exchange logs the upstream payload (or the
    message) and rethrows the very error, payload included.  When the
    platform answers, the exchange returns the [access_token] field of the
    body, which is [undefined] when the body has none: no error is raised
    for a missing field. *)
Theorem token_exchange_outcome
    CLIENT_ID CLIENT_SECRET REDIRECT_URI (api : platform)
    (code : string) (h : history) :
  let r := PostToken code REDIRECT_URI CLIENT_ID CLIENT_SECRET in
  getAccessToken CLIENT_ID CLIENT_SECRET REDIRECT_URI api code h
  = match api h r with
    | inl e =>
        (Thrown e,
         h ++ [Call r; Log ("Error obtaining access token: " +++ error_detail e)])
    | inr body => (Returned (access_token body), h ++ [Call r])
    end.
Proof.
  intros r. unfold getAccessToken, try_catch, bind, axios. fold r.
  destruct (api h r) as [e|body]; cbn; [|reflexivity].
  now rewrite <- app_assoc.
Qed.

(** ** The label *)

(** C7 fails on the code: POST /start stores an empty label as it is (the
    value [currentLabel] has from the start), and the callback then searches
    for the empty label and goes on; no input error is raised anywhere. *)
Theorem empty_label_is_searched :
  let api := Mock.serve Mock.crosstown in
  initialLabel = Some "" /\
  start "client-id" "http://localhost:8888/callback" (Some "") []
  = (Returned (Some ""),
     [Log "Label received: ";
      RedirectTo "https://accounts.spotify.com/authorize"
        [("response_type", "code"); ("client_id", "client-id");
         ("scope", "playlist-modify-private");
         ("redirect_uri", "http://localhost:8888/callback");
         ("state", "some-random-state")]]) /\
  let res := Mock.run_on api 5 (Some "") in
  fst res = Returned tt /\
  calls (snd res)
  = [PostToken "auth-code" "http://localhost:8888/callback" "client-id" "client-secret";
     GetMe "Bearer BQD-token";
     GetSearch "Bearer BQD-token" ("label:" +++ JS.dquote +++ JS.dquote) 50 0;
     GetAlbumTracks "A2020" "Bearer BQD-token";
     GetAlbumTracks "A2019" "Bearer BQD-token";
     PostPlaylist "user-1" "Bearer BQD-token"
       "Label Playlist:  (Chronological)"
       ("A chronological playlist of songs from albums tagged with "
          +++ JS.dquote +++ JS.dquote +++ ".");
     PostPlaylistTracks "pl-1" "Bearer BQD-token" ["A2019t1"; "A2020t1"; "A2020t2"]] /\
  sent (snd res) = [completion_page].
Proof. vm_compute. repeat split. Qed.

(** ** The search paginator *)

Section SearchFacts.

Variable api : platform.
Variable token : option string.
Variable query : string.

(** The platform answers every page, with the same total [T]; [page k] is
    the listing it returns at the offset [k]. *)
Variable page : Z -> list album.
Variable T : Z.
Hypothesis answers : forall h k,
  api h (GetSearch (bearer token) query 50 k) = inr (mkSearchBody (page k) T).

Lemma searchAlbumsLoop_step fuel albums o h :
  searchAlbumsLoop api (S fuel) query token albums o h
  = let albums' := albums ++ page o in
    let h' := h ++ [Call (GetSearch (bearer token) query 50 o);
                    Emit (mkProgress
                            ("Fetched " +++ JS.of_length albums' +++ " of "
                               +++ JS.of_Z T +++ " albums...") 40 None);
                    Sleep 500] in
    if o + 50 <? T then searchAlbumsLoop api fuel query token albums' (o + 50) h'
    else (Returned albums', h').
Proof.
  cbn [searchAlbumsLoop]. unfold bind at 1, try_catch, bind at 1, axios.
  rewrite answers. cbn -[Z.add Z.ltb searchAlbumsLoop JS.of_length JS.of_Z String.append].
  rewrite <- !app_assoc. cbn [app].
  destruct (o + 50 <? T); reflexivity.
Qed.

Lemma pages_from_more o : o + 50 < T -> pages_from T o = S (pages_from T (o + 50)).
Proof.
  intros H. unfold pages_from.
  replace (T - o + 49) with ((T - (o + 50) + 49) + 1 * 50) by lia.
  rewrite Z.div_add by lia.
  assert (1 <= (T - (o + 50) + 49) / 50) by (apply Z.div_le_lower_bound; lia).
  lia.
Qed.

Lemma pages_from_last o : T <= o + 50 -> pages_from T o = 1%nat.
Proof.
  intros H. unfold pages_from.
  assert ((T - o + 49) / 50 <= 1).
  { apply Z.lt_succ_r. apply Z.div_lt_upper_bound; lia. }
  lia.
Qed.

Lemma searchAlbumsLoop_pages n : forall fuel albums o h,
  n = pages_from T o -> (n <= fuel)%nat ->
  exists h',
    searchAlbumsLoop api fuel query token albums o h
    = (Returned (albums ++ flat_map page (page_offsets n o)), h') /\
    calls h' = calls h
               ++ map (GetSearch (bearer token) query 50) (page_offsets n o).
Proof.
  induction n as [|n IH]; intros fuel albums o h Hn Hfuel.
  - unfold pages_from in Hn. lia.
  - destruct fuel as [|fuel]; [lia|]. rewrite searchAlbumsLoop_step. cbv zeta.
    destruct (Z.ltb_spec (o + 50) T) as [Hlt|Hge].
    + rewrite pages_from_more in Hn by exact Hlt. injection Hn as Hn.
      edestruct (IH fuel (albums ++ page o) (o + 50)) as (h' & Hrun & Hcalls);
        [exact Hn | lia |].
      exists h'. rewrite Hrun, Hcalls. cbn [page_offsets flat_map map].
      rewrite <- !app_assoc. split; [reflexivity|].
      rewrite calls_app. cbn. now rewrite <- app_assoc.
    + rewrite pages_from_last in Hn by exact Hge. injection Hn as ->.
      eexists. split; [cbn; now rewrite app_nil_r|].
      rewrite calls_app. reflexivity.
Qed.

Lemma page_offsets_length n o : List.length (page_offsets n o) = n.
Proof. revert o. induction n; intros o; cbn; auto. Qed.

Lemma page_offsets_lower n : forall o k, In k (page_offsets n o) -> o <= k.
Proof.
  induction n as [|n IH]; intros o k; cbn; [tauto|].
  intros [<-|Hin]; [lia|]. apply IH in Hin. lia.
Qed.

End SearchFacts.

(** What the paginator does when every page is answered with the total
    [T]: it fetches [max(1, ceil(T / 50))] pages and returns their listings. *)
Lemma search_pages_run
    (api : platform) (label token : option string)
    (page : Z -> list album) (T : Z) (fuel : nat) (h : history) :
  let query := "label:" +++ JS.dquote +++ JS.of_opt label +++ JS.dquote in
  let n := Z.to_nat (Z.max 1 ((T + 49) / 50)) in
  (forall h k,
      api h (GetSearch (bearer token) query 50 k) = inr (mkSearchBody (page k) T)) ->
  (n <= fuel)%nat ->
  exists h',
    searchAlbumsByLabel api fuel label token h
    = (Returned (flat_map page (page_offsets n 0)), h').
Proof.
  intros query n Hpage Hfuel.
  destruct (searchAlbumsLoop_pages api token query page T Hpage n fuel [] 0 h)
    as (h' & Hrun & _).
  - unfold pages_from. subst n. now rewrite Z.sub_0_r.
  - exact Hfuel.
  - exists h'. exact Hrun.
Qed.

(** C10. When the platform reports the same total [T] on every page, the
    paginator ends after exactly [max(1, ceil(T / 50))] search requests, at
    the offsets 0, 50, 100, ...; it returns the listings of those pages put
    together, however many items each page held. *)
Theorem search_request_count
    (api : platform) (label token : option string)
    (page : Z -> list album) (T : Z) (fuel : nat) (h : history) :
  let query := "label:" +++ JS.dquote +++ JS.of_opt label +++ JS.dquote in
  let n := Z.to_nat (Z.max 1 ((T + 49) / 50)) in
  (forall h k,
      api h (GetSearch (bearer token) query 50 k) = inr (mkSearchBody (page k) T)) ->
  (n <= fuel)%nat ->
  exists h',
    searchAlbumsByLabel api fuel label token h
    = (Returned (flat_map page (page_offsets n 0)), h') /\
    calls h' = calls h ++ map (GetSearch (bearer token) query 50) (page_offsets n 0) /\
    List.length (page_offsets n 0) = n.
Proof.
  intros query n Hpage Hfuel.
  destruct (searchAlbumsLoop_pages api token query page T Hpage n fuel [] 0 h)
    as (h' & Hrun & Hcalls).
  - unfold pages_from. subst n. now rewrite Z.sub_0_r.
  - exact Hfuel.
  - exists h'. split; [exact Hrun|]. split; [exact Hcalls|].
    apply page_offsets_length.
Qed.

(** C10 at work: the total is 120 on every page and each page lists a
    single release; three requests, three releases returned. *)
Lemma search_request_count_witness :
  (forall h k,
      Mock.short_pages h
        (GetSearch (bearer (Some "tok"))
           ("label:" +++ JS.dquote +++ JS.of_opt (Some "Sparse") +++ JS.dquote) 50 k)
      = inr (mkSearchBody (Mock.short_page k) 120)) /\
  (Z.to_nat (Z.max 1 ((120 + 49) / 50)) <= 3)%nat /\
  exists h',
    searchAlbumsByLabel Mock.short_pages 3 (Some "Sparse") (Some "tok") []
    = (Returned (Mock.short_page 0 ++ Mock.short_page 50 ++ Mock.short_page 100), h') /\
    calls h' = map (GetSearch "Bearer tok"
                      ("label:" +++ JS.dquote +++ "Sparse" +++ JS.dquote) 50)
                 [0; 50; 100].
Proof.
  assert (Hpage : forall h k,
      Mock.short_pages h
        (GetSearch (bearer (Some "tok"))
           ("label:" +++ JS.dquote +++ JS.of_opt (Some "Sparse") +++ JS.dquote) 50 k)
      = inr (mkSearchBody (Mock.short_page k) 120)) by reflexivity.
  assert (Hfuel : (Z.to_nat (Z.max 1 ((120 + 49) / 50)) <= 3)%nat) by (vm_compute; lia).
  split; [exact Hpage|]. split; [exact Hfuel|].
  destruct (search_request_count Mock.short_pages (Some "Sparse") (Some "tok")
              Mock.short_page 120 3 [] Hpage Hfuel) as (h' & Hrun & Hcalls & _).
  exists h'. split; [exact Hrun | exact Hcalls].
Defined.

Section PagesFacts.

(** The platform's listing of [T] distinct releases, fifty to a page. *)
Variable page : Z -> list album.
Variable T : Z.
Hypothesis page_size : forall k,
  0 <= k <= T -> Z.of_nat (List.length (page k)) = Z.min 50 (T - k).
Hypothesis page_distinct : forall k1 k2 i1 i2 a,
  0 <= k1 -> 0 <= k2 ->
  nth_error (page k1) i1 = Some a -> nth_error (page k2) i2 = Some a ->
  k1 + Z.of_nat i1 = k2 + Z.of_nat i2.

Lemma pages_length n : forall o,
  0 <= o <= T -> n = pages_from T o ->
  Z.of_nat (List.length (flat_map page (page_offsets n o))) = T - o.
Proof.
  induction n as [|n IH]; intros o Ho Hn.
  - unfold pages_from in Hn. lia.
  - cbn [page_offsets flat_map]. rewrite length_app, Nat2Z.inj_add.
    rewrite page_size by exact Ho.
    destruct (Z_lt_le_dec (o + 50) T) as [Hlt|Hge].
    + rewrite pages_from_more in Hn by exact Hlt. injection Hn as Hn.
      rewrite IH by (exact Hn || lia). lia.
    + rewrite pages_from_last in Hn by exact Hge. injection Hn as ->.
      cbn. lia.
Qed.

Lemma page_NoDup k : 0 <= k -> NoDup (page k).
Proof.
  intros Hk. apply NoDup_nth_error. intros i j Hi E.
  destruct (nth_error (page k) i) as [a|] eqn:Ei.
  - pose proof (page_distinct k k i j a Hk Hk Ei (eq_sym E)). lia.
  - apply nth_error_None in Ei. lia.
Qed.

Lemma pages_NoDup n : forall o,
  0 <= o <= T -> n = pages_from T o ->
  NoDup (flat_map page (page_offsets n o)).
Proof.
  induction n as [|n IH]; intros o Ho Hn; [constructor|].
  cbn [page_offsets flat_map].
  destruct (Z_lt_le_dec (o + 50) T) as [Hlt|Hge].
  - rewrite pages_from_more in Hn by exact Hlt. injection Hn as Hn.
    apply NoDup_app.
    + apply page_NoDup. lia.
    + apply IH; [lia | exact Hn].
    + intros a Hin Hin'. apply in_flat_map in Hin'.
      destruct Hin' as (k & Hk & Hin').
      apply page_offsets_lower in Hk.
      apply In_nth_error in Hin. destruct Hin as [i Hi].
      apply In_nth_error in Hin'. destruct Hin' as [j Hj].
      pose proof (page_distinct o k i j a ltac:(lia) ltac:(lia) Hi Hj) as Hpos.
      assert (Hlen : (i < List.length (page o))%nat)
        by (apply nth_error_Some; congruence).
      pose proof (page_size o Ho). lia.
  - rewrite pages_from_last in Hn by exact Hge. injection Hn as ->.
    cbn. rewrite app_nil_r. apply page_NoDup. lia.
Qed.

End PagesFacts.

(** C3. When the platform reports a constant total [T] and serves, at each
    offset [k], the [min(50, T - k)] releases of its listing that start
    there, all releases of the listing being distinct, the paginator returns
    exactly [T] releases without duplicates; for [T = 0] it returns the
    empty list and does not fail. *)
Theorem search_returns_every_release
    (api : platform) (label token : option string)
    (page : Z -> list album) (T : Z) (fuel : nat) (h : history) :
  let query := "label:" +++ JS.dquote +++ JS.of_opt label +++ JS.dquote in
  0 <= T ->
  (forall h k,
      api h (GetSearch (bearer token) query 50 k) = inr (mkSearchBody (page k) T)) ->
  (forall k, 0 <= k <= T -> Z.of_nat (List.length (page k)) = Z.min 50 (T - k)) ->
  (forall k1 k2 i1 i2 a,
      0 <= k1 -> 0 <= k2 ->
      nth_error (page k1) i1 = Some a -> nth_error (page k2) i2 = Some a ->
      k1 + Z.of_nat i1 = k2 + Z.of_nat i2) ->
  (Z.to_nat (Z.max 1 ((T + 49) / 50)) <= fuel)%nat ->
  exists albums h',
    searchAlbumsByLabel api fuel label token h = (Returned albums, h') /\
    Z.of_nat (List.length albums) = T /\
    NoDup albums /\
    (T = 0 -> albums = []).
Proof.
  intros query HT Hpage Hsize Hdistinct Hfuel.
  destruct (search_pages_run api label token page T fuel h Hpage Hfuel)
    as (h' & Hrun).
  set (n := Z.to_nat (Z.max 1 ((T + 49) / 50))) in *.
  assert (Hn : n = pages_from T 0)
    by (unfold pages_from; subst n; now rewrite Z.sub_0_r).
  assert (Hlen : Z.of_nat (List.length (flat_map page (page_offsets n 0))) = T).
  { rewrite (pages_length page T Hsize n 0) by (lia || exact Hn). lia. }
  exists (flat_map page (page_offsets n 0)), h'.
  split; [exact Hrun|]. split; [exact Hlen|]. split.
  - apply (pages_NoDup page T Hsize Hdistinct n 0); [lia | exact Hn].
  - intros ->. destruct (flat_map page (page_offsets n 0)); [reflexivity|].
    cbn in Hlen. lia.
Qed.

(** The mock platform lists its catalog the way C3 supposes. *)
Section MockCatalog.

Variable catalog : list Mock.release.
Hypothesis distinct : NoDup (map Mock.rel_album catalog).

Lemma catalog_page_size k :
  0 <= k <= Z.of_nat (List.length catalog) ->
  Z.of_nat (List.length (Mock.catalog_page catalog k))
  = Z.min 50 (Z.of_nat (List.length catalog) - k).
Proof.
  intros Hk. unfold Mock.catalog_page, JS.slice.
  rewrite length_firstn, length_skipn, length_map. lia.
Qed.

Lemma catalog_page_nth k i a :
  0 <= k ->
  nth_error (Mock.catalog_page catalog k) i = Some a ->
  nth_error (map Mock.rel_album catalog) (Z.to_nat k + i) = Some a.
Proof.
  intros Hk. unfold Mock.catalog_page, JS.slice.
  rewrite nth_error_firstn. destruct (Nat.ltb i _); [|discriminate].
  now rewrite nth_error_skipn.
Qed.

Lemma catalog_page_distinct k1 k2 i1 i2 a :
  0 <= k1 -> 0 <= k2 ->
  nth_error (Mock.catalog_page catalog k1) i1 = Some a ->
  nth_error (Mock.catalog_page catalog k2) i2 = Some a ->
  k1 + Z.of_nat i1 = k2 + Z.of_nat i2.
Proof.
  intros H1 H2 E1 E2.
  apply catalog_page_nth in E1; [|exact H1].
  apply catalog_page_nth in E2; [|exact H2].
  assert (Z.to_nat k1 + i1 = Z.to_nat k2 + i2)%nat; [|lia].
  apply (proj1 (NoDup_nth_error _) distinct).
  - apply nth_error_Some. congruence.
  - congruence.
Qed.

End MockCatalog.

Lemma fifty_one_distinct : NoDup (map Mock.rel_album Mock.fifty_one).
Proof.
  assert (E : nodup album_eq_dec (map Mock.rel_album Mock.fifty_one)
              = map Mock.rel_album Mock.fifty_one) by (vm_compute; reflexivity).
  rewrite <- E. apply NoDup_nodup.
Qed.

(** C3 at work: 51 releases, served as a page of fifty and a page of one. *)
Lemma search_returns_every_release_witness :
  let api := Mock.serve Mock.fifty_one in
  let page := Mock.catalog_page Mock.fifty_one in
  0 <= 51 /\
  (forall h k,
      api h (GetSearch (bearer (Some "tok"))
               ("label:" +++ JS.dquote +++ JS.of_opt (Some "Fifty One") +++ JS.dquote)
               50 k)
      = inr (mkSearchBody (page k) 51)) /\
  (forall k, 0 <= k <= 51 -> Z.of_nat (List.length (page k)) = Z.min 50 (51 - k)) /\
  (forall k1 k2 i1 i2 a,
      0 <= k1 -> 0 <= k2 ->
      nth_error (page k1) i1 = Some a -> nth_error (page k2) i2 = Some a ->
      k1 + Z.of_nat i1 = k2 + Z.of_nat i2) /\
  (Z.to_nat (Z.max 1 ((51 + 49) / 50)) <= 2)%nat /\
  exists albums h',
    searchAlbumsByLabel api 2 (Some "Fifty One") (Some "tok") [] = (Returned albums, h') /\
    Z.of_nat (List.length albums) = 51 /\
    NoDup albums.
Proof.
  intros api page.
  assert (HT : 0 <= 51) by lia.
  assert (Hpage : forall h k,
      api h (GetSearch (bearer (Some "tok"))
               ("label:" +++ JS.dquote +++ JS.of_opt (Some "Fifty One") +++ JS.dquote)
               50 k)
      = inr (mkSearchBody (page k) 51)) by reflexivity.
  assert (Hsize : forall k, 0 <= k <= 51 ->
      Z.of_nat (List.length (page k)) = Z.min 50 (51 - k))
    by exact (catalog_page_size Mock.fifty_one).
  assert (Hfuel : (Z.to_nat (Z.max 1 ((51 + 49) / 50)) <= 2)%nat) by (vm_compute; lia).
  pose proof (catalog_page_distinct Mock.fifty_one fifty_one_distinct)
    as Hdistinct.
  split; [exact HT|]. split; [exact Hpage|]. split; [exact Hsize|].
  split; [exact Hdistinct|]. split; [exact Hfuel|].
  destruct (search_returns_every_release api (Some "Fifty One") (Some "tok")
              page 51 2 [] HT Hpage Hsize Hdistinct Hfuel)
    as (albums & h' & Hrun & Hlen & Hnodup & _).
  exists albums, h'. auto.
Defined.

(** ** The playlist writer *)

Section AppendFacts.

Variable api : platform.
Variable playlistId : string.
Variable token : option string.

(** The platform accepts every batch sent to this playlist. *)
Hypothesis accepted : forall h batch,
  api h (PostPlaylistTracks playlistId (bearer token) batch) = inr tt.

Lemma ceil_div_step n : (0 < n)%nat -> ceil_div n 100 = S (ceil_div (n - 100) 100).
Proof.
  intros Hn. unfold ceil_div.
  destruct (Nat.le_gt_cases 100 n) as [Hge|Hlt].
  - replace (n + 100 - 1)%nat with ((n - 100 + 100 - 1) + 1 * 100)%nat by lia.
    rewrite Nat.div_add by lia. lia.
  - replace (n - 100)%nat with 0%nat by lia.
    replace (n + 100 - 1)%nat with ((n - 1) + 1 * 100)%nat by lia.
    rewrite Nat.div_add by lia. rewrite Nat.div_small by lia. reflexivity.
Qed.

Lemma addTracksFrom_batches (trackURIs : list string) (i : nat) : forall h,
  exists bs h',
    addTracksFrom api playlistId trackURIs token i h = (Returned tt, h') /\
    calls h' = calls h ++ map (PostPlaylistTracks playlistId (bearer token)) bs /\
    List.length bs = ceil_div (List.length trackURIs - i) 100 /\
    (forall j b, nth_error bs j = Some b ->
       b = JS.slice (i + 100 * j) (i + 100 * j + 100) trackURIs) /\
    List.concat bs = skipn i trackURIs.
Proof.
  funelim (addTracksFrom api playlistId trackURIs token i); intros h.
  - set (batch := JS.slice i (i + BATCH_SIZE) trackURIs).
    set (h1 := h ++ [Call (PostPlaylistTracks playlistId (bearer token) batch);
                     Emit (mkProgress
                             ("Added batch "
                                +++ JS.of_Z (Z.of_nat (i / BATCH_SIZE) + 1)
                                +++ " of tracks.") 90 None);
                     Sleep 300]).
    match goal with
    | IH : unit -> history -> forall h, exists bs h', _ |- _ =>
        destruct (IH tt h h1) as (bs & h' & Hrun & Hcalls & Hlen & Hnth & Hcat)
    end.
    exists (batch :: bs), h'. split; [|split; [|split; [|split]]].
    + unfold bind at 1, try_catch, bind at 1, axios. rewrite accepted.
      cbn -[addTracksFrom JS.of_Z String.append Nat.div].
      rewrite <- !app_assoc. exact Hrun.
    + rewrite Hcalls. subst h1. rewrite calls_app. cbn. now rewrite <- app_assoc.
    + cbn [List.length]. rewrite Hlen.
      rewrite (ceil_div_step (List.length trackURIs - i)) by lia.
      unfold BATCH_SIZE. do 2 f_equal. lia.
    + intros [|j] b Hb; cbn in Hb.
      * injection Hb as <-. subst batch. unfold BATCH_SIZE. do 2 f_equal; lia.
      * apply Hnth in Hb. subst b. unfold BATCH_SIZE. f_equal; lia.
    + cbn [List.concat]. rewrite Hcat. subst batch. unfold JS.slice, BATCH_SIZE.
      replace (i + 100 - i)%nat with 100%nat by lia.
      replace (i + 100)%nat with (100 + i)%nat by lia.
      rewrite <- skipn_skipn. apply firstn_skipn.
  - exists [], h. split; [reflexivity|]. split; [now rewrite app_nil_r|].
    split; [|split].
    + replace (List.length trackURIs - i)%nat with 0%nat by lia. reflexivity.
    + intros [|j] b Hb; discriminate Hb.
    + rewrite skipn_all2 by lia. reflexivity.
Qed.


End AppendFacts.

(** C4. When the platform accepts every batch, the Playlist Writer sends
    exactly [ceil(N / 100)] add-tracks requests for [N] track URIs, one after
    the other; the batch number [j] is the slice [100 j, 100 j + 100) of the
    input, so each holds at most 100 URIs and together, in order, they are
    the input; for [N = 250] the batch sizes are 100, 100, 50. *)
Theorem playlist_writer_batches
    (api : platform) (playlistId : string) (token : option string)
    (trackURIs : list string) (h : history) :
  (forall h batch,
      api h (PostPlaylistTracks playlistId (bearer token) batch) = inr tt) ->
  exists bs h',
    addTracksToPlaylist api playlistId trackURIs token h = (Returned tt, h') /\
    calls h' = calls h ++ map (PostPlaylistTracks playlistId (bearer token)) bs /\
    List.length bs = ceil_div (List.length trackURIs) 100 /\
    Forall (fun b => (List.length b <= 100)%nat) bs /\
    (forall j b, nth_error bs j = Some b ->
       b = JS.slice (100 * j) (100 * j + 100) trackURIs) /\
    List.concat bs = trackURIs /\
    (List.length trackURIs = 250%nat -> map (@List.length string) bs = [100; 100; 50]%nat).
Proof.
  intros Hok. unfold addTracksToPlaylist.
  destruct (addTracksFrom_batches api playlistId token Hok trackURIs 0 h)
    as (bs & h' & Hrun & Hcalls & Hlen & Hnth & Hcat).
  rewrite Nat.sub_0_r in Hlen. cbn [skipn] in Hcat.
  assert (Hsize : forall j b, nth_error bs j = Some b ->
            List.length b = Nat.min 100 (List.length trackURIs - 100 * j)).
  { intros j b Hb. apply Hnth in Hb. subst b. unfold JS.slice.
    rewrite length_firstn, length_skipn. lia. }
  exists bs, h'. repeat (split; [assumption|]). split; [|split; [|split]].
  - apply Forall_forall. intros b Hb. apply In_nth_error in Hb.
    destruct Hb as [j Hb]. rewrite (Hsize j b Hb). lia.
  - exact Hnth.
  - exact Hcat.
  - intros HN. rewrite HN in Hlen, Hsize.
    destruct bs as [|b0 [|b1 [|b2 [|b3 bs]]]]; try discriminate Hlen.
    cbn [map]. rewrite (Hsize 0%nat b0 eq_refl), (Hsize 1%nat b1 eq_refl),
      (Hsize 2%nat b2 eq_refl). reflexivity.
Qed.

(** C4 at work on 250 URIs. *)
Lemma playlist_writer_batches_witness :
  let api := Mock.serve [] in
  (forall h batch,
      api h (PostPlaylistTracks "pl-1" (bearer (Some "tok")) batch) = inr tt) /\
  exists bs h',
    addTracksToPlaylist api "pl-1" Mock.uris250 (Some "tok") [] = (Returned tt, h') /\
    calls h' = map (PostPlaylistTracks "pl-1" "Bearer tok") bs /\
    List.length bs = 3%nat /\
    List.concat bs = Mock.uris250 /\
    map (@List.length string) bs = [100; 100; 50]%nat.
Proof.
  intros api.
  assert (Hok : forall h batch,
      api h (PostPlaylistTracks "pl-1" (bearer (Some "tok")) batch) = inr tt)
    by reflexivity.
  split; [exact Hok|].
  destruct (playlist_writer_batches api "pl-1" (Some "tok") Mock.uris250 [] Hok)
    as (bs & h' & Hrun & Hcalls & Hlen & _ & _ & Hcat & H250).
  exists bs, h'. split; [exact Hrun|]. split; [exact Hcalls|].
  split; [exact Hlen|]. split; [exact Hcat|]. apply H250. reflexivity.
Defined.

(** ** Further runs of the model *)

(** With a date that does not parse the comparator answers [NaN]; the
    sorter then leaves 2020 ahead of 2019. *)
Example sorter_invalid_date :
  sortTracks IsoDate.getTime
    [mkTrack "x" "2020-01-01" 1; mkTrack "y" "n/a" 1; mkTrack "z" "2019-06-15" 1]
  = [mkTrack "x" "2020-01-01" 1; mkTrack "y" "n/a" 1; mkTrack "z" "2019-06-15" 1].
Proof. reflexivity. Qed.

(** The README's example label: the release of 2019 comes first. *)
Example crosstown_playlist_order :
  append_batches (snd (Mock.run_on (Mock.serve Mock.crosstown) 5
                         (Some "Crosstown Rebels")))
  = [["A2019t1"; "A2020t1"; "A2020t2"]].
Proof. vm_compute. reflexivity. Qed.

(** The paginator at the boundaries of the page size. *)
Example search_boundaries :
  map (fun n =>
         match searchAlbumsByLabel (Mock.serve (Mock.releases n 1 "2020")) 3
                 (Some "L") (Some "tok") [] with
         | (Returned albums, h) =>
             Some (List.length albums,
                   List.length (nodup album_eq_dec albums),
                   search_offsets h)
         | _ => None
         end)
    [0; 1; 50; 51; 100]%nat
  = [Some (0%nat, 0%nat, [0]); Some (1%nat, 1%nat, [0]);
     Some (50%nat, 50%nat, [0]); Some (51%nat, 51%nat, [0; 50]);
     Some (100%nat, 100%nat, [0; 50])].
Proof. vm_compute. reflexivity. Qed.

(** No release matches the label: one search request, then the guard. *)
Example no_release_run :
  let h := snd (Mock.run_on (Mock.serve []) 5 (Some "Nobody")) in
  search_offsets h = [0] /\ sent h = ["No tracks found."]
  /\ filter is_writer_call (calls h) = [].
Proof. vm_compute. repeat split. Qed.

(** A token answer without [access_token]: the run goes on with
    [Bearer undefined] and fails at the profile lookup. *)
Example tokenless_run :
  calls (snd (Mock.run_on (Mock.tokenless (Mock.serve [])) 5 (Some "L")))
  = [PostToken "auth-code" "http://localhost:8888/callback" "client-id" "client-secret";
     GetMe "Bearer undefined"].
Proof. vm_compute. reflexivity. Qed.

(** * Further properties of the server *)

(** ** Every run follows the protocol *)

(** Extends [follows] over the actions a stepped component appended. *)
Ltac follow :=
  lazymatch goal with
  | |- follows _ (_ ++ [Send _]) _ true => eapply follows_send; follow
  | |- follows _ (_ ++ [_]) _ false =>
      eapply follows_step; [follow | econstructor; try exact I]
  | |- follows _ _ _ _ => eassumption
  end.

Ltac stage_here :=
  lazymatch goal with
  | |- stage_post _ _ _ _ _ =>
      unfold stage_post; eexists; split; [follow | try reflexivity; try exact I]
  end.

Section ProtocolFacts.

Variable CLIENT_ID : string.
Variable CLIENT_SECRET : string.
Variable REDIRECT_URI : string.
Variable Date_getTime : string -> option Z.
Variable api : platform.
Variable label : option string.

Lemma wp_bind_stage {A B} (m : M A) (k : A -> M B) (R : A -> stage -> Prop)
    (F : stage -> Prop) (Q : outcome B -> history -> Prop) h :
  wp m (stage_post label R F) h ->
  (forall a h' s, follows label h' s false -> R a s -> wp (k a) Q h') ->
  (forall e h' s, follows label h' s false -> Q (Thrown e) h') ->
  (forall h' s, follows label h' s false -> F s -> Q OutOfFuel h') ->
  wp m (bind_post k Q) h.
Proof.
  intros Hm Hk He Hf. eapply wp_mono; [|exact Hm].
  intros [a|e|] h' (s & Hs & HR); cbn beta iota delta [bind_post]; eauto.
Qed.

Lemma stage_post_thrown {A} (R : A -> stage -> Prop) F e h s :
  follows label h s false -> stage_post label R F (Thrown e) h.
Proof. intros Hs. exists s. split; [exact Hs | exact I]. Qed.

(** Composing with a component that always ends. *)
Lemma wp_bind_ends {A B} (m : M A) (k : A -> M B) (R : A -> stage -> Prop)
    (R' : B -> stage -> Prop) F h :
  wp m (stage_post label R ends) h ->
  (forall a h' s, follows label h' s false -> R a s ->
     wp (k a) (stage_post label R' F) h') ->
  wp m (bind_post k (stage_post label R' F)) h.
Proof.
  intros Hm Hk. eapply wp_bind_stage; [exact Hm | exact Hk | |].
  - intros e h' s Hs. eapply stage_post_thrown; exact Hs.
  - intros h' s _ [].
Qed.

Lemma getAccessToken_follows code h :
  follows label h Idle false ->
  wp (getAccessToken CLIENT_ID CLIENT_SECRET REDIRECT_URI api code)
    (stage_post label (fun _ s => s = TokenAsked) ends) h.
Proof. intros Hh. unfold getAccessToken. wp_steps; stage_here. Qed.

Lemma getUserProfile_follows token h :
  follows label h TokenAsked false ->
  wp (getUserProfile api token)
    (stage_post label (fun _ s => s = ProfileAsked (bearer token)) ends) h.
Proof. intros Hh. unfold getUserProfile. wp_steps; stage_here. Qed.

(** The search loop is the one place where the model can run out of fuel:
    it has then fetched [fuel] pages in a row. *)
Lemma searchAlbumsLoop_follows fuel : forall token albums offset s h,
  follows label h s false ->
  (s = ProfileAsked (bearer token) /\ offset = 0) \/ s = Searching (bearer token) offset ->
  wp (searchAlbumsLoop api fuel (label_query label) token albums offset)
    (stage_post label
       (fun _ s' => exists o, s' = Searching (bearer token) o)
       (fun s' => match fuel with
                  | O => s' = s
                  | S _ => s' = Searching (bearer token) (offset + 50 * Z.of_nat fuel)
                  end)) h.
Proof.
  induction fuel as [|fuel IH]; intros token albums offset s h Hh Hs;
    cbn [searchAlbumsLoop].
  - wp_steps. stage_here.
  - cbv zeta.
    assert (Hnext : forall s' : stage,
              match fuel with
              | O => s' = Searching (bearer token) (offset + 50)
              | S _ => s' = Searching (bearer token)
                              (offset + 50 + 50 * Z.of_nat fuel)
              end ->
              s' = Searching (bearer token) (offset + 50 * Z.of_nat (S fuel))).
    { intros s' Hs'. destruct fuel; subst s'; f_equal; lia. }
    destruct Hs as [[-> ->] | ->].
    + wp_steps; try stage_here. cbv beta iota.
      match goal with |- context [?a <? ?b] => destruct (a <? b) end.
      * eapply wp_mono; [|eapply IH; [follow | right; reflexivity]].
        intros o' h' (s' & Hs' & HR). exists s'. split; [exact Hs'|].
        destruct o'; auto.
      * wp_steps. stage_here. now eexists.
    + wp_steps; try stage_here. cbv beta iota.
      match goal with |- context [?a <? ?b] => destruct (a <? b) end.
      * eapply wp_mono; [|eapply IH; [follow | right; reflexivity]].
        intros o' h' (s' & Hs' & HR). exists s'. split; [exact Hs'|].
        destruct o'; auto.
      * wp_steps. stage_here. now eexists.
Qed.

Lemma collectTracks_follows albums : forall token allTracks s h,
  follows label h s false ->
  (exists o, s = Searching (bearer token) o) \/ s = Collecting (bearer token) ->
  wp (collectTracks api albums token allTracks)
    (stage_post label
       (fun tracks s' => s' = Collecting (bearer token)
                         \/ (s' = s /\ tracks = allTracks))
       ends) h.
Proof.
  induction albums as [|album rest IH]; intros token allTracks s h Hh Hs;
    cbn [collectTracks].
  - wp_steps. stage_here. now right.
  - unfold getAlbumTracks. destruct Hs as [[o ->] | ->].
    + wp_steps; try stage_here.
      eapply wp_mono; [|eapply IH; [follow | right; reflexivity]].
      intros o' h' (s' & Hs' & HR). exists s'. split; [exact Hs'|].
      destruct o'; [|exact I | exact HR]. left.
      destruct HR as [->|[-> _]]; reflexivity.
    + wp_steps; try stage_here.
      eapply wp_mono; [|eapply IH; [follow | right; reflexivity]].
      intros o' h' (s' & Hs' & HR). exists s'. split; [exact Hs'|].
      destruct o'; [|exact I | exact HR]. left.
      destruct HR as [->|[-> _]]; reflexivity.
Qed.

Lemma createPlaylist_follows userId token h :
  follows label h (Collecting (bearer token)) false ->
  wp (createPlaylist api userId token label)
    (stage_post label (fun _ s => s = Created (bearer token)) ends) h.
Proof. intros Hh. unfold createPlaylist. cbv zeta. wp_steps; stage_here. Qed.

Lemma addTracksFrom_follows playlistId trackURIs token i : forall s h,
  follows label h s false ->
  s = Created (bearer token) \/ s = Appending (bearer token) ->
  wp (addTracksFrom api playlistId trackURIs token i)
    (stage_post label
       (fun _ s' => s' = Appending (bearer token)
                    \/ (s' = s /\ (List.length trackURIs <= i)%nat))
       ends) h.
Proof.
  funelim (addTracksFrom api playlistId trackURIs token i); intros s h Hh Hs.
  - destruct Hs as [-> | ->].
    + wp_steps; try stage_here.
      match goal with
      | IH : unit -> history -> forall s h, follows _ h s false -> _ |- _ =>
          eapply wp_mono; [|eapply (IH tt h); [follow | right; reflexivity]]
      end.
      intros o' h' (s' & Hs' & HR). exists s'. split; [exact Hs'|].
      destruct o'; [|exact I | exact HR]. left.
      destruct HR as [->|[-> _]]; reflexivity.
    + wp_steps; try stage_here.
      match goal with
      | IH : unit -> history -> forall s h, follows _ h s false -> _ |- _ =>
          eapply wp_mono; [|eapply (IH tt h); [follow | right; reflexivity]]
      end.
      intros o' h' (s' & Hs' & HR). exists s'. split; [exact Hs'|].
      destruct o'; [|exact I | exact HR]. left.
      destruct HR as [->|[-> _]]; reflexivity.
  - wp_steps. stage_here. right. split; [reflexivity | lia].
Qed.

(** The first half of the callback, whatever is known of its search. *)
Lemma gather_follows_with (F : stage -> Prop) fuel code h :
  (forall token h',
      follows label h' (ProfileAsked (bearer token)) false ->
      wp (searchAlbumsByLabel api fuel label token)
        (stage_post label
           (fun _ s' => exists o, s' = Searching (bearer token) o) F) h') ->
  follows label h Idle false ->
  wp (gather CLIENT_ID CLIENT_SECRET REDIRECT_URI api fuel label code)
    (stage_post label
       (fun g s =>
          s = Collecting (bearer (g_accessToken g))
          \/ ((exists o, s = Searching (bearer (g_accessToken g)) o)
              /\ g_allTracks g = []))
       F) h.
Proof.
  intros Hsearch Hh. unfold gather. wp_steps.
  eapply wp_bind_ends; [apply getAccessToken_follows; follow|].
  intros accessToken h1 s1 H1 ->. wp_steps.
  eapply wp_bind_ends; [apply getUserProfile_follows; follow|].
  intros userProfile h2 s2 H2 ->. wp_steps.
  eapply wp_bind_stage; [eapply Hsearch; follow | | |].
  - intros albums h3 s3 H3 [o ->]. wp_steps.
    eapply wp_bind_ends;
      [eapply collectTracks_follows; [follow | left; now eexists]|].
    intros allTracks h4 s4 H4 HR. wp_steps.
    exists s4. split; [exact H4|]. cbn [g_accessToken g_allTracks].
    destruct HR as [-> | [-> ->]]; [now left | right].
    split; [now eexists | reflexivity].
  - intros e h3 s3 H3. eapply stage_post_thrown; exact H3.
  - intros h3 s3 H3 HF. exists s3. split; [exact H3 | exact HF].
Qed.

Lemma searchAlbumsByLabel_follows fuel token h :
  follows label h (ProfileAsked (bearer token)) false ->
  wp (searchAlbumsByLabel api fuel label token)
    (stage_post label
       (fun _ s' => exists o, s' = Searching (bearer token) o)
       (stalled fuel)) h.
Proof.
  intros Hh. unfold searchAlbumsByLabel.
  eapply wp_mono;
    [|eapply searchAlbumsLoop_follows; [exact Hh | left; split; reflexivity]].
  intros o h' (s & Hs & HR). exists s. split; [exact Hs|].
  destruct o; auto. destruct fuel; cbn [stalled]; subst s; eexists; reflexivity.
Qed.

Lemma sortTracks_length (l : list track) :
  List.length (sortTracks Date_getTime l) = List.length l.
Proof. apply Permutation_length, Array_sort_perm. Qed.

Lemma publish_follows g s h :
  follows label h s false ->
  s = Collecting (bearer (g_accessToken g))
  \/ ((exists o, s = Searching (bearer (g_accessToken g)) o) /\ g_allTracks g = []) ->
  wp (publish Date_getTime api label g) (answer_post label) h.
Proof.
  intros Hh Hs. unfold publish. cbv zeta.
  destruct (Nat.eqb (List.length (g_allTracks g)) 0) eqn:Hempty.
  - wp_steps. destruct Hs as [-> | [[o ->] _]]; eexists; follow.
  - destruct Hs as [-> | [_ Hnone]];
      [|rewrite Hnone in Hempty; discriminate Hempty].
    apply Nat.eqb_neq in Hempty. wp_steps.
    eapply wp_bind_stage;
      [apply createPlaylist_follows; follow | |
       intros; eexists; eassumption | intros ? ? _ []].
    intros newPlaylist h1 s1 H1 ->. wp_steps.
    eapply wp_bind_stage;
      [unfold addTracksToPlaylist;
       eapply addTracksFrom_follows; [follow | left; reflexivity] | |
       intros; eexists; eassumption | intros ? ? _ []].
    intros [] h2 s2 H2 [-> | [_ Hlen]].
    + wp_steps. eexists. follow.
    + rewrite length_map, sortTracks_length in Hlen. lia.
Qed.

Lemma on_error_follows F e s h :
  follows label h s false -> wp (on_error e) (callback_follows label F) h.
Proof. intros Hh. unfold on_error. wp_steps. eexists. follow. Qed.

Lemma callback_follows_with (F : stage -> Prop) fuel code h :
  (forall token h',
      follows label h' (ProfileAsked (bearer token)) false ->
      wp (searchAlbumsByLabel api fuel label token)
        (stage_post label
           (fun _ s' => exists o, s' = Searching (bearer token) o) F) h') ->
  follows label h Idle false ->
  wp (callback CLIENT_ID CLIENT_SECRET REDIRECT_URI Date_getTime api fuel label code)
    (callback_follows label F) h.
Proof.
  intros Hsearch Hh. unfold callback. destruct (JS.falsy code).
  - wp_steps. eexists. follow.
  - wp_steps. eapply wp_mono; [|apply gather_follows_with; eassumption].
    intros [g|e|] h1 (s1 & H1 & HR); cbn beta iota delta [bind_post catch_post].
    + eapply wp_mono; [|eapply publish_follows; eassumption].
      intros [[]|e|] h2 [s2 H2]; cbn beta iota delta [catch_post].
      * exists s2. exact H2.
      * eapply on_error_follows. exact H2.
      * contradiction.
    + eapply on_error_follows. exact H1.
    + exists s1. split; [exact H1 | exact HR].
Qed.

End ProtocolFacts.

(** The history of every run follows the protocol; the callback never
    throws, it has answered the browser when it returns, and the model is
    out of fuel only while the search goes on. *)
Lemma run_follows CLIENT_ID CLIENT_SECRET REDIRECT_URI Date_getTime api
    fuel label code :
  let res := run CLIENT_ID CLIENT_SECRET REDIRECT_URI Date_getTime api
               fuel label code in
  callback_follows label (stalled fuel) (fst res) (snd res).
Proof.
  apply (callback_follows_with CLIENT_ID CLIENT_SECRET REDIRECT_URI
           Date_getTime api label (stalled fuel) fuel code []).
  - intros token h' Hh'. now apply searchAlbumsByLabel_follows.
  - constructor.
Qed.

(** ** What the protocol gives *)

Lemma calls_snoc h a :
  calls (h ++ [a]) = calls h ++ match a with Call r => [r] | _ => [] end.
Proof. rewrite calls_app. cbn. destruct a; reflexivity. Qed.

Lemma events_snoc h a :
  events (h ++ [a]) = events h ++ match a with Emit p => [p] | _ => [] end.
Proof. rewrite events_app. cbn. destruct a; reflexivity. Qed.

Lemma StronglySorted_snoc {A} (R : A -> A -> Prop) l x :
  StronglySorted R l -> Forall (fun y => R y x) l -> StronglySorted R (l ++ [x]).
Proof.
  induction 1 as [|a l Hs IH Ha]; intros Hx; cbn.
  - repeat constructor.
  - inversion Hx; subst. constructor; [now apply IH|].
    apply Forall_app. split; [assumption | now repeat constructor].
Qed.

Lemma repeatable_rank r r' : rank r = rank r' -> repeatable r' = true -> repeatable r = true.
Proof. destruct r, r'; cbn; congruence. Qed.

(** A step that sends a request moves to the stage of that request, which
    is the current stage if the request may repeat, else the next one. *)
Lemma step_call_level label s r s' :
  step label s (Call r) s' ->
  level s' = rank r /\
  ((level s < rank r)%nat \/ (level s = rank r /\ repeatable r = true)) /\
  (rank r <= S (level s))%nat.
Proof. inversion 1; subst; cbn; repeat split; auto; lia. Qed.

Lemma step_quiet_level label s a s' :
  step label s a s' -> is_call a = false -> level s' = level s.
Proof. inversion 1; subst; cbn; congruence. Qed.

Lemma follows_order label h s c :
  follows label h s c ->
  StronglySorted stage_order (calls h) /\
  Forall (fun r => (rank r <= level s)%nat) (calls h) /\
  (forall k, (1 <= k <= level s)%nat -> exists r, In r (calls h) /\ rank r = k).
Proof.
  induction 1 as [|h s a s' Hh IH Hstep|h s body Hh IH].
  - cbn. repeat split; [constructor | constructor |]. intros k Hk. lia.
  - destruct IH as (Hsorted & Hranks & Hfull). rewrite calls_snoc.
    destruct a as [r| | | | |];
      try (rewrite app_nil_r;
           rewrite (step_quiet_level _ _ _ _ Hstep eq_refl); now repeat split).
    destruct (step_call_level _ _ _ _ Hstep) as (Hlevel & Hnext & Hle).
    rewrite Hlevel. split; [|split].
    + apply StronglySorted_snoc; [exact Hsorted|].
      eapply Forall_impl; [|exact Hranks]. intros r' Hr'. cbn in Hr'.
      unfold stage_order.
      destruct (Nat.eq_dec (rank r') (rank r)) as [E|E]; [right | left; lia].
      split; [exact E|]. destruct Hnext as [Hlt | [_ Hrep]]; [lia|].
      eapply repeatable_rank; eassumption.
    + apply Forall_app. split.
      * eapply Forall_impl; [|exact Hranks]. cbn. intros; lia.
      * repeat constructor.
    + intros k Hk. destruct (Nat.eq_dec k (rank r)) as [->|Hne].
      * exists r. split; [apply in_or_app; right; now left | reflexivity].
      * destruct (Hfull k) as (r' & Hin & Hr'); [lia|].
        exists r'. split; [apply in_or_app; now left | exact Hr'].
  - rewrite calls_snoc, app_nil_r. exact IH.
Qed.

(** X1. The requests of a run come in the order of the pipeline: of two
    requests, the earlier is of an earlier stage (token, profile, search,
    album tracks, create, append), or both are search pages, both album
    listings or both batches; so the token, the profile and the playlist
    creation are requested at most once.  And no stage is skipped: a request
    is preceded by a request of each earlier stage. *)
Theorem requests_in_pipeline_order
    CLIENT_ID CLIENT_SECRET REDIRECT_URI Date_getTime (api : platform)
    (fuel : nat) (currentLabel code : option string) :
  let h := snd (run CLIENT_ID CLIENT_SECRET REDIRECT_URI Date_getTime api
                  fuel currentLabel code) in
  StronglySorted stage_order (calls h) /\
  (forall r k, In r (calls h) -> (1 <= k < rank r)%nat ->
     exists r', In r' (calls h) /\ rank r' = k).
Proof.
  intros h.
  destruct (run_follows CLIENT_ID CLIENT_SECRET REDIRECT_URI Date_getTime api
              fuel currentLabel code) as [s Hs].
  fold h in Hs.
  assert (Hf : exists c, follows currentLabel h s c).
  { destruct (fst (run _ _ _ _ _ _ _ _));
      [now exists true | contradiction | exists false; apply Hs]. }
  destruct Hf as [c Hf].
  destruct (follows_order _ _ _ _ Hf) as (Hsorted & Hranks & Hfull).
  split; [exact Hsorted|]. intros r k Hin Hk. apply Hfull.
  rewrite Forall_forall in Hranks. specialize (Hranks r Hin). lia.
Qed.

Lemma run_follows_some CLIENT_ID CLIENT_SECRET REDIRECT_URI Date_getTime api
    fuel label code :
  exists s c,
    follows label
      (snd (run CLIENT_ID CLIENT_SECRET REDIRECT_URI Date_getTime api
              fuel label code)) s c.
Proof.
  destruct (run_follows CLIENT_ID CLIENT_SECRET REDIRECT_URI Date_getTime api
              fuel label code) as [s Hs].
  exists s.
  destruct (fst (run _ _ _ _ _ _ _ _));
    [now exists true | contradiction | exists false; apply Hs].
Qed.

Lemma step_not_send label s a s' : step label s a s' -> sent [a] = [].
Proof. inversion 1; reflexivity. Qed.

Lemma follows_unanswered label h s c :
  follows label h s c -> c = false -> sent h = [].
Proof.
  induction 1 as [|h s a s' Hh IH Hstep|h s body Hh IH]; intros Hc;
    [reflexivity | | discriminate].
  rewrite sent_app, IH by reflexivity. exact (step_not_send _ _ _ _ Hstep).
Qed.

Lemma follows_answered label h s :
  follows label h s true ->
  exists h0 body, h = h0 ++ [Send body] /\ follows label h0 s false.
Proof.
  intros H. remember true as c eqn:Hc.
  destruct H as [|h s a s' Hh Hstep|h s body Hh]; try discriminate.
  now exists h, body.
Qed.

(** X3. The callback never throws: whatever fails inside it is caught.
    When it returns it has sent exactly one HTTP answer, as its last action;
    a run that is still searching has sent none. *)
Theorem callback_answers_once
    CLIENT_ID CLIENT_SECRET REDIRECT_URI Date_getTime (api : platform)
    (fuel : nat) (currentLabel code : option string) :
  let res := run CLIENT_ID CLIENT_SECRET REDIRECT_URI Date_getTime api
               fuel currentLabel code in
  match fst res with
  | Returned _ =>
      exists h0 body, snd res = h0 ++ [Send body] /\ sent h0 = []
  | OutOfFuel => sent (snd res) = []
  | Thrown _ => False
  end.
Proof.
  intros res.
  destruct (run_follows CLIENT_ID CLIENT_SECRET REDIRECT_URI Date_getTime api
              fuel currentLabel code) as [s Hs].
  fold res in Hs. destruct (fst res).
  - destruct (follows_answered _ _ _ Hs) as (h0 & body & Hh & H0).
    exists h0, body. split; [exact Hh|].
    exact (follows_unanswered _ _ _ _ H0 eq_refl).
  - exact Hs.
  - exact (follows_unanswered _ _ _ _ (proj1 Hs) eq_refl).
Qed.

Lemma step_link label s a s' :
  step label s a s' ->
  match a with
  | Emit p =>
      (playlist_url p = None /\ s' = s /\ reporting s)
      \/ (percent p = 100 /\ has_link p = true /\ reporting s
          /\ exists auth, s' = Announced auth)
  | _ => s' = s \/ (reporting s /\ reporting s')
  end.
Proof. inversion 1; subst; cbn; auto 7; right; eauto 7. Qed.

Lemma follows_link label h s c :
  follows label h s c ->
  match s with
  | Announced _ =>
      exists evs p, events h = evs ++ [p] /\ percent p = 100
                    /\ has_link p = true /\ Forall (fun q => has_link q = false) evs
  | _ => Forall (fun q => has_link q = false) (events h)
  end.
Proof.
  induction 1 as [|h s a s' Hh IH Hstep|h s body Hh IH].
  - constructor.
  - pose proof (step_link _ _ _ _ Hstep) as Hl. rewrite events_snoc.
    destruct a as [r|p| | | |]; try rewrite app_nil_r.
    + destruct Hl as [->|[Hr Hr']]; [exact IH|].
      destruct s; try contradiction; destruct s'; try contradiction; exact IH.
    + destruct Hl as [(Hnone & -> & Hr) | (Hp & Hlink & Hr & auth & ->)].
      * destruct s; try contradiction; (apply Forall_app; split; [exact IH|]);
          repeat constructor; unfold has_link; now rewrite Hnone.
      * exists (events h), p. repeat split; auto.
        destruct s; try contradiction; exact IH.
    + destruct Hl as [->|[Hr Hr']]; [exact IH|].
      destruct s; try contradiction; destruct s'; try contradiction; exact IH.
    + destruct Hl as [->|[Hr Hr']]; [exact IH|].
      destruct s; try contradiction; destruct s'; try contradiction; exact IH.
    + destruct Hl as [->|[Hr Hr']]; [exact IH|].
      destruct s; try contradiction; destruct s'; try contradiction; exact IH.
    + destruct Hl as [->|[Hr Hr']]; [exact IH|].
      destruct s; try contradiction; destruct s'; try contradiction; exact IH.
  - now rewrite events_snoc, app_nil_r.
Qed.

(** X4. A progress event carries a playlist link only as the last event of
    a run, with percent 100, and only after the run has requested the
    creation of the playlist and at least one batch of tracks. *)
Theorem link_announced_last
    CLIENT_ID CLIENT_SECRET REDIRECT_URI Date_getTime (api : platform)
    (fuel : nat) (currentLabel code : option string) :
  let h := snd (run CLIENT_ID CLIENT_SECRET REDIRECT_URI Date_getTime api
                  fuel currentLabel code) in
  Forall (fun q => has_link q = false) (events h)
  \/ (exists evs p,
        events h = evs ++ [p] /\ percent p = 100 /\ has_link p = true /\
        Forall (fun q => has_link q = false) evs /\
        existsb is_create (calls h) = true /\
        existsb is_append (calls h) = true).
Proof.
  intros h.
  destruct (run_follows_some CLIENT_ID CLIENT_SECRET REDIRECT_URI Date_getTime
              api fuel currentLabel code) as (s & c & Hf).
  fold h in Hf. pose proof (follows_link _ _ _ _ Hf) as Hl.
  destruct (follows_order _ _ _ _ Hf) as (_ & _ & Hfull).
  destruct s; try (left; exact Hl).
  right. destruct Hl as (evs & p & He & Hp & Hlink & Hnone).
  exists evs, p. repeat split; auto.
  - destruct (Hfull 5%nat) as (r & Hin & Hr); [cbn; lia|].
    apply existsb_exists. exists r. split; [exact Hin|].
    destruct r; cbn in Hr; try discriminate; reflexivity.
  - destruct (Hfull 6%nat) as (r & Hin & Hr); [cbn; lia|].
    apply existsb_exists. exists r. split; [exact Hin|].
    destruct r; cbn in Hr; try discriminate; reflexivity.
Qed.

Lemma page_offsets_snoc n : forall o,
  page_offsets (S n) o = page_offsets n o ++ [o + 50 * Z.of_nat n].
Proof.
  induction n as [|n IH]; intros o.
  - cbn. f_equal. lia.
  - change (page_offsets (S (S n)) o) with (o :: page_offsets (S n) (o + 50)).
    rewrite IH. cbn [page_offsets app]. do 2 f_equal. f_equal. lia.
Qed.

Lemma follows_pages label h s c :
  follows label h s c ->
  match s with
  | Idle | TokenAsked | ProfileAsked _ => filter is_search (calls h) = []
  | Searching a o =>
      exists k, o = 50 * Z.of_nat (S k) /\
                filter is_search (calls h)
                = map (GetSearch a (label_query label) 50) (page_offsets (S k) 0)
  | Collecting a | Created a | Appending a | Announced a =>
      exists k, filter is_search (calls h)
                = map (GetSearch a (label_query label) 50) (page_offsets (S k) 0)
  end.
Proof.
  induction 1 as [|h s a s' Hh IH Hstep|h s body Hh IH].
  - reflexivity.
  - rewrite calls_snoc.
    destruct Hstep; rewrite ?app_nil_r, ?filter_app; cbn [filter is_search];
      rewrite ?app_nil_r; try exact IH.
    + rewrite IH. exists 0%nat. split; reflexivity.
    + destruct IH as (k & -> & IH). exists (S k). split; [lia|].
      rewrite IH, (page_offsets_snoc (S k)), map_app. cbn [map].
      now rewrite Z.add_0_l.
    + destruct IH as (k & _ & IH). now exists k.
  - now rewrite calls_snoc, app_nil_r.
Qed.

(** ** Termination *)

(** X6. The search is the only place where a run can fail to end: when the
    model is out of fuel, the run has sent exactly [fuel] search requests,
    no request of a later stage, and no answer yet. *)
Theorem run_stalls_only_in_search
    CLIENT_ID CLIENT_SECRET REDIRECT_URI Date_getTime (api : platform)
    (fuel : nat) (currentLabel code : option string) :
  let res := run CLIENT_ID CLIENT_SECRET REDIRECT_URI Date_getTime api
               fuel currentLabel code in
  fst res = OutOfFuel ->
  List.length (filter is_search (calls (snd res))) = fuel /\
  Forall (fun r => (rank r <= 3)%nat) (calls (snd res)) /\
  sent (snd res) = [].
Proof.
  intros res Hout.
  destruct (run_follows CLIENT_ID CLIENT_SECRET REDIRECT_URI Date_getTime api
              fuel currentLabel code) as [s Hs].
  fold res in Hs. rewrite Hout in Hs. destruct Hs as [Hf Hstall].
  pose proof (follows_pages _ _ _ _ Hf) as Hp.
  destruct (follows_order _ _ _ _ Hf) as (_ & Hranks & _).
  split; [|split].
  - destruct fuel as [|fuel]; cbn [stalled] in Hstall;
      destruct Hstall as [auth ->].
    + now rewrite Hp.
    + destruct Hp as (k & Hk & ->).
      rewrite length_map, page_offsets_length. lia.
  - eapply Forall_impl; [|exact Hranks]. cbn. intros r Hr.
    destruct fuel; cbn [stalled] in Hstall; destruct Hstall as [auth ->];
      cbn in Hr; lia.
  - exact (follows_unanswered _ _ _ _ Hf eq_refl).
Qed.

(** X6 at work: the totals grow with the offset, the fuel is three pages. *)
Lemma run_stalls_only_in_search_witness :
  let res := Mock.run_on Scenario.growing 3 (Some "Endless") in
  fst res = OutOfFuel /\
  List.length (filter is_search (calls (snd res))) = 3%nat /\
  Forall (fun r => (rank r <= 3)%nat) (calls (snd res)) /\
  sent (snd res) = [].
Proof.
  intros res.
  assert (Hout : fst res = OutOfFuel) by (vm_compute; reflexivity).
  split; [exact Hout|].
  exact (run_stalls_only_in_search "client-id" "client-secret"
           "http://localhost:8888/callback" IsoDate.getTime Scenario.growing 3
           (Some "Endless") (Some "auth-code") Hout).
Defined.



Section GrowingTotals.

Variable api : platform.
Variable token : option string.
Variable query : string.

(** Every page is answered, with a total beyond the next offset. *)
Hypothesis grows : forall h k,
  exists body,
    api h (GetSearch (bearer token) query 50 k) = inr body /\ k + 50 < total body.

Lemma searchAlbumsLoop_goes_on fuel : forall albums o h,
  exists h',
    searchAlbumsLoop api fuel query token albums o h = (OutOfFuel, h') /\
    search_offsets h' = search_offsets h ++ page_offsets fuel o.
Proof.
  induction fuel as [|fuel IH]; intros albums o h.
  - exists h. split; [reflexivity|]. cbn. now rewrite app_nil_r.
  - destruct (grows h o) as (body & Hanswer & Hmore).
    cbn [searchAlbumsLoop]. unfold bind at 1, try_catch, bind at 1, axios.
    rewrite Hanswer.
    cbn -[Z.add Z.ltb searchAlbumsLoop JS.of_length JS.of_Z String.append].
    apply Z.ltb_lt in Hmore. rewrite Hmore.
    match goal with
    | |- exists h', searchAlbumsLoop _ _ _ _ ?a ?o' ?h1 = _ /\ _ =>
        destruct (IH a o' h1) as (h' & Hrun & Hoffsets)
    end.
    exists h'. split; [exact Hrun|]. rewrite Hoffsets.
    rewrite <- !app_assoc, !search_offsets_app. cbn [page_offsets].
    cbn. now rewrite <- app_assoc.
Qed.

End GrowingTotals.

(** X8. The paginator trusts the total of each page: against a platform
    whose total is always beyond the next offset the loop never ends; for
    every number of pages it has asked for that many, at the offsets
    0, 50, 100, ..., and goes on. *)
Theorem search_goes_on_while_total_grows
    (api : platform) (label token : option string) (fuel : nat) (h : history) :
  (forall h k,
      exists body,
        api h (GetSearch (bearer token) (label_query label) 50 k) = inr body
        /\ k + 50 < total body) ->
  exists h',
    searchAlbumsByLabel api fuel label token h = (OutOfFuel, h') /\
    search_offsets h' = search_offsets h ++ page_offsets fuel 0.
Proof.
  intros Hgrows. unfold searchAlbumsByLabel.
  exact (searchAlbumsLoop_goes_on api token (label_query label) Hgrows fuel [] 0 h).
Qed.

(** X8 at work over four pages. *)
Lemma search_goes_on_while_total_grows_witness :
  (forall h k,
      exists body,
        Scenario.growing h
          (GetSearch (bearer (Some "tok")) (label_query (Some "Endless")) 50 k)
        = inr body /\ k + 50 < total body) /\
  exists h',
    searchAlbumsByLabel Scenario.growing 4 (Some "Endless") (Some "tok") []
    = (OutOfFuel, h') /\
    search_offsets h' = [0; 50; 100; 150].
Proof.
  assert (Hgrows : forall h k,
      exists body,
        Scenario.growing h
          (GetSearch (bearer (Some "tok")) (label_query (Some "Endless")) 50 k)
        = inr body /\ k + 50 < total body).
  { intros h k. eexists. split; [reflexivity|]. cbn [total]. lia. }
  split; [exact Hgrows|].
  exact (search_goes_on_while_total_grows Scenario.growing (Some "Endless")
           (Some "tok") 4 [] Hgrows).
Defined.

(** ** The track collector *)

Section CollectorFacts.

Variable api : platform.
Variable token : option string.

Lemma collectTracks_answered album rest allTracks h items :
  api h (GetAlbumTracks (album_id album) (bearer token)) = inr items ->
  collectTracks api (album :: rest) token allTracks h
  = collectTracks api rest token (allTracks ++ map (annotate album) items)
      (h ++ [Call (GetAlbumTracks (album_id album) (bearer token));
             Emit (mkProgress
                     ("Processed album " +++ JS.dquote +++ album_name album
                        +++ JS.dquote +++ ".") 45 None);
             Sleep 200]).
Proof.
  intros Hanswer. cbn [collectTracks].
  unfold bind at 1, getAlbumTracks, try_catch, axios. rewrite Hanswer.
  cbn -[collectTracks String.append]. now rewrite <- !app_assoc.
Qed.

Lemma collectTracks_refused album rest allTracks h e :
  api h (GetAlbumTracks (album_id album) (bearer token)) = inl e ->
  collectTracks api (album :: rest) token allTracks h
  = (Thrown e,
     h ++ [Call (GetAlbumTracks (album_id album) (bearer token));
           Log (("Error fetching tracks for album " +++ album_id album +++ ":")
                  +++ " " +++ error_detail e)]).
Proof.
  intros Hanswer. cbn [collectTracks].
  unfold bind at 1, getAlbumTracks, try_catch, axios. rewrite Hanswer.
  cbn -[String.append]. now rewrite <- !app_assoc.
Qed.

Variable listing : string -> list api_track.

Lemma collectTracks_all albums : forall allTracks h,
  (forall h a, In a albums ->
     api h (GetAlbumTracks (album_id a) (bearer token)) = inr (listing (album_id a))) ->
  exists h',
    collectTracks api albums token allTracks h
    = (Returned (allTracks
                   ++ flat_map (fun a => map (annotate a) (listing (album_id a)))
                        albums), h') /\
    calls h' = calls h
               ++ map (fun a => GetAlbumTracks (album_id a) (bearer token)) albums.
Proof.
  induction albums as [|album rest IH]; intros allTracks h Hanswers.
  - exists h. cbn. now rewrite !app_nil_r.
  - rewrite (collectTracks_answered album rest allTracks h
               (listing (album_id album))) by (apply Hanswers; now left).
    edestruct IH as (h' & Hrun & Hcalls);
      [intros h0 a Ha; apply Hanswers; now right|].
    exists h'. rewrite Hrun, Hcalls. cbn [flat_map map].
    rewrite <- app_assoc. split; [reflexivity|].
    rewrite calls_app. cbn. now rewrite <- app_assoc.
Qed.

Lemma collectTracks_until before : forall a after allTracks h e,
  (forall h b, In b before ->
     api h (GetAlbumTracks (album_id b) (bearer token)) = inr (listing (album_id b))) ->
  (forall h, api h (GetAlbumTracks (album_id a) (bearer token)) = inl e) ->
  exists h',
    collectTracks api (before ++ a :: after) token allTracks h = (Thrown e, h') /\
    calls h' = calls h
               ++ map (fun b => GetAlbumTracks (album_id b) (bearer token))
                    (before ++ [a]).
Proof.
  induction before as [|b before IH]; intros a after allTracks h e Hbefore Hfail.
  - cbn [app]. rewrite (collectTracks_refused a after allTracks h e) by apply Hfail.
    eexists. split; [reflexivity|]. rewrite calls_app. reflexivity.
  - cbn [app].
    rewrite (collectTracks_answered b (before ++ a :: after) allTracks h
               (listing (album_id b))) by (apply Hbefore; now left).
    edestruct IH as (h' & Hrun & Hcalls);
      [intros h0 b0 Hb0; apply Hbefore; right; exact Hb0 | exact Hfail |].
    exists h'. rewrite Hrun, Hcalls. split; [reflexivity|].
    rewrite calls_app. cbn. now rewrite <- app_assoc.
Qed.

End CollectorFacts.

(** X9. When the platform answers the listing of every release, the Track
    Collector asks for each release once, in the order of discovery, and
    returns the tracks of all the listings in that order, each stamped with
    the release date of its own release and with its own track number. *)
Theorem collector_gathers_every_listing
    (api : platform) (token : option string) (listing : string -> list api_track)
    (albums : list album) (h : history) :
  (forall h a, In a albums ->
     api h (GetAlbumTracks (album_id a) (bearer token)) = inr (listing (album_id a))) ->
  exists h',
    collectTracks api albums token [] h
    = (Returned
         (flat_map
            (fun a => map (fun t => mkTrack (api_uri t) (release_date a) (track_number t))
                        (listing (album_id a)))
            albums), h') /\
    calls h' = calls h
               ++ map (fun a => GetAlbumTracks (album_id a) (bearer token)) albums.
Proof.
  intros Hanswers.
  exact (collectTracks_all api token listing albums [] h Hanswers).
Qed.

(** X9 at work on three albums of two tracks. *)
Lemma collector_gathers_every_listing_witness :
  (forall h a, In a Scenario.three_albums ->
     Scenario.listing_works h (GetAlbumTracks (album_id a) (bearer (Some "tok")))
     = inr (Scenario.listing (album_id a))) /\
  exists h',
    collectTracks Scenario.listing_works Scenario.three_albums (Some "tok") [] []
    = (Returned
         [mkTrack "At1" "2019-06-15" 1; mkTrack "At2" "2019-06-15" 2;
          mkTrack "Bt1" "2020-01-01" 1; mkTrack "Bt2" "2020-01-01" 2;
          mkTrack "Ct1" "2021" 1; mkTrack "Ct2" "2021" 2], h') /\
    calls h' = [GetAlbumTracks "A" "Bearer tok"; GetAlbumTracks "B" "Bearer tok";
                GetAlbumTracks "C" "Bearer tok"].
Proof.
  assert (Hanswers : forall h a, In a Scenario.three_albums ->
     Scenario.listing_works h (GetAlbumTracks (album_id a) (bearer (Some "tok")))
     = inr (Scenario.listing (album_id a))) by reflexivity.
  split; [exact Hanswers|].
  exact (collector_gathers_every_listing Scenario.listing_works (Some "tok")
           Scenario.listing Scenario.three_albums [] Hanswers).
Defined.

(** X10. When the listing of one release fails, the Track Collector stops
    there: it throws the platform's error, the tracks collected so far are
    dropped with it, and the releases after the failed one are never asked
    for. *)
Theorem collector_stops_at_first_failure
    (api : platform) (token : option string) (listing : string -> list api_track)
    (before : list album) (a : album) (after : list album) (e : error)
    (h : history) :
  (forall h b, In b before ->
     api h (GetAlbumTracks (album_id b) (bearer token)) = inr (listing (album_id b))) ->
  (forall h, api h (GetAlbumTracks (album_id a) (bearer token)) = inl e) ->
  exists h',
    collectTracks api (before ++ a :: after) token [] h = (Thrown e, h') /\
    calls h' = calls h
               ++ map (fun b => GetAlbumTracks (album_id b) (bearer token))
                    (before ++ [a]).
Proof.
  intros Hbefore Hfail.
  exact (collectTracks_until api token listing before a after [] h e Hbefore Hfail).
Qed.

(** X10 at work: the listing of the second of three albums fails. *)
Lemma collector_stops_at_first_failure_witness :
  let before := [mkAlbum "A" "First" "2019-06-15"] in
  let a := mkAlbum "B" "Second" "2020-01-01" in
  let after := [mkAlbum "C" "Third" "2021"] in
  (forall h b, In b before ->
     Scenario.listing_fails_at_B h (GetAlbumTracks (album_id b) (bearer (Some "tok")))
     = inr (Scenario.listing (album_id b))) /\
  (forall h,
     Scenario.listing_fails_at_B h (GetAlbumTracks (album_id a) (bearer (Some "tok")))
     = inl Mock.http500) /\
  exists h',
    collectTracks Scenario.listing_fails_at_B (before ++ a :: after) (Some "tok") [] []
    = (Thrown Mock.http500, h') /\
    calls h' = [GetAlbumTracks "A" "Bearer tok"; GetAlbumTracks "B" "Bearer tok"].
Proof.
  intros before a after.
  assert (Hbefore : forall h b, In b before ->
     Scenario.listing_fails_at_B h (GetAlbumTracks (album_id b) (bearer (Some "tok")))
     = inr (Scenario.listing (album_id b))).
  { intros h b [<-|[]]. reflexivity. }
  assert (Hfail : forall h,
     Scenario.listing_fails_at_B h (GetAlbumTracks (album_id a) (bearer (Some "tok")))
     = inl Mock.http500) by reflexivity.
  split; [exact Hbefore|]. split; [exact Hfail|].
  exact (collector_stops_at_first_failure Scenario.listing_fails_at_B (Some "tok")
           Scenario.listing before a after Mock.http500 [] Hbefore Hfail).
Defined.

(** ** The playlist writer, whatever the platform answers *)

Lemma batches_from_cons (trackURIs : list string) i n :
  batches_from trackURIs i (S n)
  = JS.slice i (i + 100) trackURIs :: batches_from trackURIs (i + 100) n.
Proof.
  unfold batches_from. cbn [seq map]. f_equal.
  - f_equal; lia.
  - rewrite <- seq_shift, map_map. apply map_ext. intros j. f_equal; lia.
Qed.

Lemma firstn_plus {A} a b : forall l : list A,
  firstn (a + b) l = firstn a l ++ firstn b (skipn a l).
Proof.
  induction a as [|a IH]; intros l; [reflexivity|].
  destruct l as [|x l]; cbn; [now rewrite firstn_nil | now rewrite IH].
Qed.

(** The first [m] batches hold the first [100 m] URIs. *)
Lemma batches_from_concat (trackURIs : list string) m : forall n i,
  (m <= n)%nat ->
  List.concat (firstn m (batches_from trackURIs i n))
  = firstn (100 * m) (skipn i trackURIs).
Proof.
  induction m as [|m IH]; intros n i Hm; [reflexivity|].
  destruct n as [|n]; [lia|]. rewrite batches_from_cons.
  cbn [firstn List.concat]. rewrite IH by lia.
  replace (100 * S m)%nat with (100 + 100 * m)%nat by lia.
  rewrite firstn_plus, skipn_skipn. unfold JS.slice.
  replace (i + 100 - i)%nat with 100%nat by lia.
  now replace (100 + i)%nat with (i + 100)%nat by lia.
Qed.

Lemma addTracksFrom_prefix api playlistId trackURIs token i : forall h o h',
  addTracksFrom api playlistId trackURIs token i h = (o, h') ->
  exists m l,
    h' = h ++ l /\
    (m <= ceil_div (List.length trackURIs - i) 100)%nat /\
    calls l
    = map (PostPlaylistTracks playlistId (bearer token))
        (firstn m (batches_from trackURIs i
                     (ceil_div (List.length trackURIs - i) 100))) /\
    match o with
    | Returned _ =>
        m = ceil_div (List.length trackURIs - i) 100 /\
        first_failure api h l = None
    | Thrown e =>
        (1 <= m)%nat /\
        exists pre batch,
          nth_error (batches_from trackURIs i
                       (ceil_div (List.length trackURIs - i) 100)) (m - 1)
          = Some batch /\
          first_failure api h l
          = Some (pre, PostPlaylistTracks playlistId (bearer token) batch, e) /\
          h' = pre ++ [Call (PostPlaylistTracks playlistId (bearer token) batch);
                       Log (failure_log
                              (PostPlaylistTracks playlistId (bearer token) batch) e)]
    | OutOfFuel => False
    end.
Proof.
  funelim (addTracksFrom api playlistId trackURIs token i); intros h o h'.
  - unfold BATCH_SIZE in *.
    rewrite (ceil_div_step (List.length trackURIs - i)) by lia.
    replace (List.length trackURIs - i - 100)%nat
      with (List.length trackURIs - (i + 100))%nat by lia.
    rewrite batches_from_cons.
    unfold bind at 1, try_catch, bind at 1, axios.
    destruct (api h (PostPlaylistTracks playlistId (bearer token)
                       (JS.slice i (i + 100) trackURIs))) as [e|[]] eqn:Hapi.
    + cbn -[String.append ceil_div batches_from JS.slice].
      intros [= <- <-]. exists 1%nat.
      exists [Call (PostPlaylistTracks playlistId (bearer token)
                      (JS.slice i (i + 100) trackURIs));
              Log (failure_log
                     (PostPlaylistTracks playlistId (bearer token)
                        (JS.slice i (i + 100) trackURIs)) e)].
      split; [now rewrite <- app_assoc|]. split; [lia|]. split; [reflexivity|].
      split; [lia|]. exists h, (JS.slice i (i + 100) trackURIs).
      split; [reflexivity|]. split; [|now rewrite <- app_assoc].
      cbn [first_failure]. now rewrite Hapi.
    + cbn -[addTracksFrom String.append ceil_div batches_from JS.slice Nat.div JS.of_Z].
      intros Hrun.
      match goal with
      | IH : unit -> history -> forall h o h', _ -> exists m, _ |- _ =>
          destruct (IH tt h _ _ _ Hrun) as (m & tl & Hl & Hm & Hcalls & Hout)
      end.
      exists (S m). eexists (_ :: _ :: _ :: tl).
      split; [rewrite Hl, <- !app_assoc; reflexivity|].
      split; [lia|]. split; [cbn [calls flat_map app map firstn]; f_equal; exact Hcalls|].
      assert (Hff : forall f,
                 first_failure api
                   (((h ++ [Call (PostPlaylistTracks playlistId (bearer token)
                                    (JS.slice i (i + 100) trackURIs))])
                       ++ [Emit (mkProgress
                                   ("Added batch "
                                      +++ JS.of_Z (Z.of_nat (i / 100) + 1)
                                      +++ " of tracks.") 90 None)])
                      ++ [Sleep 300]) tl = f ->
                 first_failure api h
                   (Call (PostPlaylistTracks playlistId (bearer token)
                            (JS.slice i (i + 100) trackURIs))
                      :: Emit (mkProgress
                                 ("Added batch "
                                    +++ JS.of_Z (Z.of_nat (i / 100) + 1)
                                    +++ " of tracks.") 90 None)
                      :: Sleep 300 :: tl) = f).
      { intros f <-. cbn [first_failure]. now rewrite Hapi. }
      destruct o as [[]|e|].
      * destruct Hout as [-> Hnone]. split; [reflexivity|]. now apply Hff.
      * destruct Hout as (H1 & pre & batch & Hnth & Hfirst & Hh').
        split; [lia|]. exists pre, batch.
        split; [|split; [now apply Hff | exact Hh']].
        replace (S m - 1)%nat with (S (m - 1)) by lia. exact Hnth.
      * exact Hout.
  - intros [= <- <-]. exists 0%nat, [].
    replace (List.length trackURIs - i)%nat with 0%nat by lia.
    cbn. split; [now rewrite app_nil_r|]. split; [lia|]. repeat split.
Qed.

Lemma batch_list_length (trackURIs : list string) :
  List.length (batch_list trackURIs) = ceil_div (List.length trackURIs) 100.
Proof. unfold batch_list, batches_from. now rewrite length_map, length_seq. Qed.

Lemma ceil_div_covers n : (n <= 100 * ceil_div n 100)%nat.
Proof.
  unfold ceil_div.
  pose proof (Nat.div_mod_eq (n + 100 - 1) 100) as E.
  pose proof (Nat.mod_upper_bound (n + 100 - 1) 100 ltac:(lia)). lia.
Qed.

(** X11. Whatever the platform answers, the add-tracks requests of the
    Playlist Writer are the first [m] batches of the input, in order, so the
    playlist has received the first [100 m] URIs and nothing else.  When the
    writer returns, every batch was accepted and they carry the whole list.
    When it throws, the request it sent last is the [m]-th batch, that is
    the first request the platform refused, the error thrown is the
    platform's, and the writer has logged it and sent nothing after.  The
    writer always ends. *)
Theorem writer_sends_a_prefix
    (api : platform) (playlistId : string) (token : option string)
    (trackURIs : list string) (h : history) :
  let res := addTracksToPlaylist api playlistId trackURIs token h in
  exists m l,
    snd res = h ++ l /\
    (m <= List.length (batch_list trackURIs))%nat /\
    calls (snd res)
    = calls h ++ map (PostPlaylistTracks playlistId (bearer token))
                   (firstn m (batch_list trackURIs)) /\
    List.concat (firstn m (batch_list trackURIs)) = firstn (100 * m) trackURIs /\
    match fst res with
    | Returned _ =>
        List.concat (firstn m (batch_list trackURIs)) = trackURIs /\
        first_failure api h l = None
    | Thrown e =>
        (1 <= m)%nat /\
        exists pre batch,
          nth_error (batch_list trackURIs) (m - 1) = Some batch /\
          first_failure api h l
          = Some (pre, PostPlaylistTracks playlistId (bearer token) batch, e) /\
          snd res
          = pre ++ [Call (PostPlaylistTracks playlistId (bearer token) batch);
                    Log ("Error adding tracks to playlist: " +++ error_detail e)]
    | OutOfFuel => False
    end.
Proof.
  intros res. subst res. unfold addTracksToPlaylist, batch_list.
  destruct (addTracksFrom api playlistId trackURIs token 0 h) as [o h'] eqn:Hrun.
  destruct (addTracksFrom_prefix api playlistId trackURIs token 0 h o h' Hrun)
    as (m & l & Hl & Hm & Hcalls & Hout).
  rewrite Nat.sub_0_r in *. exists m, l. cbn [fst snd].
  unfold batches_from at 1. rewrite length_map, length_seq.
  assert (Hcat : List.concat
                   (firstn m (batches_from trackURIs 0
                                (ceil_div (List.length trackURIs) 100)))
                 = firstn (100 * m) trackURIs)
    by (rewrite batches_from_concat by exact Hm; reflexivity).
  split; [exact Hl|]. split; [exact Hm|].
  split; [rewrite Hl, calls_app, Hcalls; reflexivity|]. split; [exact Hcat|].
  destruct o as [[]|e|]; [| |exact Hout].
  - destruct Hout as [-> Hnone]. split; [|exact Hnone].
    rewrite Hcat. apply firstn_all2. apply ceil_div_covers.
  - destruct Hout as (H1 & pre & batch & Hnth & Hfirst & Hh').
    split; [exact H1|]. exists pre, batch. repeat split; assumption.
Qed.

(** The second batch of 250 URIs is refused: the first two batches were
    sent, the third never. *)
Example second_batch_refused :
  let res := addTracksToPlaylist Scenario.second_batch_fails "pl-1" Mock.uris250
               (Some "tok") [] in
  fst res = Thrown Mock.http500 /\
  append_batches (snd res) = firstn 2 (batch_list Mock.uris250).
Proof. vm_compute. split; reflexivity. Qed.

(** ** A run that succeeds *)

Lemma no_writer_no_batches (cs : list request) :
  Forall (fun r => is_writer_call r = false) cs ->
  flat_map (fun r => match r with
                     | PostPlaylistTracks _ _ us => [us]
                     | _ => []
                     end) cs = [].
Proof.
  induction 1 as [|r cs Hr _ IH]; [reflexivity|].
  cbn [flat_map]. rewrite IH. destruct r; try reflexivity; discriminate Hr.
Qed.

Lemma batches_of_appends playlistId auth (bs : list (list string)) :
  flat_map (fun r => match r with
                     | PostPlaylistTracks _ _ us => [us]
                     | _ => []
                     end) (map (PostPlaylistTracks playlistId auth) bs) = bs.
Proof. induction bs as [|b bs IH]; [reflexivity | cbn; now rewrite IH]. Qed.

Section PublishFacts.

Variable Date_getTime : string -> option Z.
Variable api : platform.
Variable label : option string.
Variable g : gathered.
Variable newPlaylist : playlist.

(** The platform creates the playlist and accepts every batch sent to it. *)
Hypothesis created : forall h description,
  api h (PostPlaylist (id (g_userProfile g)) (bearer (g_accessToken g))
           (playlist_title label) description) = inr newPlaylist.
Hypothesis accepted : forall h batch,
  api h (PostPlaylistTracks (playlist_id newPlaylist) (bearer (g_accessToken g))
           batch) = inr tt.

Lemma publish_succeeds h :
  g_allTracks g <> [] ->
  exists bs h',
    publish Date_getTime api label g h
    = (Returned tt,
       h' ++ [Emit (mkProgress "All tracks added to the playlist successfully."
                      90 None);
              Emit (mkProgress
                      "Processing complete. Check the main page for progress updates."
                      100 (Some (external_url newPlaylist)));
              Send completion_page]) /\
    append_batches h' = append_batches h ++ bs /\
    List.concat bs = map uri (sortTracks Date_getTime (g_allTracks g)).
Proof.
  intros Hsome. unfold publish. cbv zeta.
  destruct (Nat.eqb (List.length (g_allTracks g)) 0) eqn:Hempty.
  { apply Nat.eqb_eq in Hempty. destruct (g_allTracks g); [congruence | discriminate]. }
  unfold bind at 1, emit at 1, act at 1.
  unfold bind at 1, createPlaylist, try_catch, axios.
  change ("Label Playlist: " +++ JS.of_opt label +++ " (Chronological)")
    with (playlist_title label).
  rewrite created.
  unfold bind at 1, emit at 1, act at 1.
  unfold bind at 1, addTracksToPlaylist.
  match goal with
  | |- context [addTracksFrom api ?pid ?uris ?tok 0 ?h4] =>
      destruct (addTracksFrom_batches api pid tok accepted uris 0 h4)
        as (bs & h' & Hrun & Hcalls & _ & _ & Hcat);
      rewrite Hrun
  end.
  exists bs, h'. split; [|split].
  - cbn -[String.append sortTracks]. unfold send, act. now rewrite <- !app_assoc.
  - unfold append_batches. rewrite Hcalls, flat_map_app, batches_of_appends.
    rewrite !calls_snoc, !app_nil_r, flat_map_app. cbn [flat_map].
    now rewrite app_nil_r.
  - exact Hcat.
Qed.

End PublishFacts.

(** X12. A run whose collection returned tracks, all with a release date
    that parses, against a platform that creates the playlist and accepts
    every batch, ends well: the callback returns, the tracks sent to the
    playlist, batch after batch, are the collected tracks in chronological
    order (by date, then by track number, tracks equal in both in the order
    of collection), the last event carries the link of the created playlist
    at 100 percent, and the one answer sent is the completion page. *)
Theorem run_publishes_sorted_tracks
    CLIENT_ID CLIENT_SECRET REDIRECT_URI Date_getTime (api : platform)
    (fuel : nat) (currentLabel code : option string)
    (g : gathered) (h1 : history) (newPlaylist : playlist) :
  JS.falsy code = false ->
  gather CLIENT_ID CLIENT_SECRET REDIRECT_URI api fuel currentLabel
    (JS.of_opt code) [] = (Returned g, h1) ->
  g_allTracks g <> [] ->
  Forall (valid_date Date_getTime) (g_allTracks g) ->
  (forall h description,
      api h (PostPlaylist (id (g_userProfile g)) (bearer (g_accessToken g))
               (playlist_title currentLabel) description) = inr newPlaylist) ->
  (forall h batch,
      api h (PostPlaylistTracks (playlist_id newPlaylist)
               (bearer (g_accessToken g)) batch) = inr tt) ->
  let res := run CLIENT_ID CLIENT_SECRET REDIRECT_URI Date_getTime api
               fuel currentLabel code in
  let sorted := sortTracks Date_getTime (g_allTracks g) in
  fst res = Returned tt /\
  List.concat (append_batches (snd res)) = map uri sorted /\
  Permutation (List.concat (append_batches (snd res))) (map uri (g_allTracks g)) /\
  Permutation sorted (g_allTracks g) /\
  (forall i x y,
      nth_error sorted i = Some x -> nth_error sorted (S i) = Some y ->
      chron_le Date_getTime x y) /\
  (forall d n,
      filter (has_key Date_getTime d n) sorted
      = filter (has_key Date_getTime d n) (g_allTracks g)) /\
  (exists evs,
      events (snd res)
      = evs ++ [mkProgress
                  "Processing complete. Check the main page for progress updates."
                  100 (Some (external_url newPlaylist))]) /\
  sent (snd res) = [completion_page].
Proof.
  intros Hcode Hg Hsome Hvalid Hcreated Haccepted res sorted.
  destruct (publish_succeeds Date_getTime api currentLabel g newPlaylist
              Hcreated Haccepted h1 Hsome) as (bs & h' & Hpub & Hbatches & Hcat).
  assert (Hres : res = (Returned tt,
            h' ++ [Emit (mkProgress
                           "All tracks added to the playlist successfully." 90 None);
                   Emit (mkProgress
                           "Processing complete. Check the main page for progress updates."
                           100 (Some (external_url newPlaylist)));
                   Send completion_page])).
  { subst res. unfold run, callback. rewrite Hcode.
    unfold try_catch at 1, bind at 1. rewrite Hg, Hpub. reflexivity. }
  assert (Hnone : append_batches h1 = []).
  { pose proof (gather_inv CLIENT_ID CLIENT_SECRET REDIRECT_URI api fuel
                  currentLabel (JS.of_opt code) 0 false [] (running_init api)
                  ltac:(lia)) as Hinv.
    apply (wp_run _ _ _ _ _ Hinv) in Hg. destruct Hg as (_ & Hw & _).
    apply no_writer_no_batches. now apply Hw. }
  assert (Hall : List.concat (append_batches (snd res))
                 = map uri (sortTracks Date_getTime (g_allTracks g))).
  { rewrite Hres. cbn [snd]. rewrite append_batches_app, Hbatches, Hnone.
    cbn. now rewrite app_nil_r. }
  split; [now rewrite Hres|]. split; [exact Hall|].
  split; [|split; [|split; [|split; [|split]]]].
  - rewrite Hall. apply Permutation_map. apply Array_sort_perm.
  - apply Array_sort_perm.
  - apply Sorted_adjacent.
    apply Array_sort_Sorted with (dom := valid_date Date_getTime);
      auto using compare_le, compare_greater.
  - intros d n.
    apply Array_sort_filter with (dom := valid_date Date_getTime); auto.
    intros x y. apply compare_same_key.
  - rewrite Hres. cbn [snd].
    exists (events h' ++ [mkProgress
                            "All tracks added to the playlist successfully."
                            90 None]).
    rewrite events_app. cbn. now rewrite <- app_assoc.
  - pose proof (run_follows CLIENT_ID CLIENT_SECRET REDIRECT_URI Date_getTime api
                  fuel currentLabel code) as [s Hs].
    fold res in Hs. rewrite Hres in *. cbn [fst snd] in *.
    destruct (follows_answered _ _ _ Hs) as (h0 & body & Hh & H0).
    change (h' ++ [?a; ?b; ?c]) with (h' ++ [a; b] ++ [c]) in Hh.
    rewrite app_assoc in Hh. apply app_inj_tail in Hh. destruct Hh as [Hh0 Hbody].
    change (h' ++ [?a; ?b; ?c]) with (h' ++ [a; b] ++ [c]).
    rewrite app_assoc, sent_app, Hh0.
    rewrite (follows_unanswered _ _ _ _ H0 eq_refl). reflexivity.
Qed.

(** X12 at work on the README's example. *)
Lemma run_publishes_sorted_tracks_witness :
  let api := Mock.serve Mock.crosstown in
  let res := Mock.run_on api 5 (Some "Crosstown Rebels") in
  gather "client-id" "client-secret" "http://localhost:8888/callback" api 5
    (Some "Crosstown Rebels") "auth-code" []
  = (Returned Scenario.crosstown_gathered, Scenario.crosstown_history) /\
  Forall (valid_date IsoDate.getTime) (g_allTracks Scenario.crosstown_gathered) /\
  fst res = Returned tt /\
  List.concat (append_batches (snd res)) = ["A2019t1"; "A2020t1"; "A2020t2"] /\
  sent (snd res) = [completion_page].
Proof.
  intros api res.
  assert (Hvalid : Forall (valid_date IsoDate.getTime)
                     (g_allTracks Scenario.crosstown_gathered)).
  { repeat constructor; unfold valid_date; vm_compute; discriminate. }
  assert (Hg : gather "client-id" "client-secret" "http://localhost:8888/callback"
                 api 5 (Some "Crosstown Rebels") "auth-code" []
               = (Returned Scenario.crosstown_gathered, Scenario.crosstown_history))
    by (vm_compute; reflexivity).
  split; [exact Hg|]. split; [exact Hvalid|].
  destruct (run_publishes_sorted_tracks "client-id" "client-secret"
              "http://localhost:8888/callback" IsoDate.getTime api 5
              (Some "Crosstown Rebels") (Some "auth-code")
              Scenario.crosstown_gathered Scenario.crosstown_history
              Scenario.crosstown_playlist eq_refl Hg
              ltac:(discriminate) Hvalid ltac:(reflexivity) ltac:(reflexivity))
    as (Ho & Hcat & _ & _ & _ & _ & _ & Hsent).
  split; [exact Ho|]. split; [|exact Hsent].
  refine (eq_trans Hcat _). vm_compute. reflexivity.
Defined.

(** ** The comparator of the sorter *)

(** X13. On tracks whose release dates parse, the comparator handed to
    [sort] is consistent, as ECMAScript asks of a comparator for the order
    to be defined: swapping the arguments flips the sign, and "not after"
    is transitive. *)
Theorem comparator_consistent
    (Date_getTime : string -> option Z) (a b c : track) :
  valid_date Date_getTime a -> valid_date Date_getTime b ->
  valid_date Date_getTime c ->
  let cmp := SortCompare (compareTracks Date_getTime) in
  cmp a a = 0 /\
  (cmp a b < 0 <-> 0 < cmp b a) /\
  (cmp a b = 0 <-> cmp b a = 0) /\
  (cmp a b <= 0 -> cmp b c <= 0 -> cmp a c <= 0).
Proof.
  unfold valid_date, SortCompare, compareTracks. intros Ha Hb Hc.
  destruct (Date_getTime (albumReleaseDate a)) as [da|]; [|contradiction].
  destruct (Date_getTime (albumReleaseDate b)) as [db|]; [|contradiction].
  destruct (Date_getTime (albumReleaseDate c)) as [dc|]; [|contradiction].
  cbv zeta. rewrite Z.eqb_refl.
  destruct (Z.eqb_spec da db), (Z.eqb_spec db da), (Z.eqb_spec db dc),
    (Z.eqb_spec da dc); lia.
Qed.

Lemma comparator_consistent_witness :
  let a := mkTrack "a" "2019-06-15" 2 in
  let b := mkTrack "b" "2020-01-01" 1 in
  let c := mkTrack "c" "2020-01-01" 3 in
  let cmp := SortCompare (compareTracks IsoDate.getTime) in
  valid_date IsoDate.getTime a /\ valid_date IsoDate.getTime b /\
  valid_date IsoDate.getTime c /\
  cmp a a = 0 /\ (cmp a b < 0 <-> 0 < cmp b a) /\ (cmp a b = 0 <-> cmp b a = 0) /\
  (cmp a b <= 0 -> cmp b c <= 0 -> cmp a c <= 0).
Proof.
  intros a b c cmp.
  assert (Ha : valid_date IsoDate.getTime a) by (unfold valid_date; vm_compute; discriminate).
  assert (Hb : valid_date IsoDate.getTime b) by (unfold valid_date; vm_compute; discriminate).
  assert (Hc : valid_date IsoDate.getTime c) by (unfold valid_date; vm_compute; discriminate).
  split; [exact Ha|]. split; [exact Hb|]. split; [exact Hc|].
  exact (comparator_consistent IsoDate.getTime a b c Ha Hb Hc).
Defined.

(** With a date that does not parse the comparator is not consistent: it
    ties the undated track with both others, which it orders strictly. *)
Example comparator_inconsistent_on_invalid_date :
  let a := mkTrack "a" "2020-01-01" 1 in
  let b := mkTrack "b" "n/a" 1 in
  let c := mkTrack "c" "2019-06-15" 1 in
  let cmp := SortCompare (compareTracks IsoDate.getTime) in
  cmp c b = 0 /\ cmp b a = 0 /\ cmp c a < 0 /\ cmp a b = 0 /\ cmp b c = 0 /\ 0 < cmp a c.
Proof. vm_compute. repeat split; reflexivity. Qed.

(** ** Success is reported only when nothing failed *)

(** X14. The completion page is sent only by runs in which every request
    was answered: when the answer of a run is the completion page, no
    request of the run had failed. *)
Theorem completion_means_all_answered
    CLIENT_ID CLIENT_SECRET REDIRECT_URI Date_getTime (api : platform)
    (fuel : nat) (currentLabel code : option string) :
  let res := run CLIENT_ID CLIENT_SECRET REDIRECT_URI Date_getTime api
               fuel currentLabel code in
  In (Send completion_page) (snd res) ->
  first_failure api [] (snd res) = None.
Proof.
  intros res Hsent.
  destruct (run_post CLIENT_ID CLIENT_SECRET REDIRECT_URI Date_getTime api
              fuel currentLabel code) as [_ [Hall | [_ (before & r & e & Hh)]]];
    fold res in Hall || fold res in Hh.
  - exact Hall.
  - exfalso.
    destruct (run_follows CLIENT_ID CLIENT_SECRET REDIRECT_URI Date_getTime api
                fuel currentLabel code) as [s Hs].
    fold res in Hs.
    assert (Hone : sent (snd res) = [failure_page]).
    { destruct Hh as (_ & _ & Hhist).
      destruct (fst res) as [[]| |]; [|contradiction|].
      - destruct (follows_answered _ _ _ Hs) as (h0 & body & Hh0 & H0).
        rewrite Hhist in Hh0.
        change (before ++ [?a; ?b; ?c; ?d]) with (before ++ [a; b; c] ++ [d]) in Hh0.
        rewrite app_assoc in Hh0. apply app_inj_tail in Hh0.
        destruct Hh0 as [Hh0 _]. rewrite Hhist.
        change (before ++ [?a; ?b; ?c; ?d]) with (before ++ [a; b; c] ++ [d]).
        rewrite app_assoc, sent_app, Hh0, (follows_unanswered _ _ _ _ H0 eq_refl).
        reflexivity.
      - destruct Hs as [Hs _].
        pose proof (follows_unanswered _ _ _ _ Hs eq_refl) as Hnone.
        rewrite Hhist, sent_app in Hnone. cbn in Hnone.
        destruct (sent before); discriminate Hnone. }
    assert (Hin : In completion_page (sent (snd res))).
    { unfold sent. apply in_flat_map. exists (Send completion_page).
      split; [exact Hsent | now left]. }
    rewrite Hone in Hin. destruct Hin as [Heq|[]]. discriminate Heq.
Qed.

(** X14 at work on the README's example. *)
Lemma completion_means_all_answered_witness :
  let api := Mock.serve Mock.crosstown in
  let res := Mock.run_on api 5 (Some "Crosstown Rebels") in
  In (Send completion_page) (snd res) /\ first_failure api [] (snd res) = None.
Proof.
  intros api res.
  assert (Hsent : In (Send completion_page) (snd res)).
  { apply in_rev. vm_compute. now left. }
  split; [exact Hsent|].
  exact (completion_means_all_answered "client-id" "client-secret"
           "http://localhost:8888/callback" IsoDate.getTime api 5
           (Some "Crosstown Rebels") (Some "auth-code") Hsent).
Defined.

(** ** The pauses between requests *)

Ltac pace :=
  lazymatch goal with
  | |- paced (_ ++ [Call _]) _ => eapply paced_call; pace
  | |- paced (_ ++ [Sleep _]) _ => eapply paced_rest; pace
  | |- paced (_ ++ [_]) _ =>
      eapply paced_other; [pace | reflexivity | reflexivity]
  | |- paced _ _ => eassumption
  end.

Ltac rest_here :=
  lazymatch goal with
  | |- rest_post (Thrown _) _ => cbn beta iota delta [rest_post]; eexists; pace
  | |- rest_post _ _ => cbn beta iota delta [rest_post]; pace
  end.

Section PacingFacts.

Variable CLIENT_ID : string.
Variable CLIENT_SECRET : string.
Variable REDIRECT_URI : string.
Variable Date_getTime : string -> option Z.
Variable api : platform.

Lemma wp_bind_rest {A B} (m : M A) (k : A -> M B) h :
  wp m rest_post h ->
  (forall a h', paced h' None -> wp (k a) rest_post h') ->
  wp m (bind_post k rest_post) h.
Proof.
  intros Hm Hk. eapply wp_mono; [|exact Hm].
  intros [a|e|] h' Hpost; cbn beta iota delta [bind_post]; auto.
Qed.

Lemma getAccessToken_paced code h :
  paced h None ->
  wp (getAccessToken CLIENT_ID CLIENT_SECRET REDIRECT_URI api code) rest_post h.
Proof. intros Hh. unfold getAccessToken. wp_steps; rest_here. Qed.

Lemma getUserProfile_paced token h :
  paced h None -> wp (getUserProfile api token) rest_post h.
Proof. intros Hh. unfold getUserProfile. wp_steps; rest_here. Qed.

Lemma searchAlbumsLoop_paced fuel : forall query token albums offset h,
  paced h None ->
  wp (searchAlbumsLoop api fuel query token albums offset) rest_post h.
Proof.
  induction fuel as [|fuel IH]; intros query token albums offset h Hh;
    cbn [searchAlbumsLoop].
  - wp_steps. rest_here.
  - cbv zeta. wp_steps; try rest_here. cbv beta iota.
    match goal with |- context [?a <? ?b] => destruct (a <? b) end.
    + apply IH. pace.
    + wp_steps. rest_here.
Qed.

Lemma collectTracks_paced albums : forall token allTracks h,
  paced h None -> wp (collectTracks api albums token allTracks) rest_post h.
Proof.
  induction albums as [|album rest IH]; intros token allTracks h Hh;
    cbn [collectTracks].
  - wp_steps. rest_here.
  - unfold getAlbumTracks. wp_steps; try rest_here. apply IH. pace.
Qed.

Lemma createPlaylist_paced userId token label h :
  paced h None -> wp (createPlaylist api userId token label) rest_post h.
Proof. intros Hh. unfold createPlaylist. cbv zeta. wp_steps; rest_here. Qed.

Lemma addTracksFrom_paced playlistId trackURIs token i : forall h,
  paced h None ->
  wp (addTracksFrom api playlistId trackURIs token i) rest_post h.
Proof.
  funelim (addTracksFrom api playlistId trackURIs token i); intros h Hh.
  - wp_steps; try rest_here.
    match goal with
    | IH : unit -> history -> forall h, paced h None -> _ |- _ =>
        apply (IH tt h); pace
    end.
  - wp_steps. rest_here.
Qed.

Lemma gather_paced fuel label code h :
  paced h None ->
  wp (gather CLIENT_ID CLIENT_SECRET REDIRECT_URI api fuel label code) rest_post h.
Proof.
  intros Hh. unfold gather. wp_steps.
  apply wp_bind_rest; [apply getAccessToken_paced; pace|].
  intros accessToken h1 H1. wp_steps.
  apply wp_bind_rest; [apply getUserProfile_paced; pace|].
  intros userProfile h2 H2. wp_steps.
  apply wp_bind_rest;
    [unfold searchAlbumsByLabel; apply searchAlbumsLoop_paced; pace|].
  intros albums h3 H3. wp_steps.
  apply wp_bind_rest; [apply collectTracks_paced; pace|].
  intros allTracks h4 H4. wp_steps. rest_here.
Qed.

Lemma publish_paced label g h :
  paced h None -> wp (publish Date_getTime api label g) rest_post h.
Proof.
  intros Hh. unfold publish. cbv zeta.
  destruct (Nat.eqb (List.length (g_allTracks g)) 0).
  - wp_steps. rest_here.
  - wp_steps.
    apply wp_bind_rest; [apply createPlaylist_paced; pace|].
    intros newPlaylist h1 H1. wp_steps.
    apply wp_bind_rest;
      [unfold addTracksToPlaylist; apply addTracksFrom_paced; pace|].
    intros [] h2 H2. wp_steps. rest_here.
Qed.

Lemma callback_paced fuel label code h :
  paced h None ->
  wp (callback CLIENT_ID CLIENT_SECRET REDIRECT_URI Date_getTime api fuel label code)
    (fun _ h' => exists due, paced h' due) h.
Proof.
  intros Hh. unfold callback. destruct (JS.falsy code).
  - wp_steps. eexists. pace.
  - wp_steps. eapply wp_mono; [|apply gather_paced; exact Hh].
    intros [g|e|] h1 H1; cbn beta iota delta [bind_post catch_post].
    + eapply wp_mono; [|apply publish_paced; exact H1].
      intros [[]|e|] h2 H2; cbn beta iota delta [catch_post rest_post] in *.
      * eauto.
      * destruct H2 as [due H2]. unfold on_error. wp_steps. eexists. pace.
      * eauto.
    + destruct H1 as [due H1]. unfold on_error. wp_steps. eexists. pace.
    + cbn in H1. eauto.
Qed.

End PacingFacts.

Lemma paced_snoc_inv h a due :
  paced (h ++ [a]) due ->
  exists due0,
    paced h due0 /\
    match a with
    | Call r => due0 = None /\ due = delay_after r
    | Sleep ms => due0 = Some ms /\ due = None
    | _ => due = due0
    end.
Proof.
  intros H. remember (h ++ [a]) as h1 eqn:E.
  destruct H as [|h0 r H0|h0 ms H0|h0 due0 a0 H0 Hc Hs].
  - destruct h; discriminate E.
  - apply app_inj_tail in E. destruct E as [-> <-]. now exists None.
  - apply app_inj_tail in E. destruct E as [-> <-]. now exists (Some ms).
  - apply app_inj_tail in E. destruct E as [-> <-]. exists due0.
    split; [exact H0|]. destruct a0; try discriminate; reflexivity.
Qed.

Lemma paced_prefix h1 h2 : forall due,
  paced (h1 ++ h2) due -> exists due', paced h1 due'.
Proof.
  induction h2 as [|a h2 IH] using rev_ind; intros due H.
  - rewrite app_nil_r in H. eauto.
  - rewrite app_assoc in H. apply paced_snoc_inv in H.
    destruct H as (due0 & H0 & _). eauto.
Qed.

Lemma paced_due pre r ms mid : forall due,
  paced (pre ++ Call r :: mid) due -> delay_after r = Some ms ->
  In (Sleep ms) mid \/ due = Some ms.
Proof.
  induction mid as [|a mid IH] using rev_ind; intros due H Hr.
  - apply paced_snoc_inv in H. destruct H as (due0 & _ & _ & ->). now right.
  - change (pre ++ Call r :: mid ++ [a]) with (pre ++ (Call r :: mid) ++ [a]) in H.
    rewrite app_assoc in H. apply paced_snoc_inv in H.
    destruct H as (due0 & H0 & Ha).
    destruct (IH _ H0 Hr) as [Hin | ->].
    + left. apply in_or_app. now left.
    + destruct a as [r'|p|ms'|line|body|url params].
      * destruct Ha as [Ha _]. discriminate Ha.
      * right. exact Ha.
      * destruct Ha as [[= ->] _]. left. apply in_or_app. right. now left.
      * right. exact Ha.
      * right. exact Ha.
      * right. exact Ha.
Qed.

(** X15. A run never sends a request while a pause is due: between a
    search page and the next request it sleeps 500 ms, between an album
    listing and the next request 200 ms, between a batch and the next
    request 300 ms. *)
Theorem requests_are_paced
    CLIENT_ID CLIENT_SECRET REDIRECT_URI Date_getTime (api : platform)
    (fuel : nat) (currentLabel code : option string)
    (pre : history) (r : request) (mid : history) (r' : request)
    (post : history) (ms : Z) :
  snd (run CLIENT_ID CLIENT_SECRET REDIRECT_URI Date_getTime api
         fuel currentLabel code)
  = pre ++ Call r :: mid ++ Call r' :: post ->
  delay_after r = Some ms ->
  In (Sleep ms) mid.
Proof.
  intros Hh Hr.
  destruct (callback_paced CLIENT_ID CLIENT_SECRET REDIRECT_URI Date_getTime api
              fuel currentLabel code [] paced_start) as [due Hp].
  unfold run in Hh. rewrite Hh in Hp.
  change (pre ++ Call r :: mid ++ Call r' :: post)
    with (pre ++ (Call r :: mid) ++ [Call r'] ++ post) in Hp.
  rewrite !app_assoc in Hp. apply paced_prefix in Hp. destruct Hp as [due' Hp].
  apply paced_snoc_inv in Hp. destruct Hp as (due0 & Hp & -> & _).
  destruct (paced_due _ _ _ _ _ Hp Hr) as [Hin | Hdue];
    [exact Hin | discriminate Hdue].
Qed.

(** X15 at work between the two album requests of the README's example. *)
Lemma requests_are_paced_witness :
  let r := GetAlbumTracks "A2020" "Bearer BQD-token" in
  let r' := GetAlbumTracks "A2019" "Bearer BQD-token" in
  snd (Mock.run_on (Mock.serve Mock.crosstown) 5 (Some "Crosstown Rebels"))
  = Pacing.before_first_album
      ++ Call r :: Pacing.between_albums ++ Call r' :: Pacing.after_second_album /\
  delay_after r = Some 200 /\
  In (Sleep 200) Pacing.between_albums.
Proof.
  intros r r'.
  assert (Hh : snd (Mock.run_on (Mock.serve Mock.crosstown) 5
                      (Some "Crosstown Rebels"))
               = Pacing.before_first_album
                   ++ Call r :: Pacing.between_albums
                   ++ Call r' :: Pacing.after_second_album)
    by (vm_compute; reflexivity).
  split; [exact Hh|]. split; [reflexivity|].
  exact (requests_are_paced "client-id" "client-secret"
           "http://localhost:8888/callback" IsoDate.getTime
           (Mock.serve Mock.crosstown) 5 (Some "Crosstown Rebels")
           (Some "auth-code") _ r _ r' _ 200 Hh eq_refl).
Defined.

(** ** The token that authorizes the requests *)

Lemma exchanged_token_app api before h1 h2 token :
  exchanged_token api before h1 = Some token ->
  exchanged_token api before (h1 ++ h2) = Some token.
Proof.
  revert before. induction h1 as [|a h1 IH]; intros before; [discriminate|].
  cbn [app exchanged_token].
  destruct a as [[]| | | | |]; auto.
Qed.

Lemma exchanged_token_first api before h code redirect_uri client_id client_secret body :
  calls h = [] ->
  api (before ++ h) (PostToken code redirect_uri client_id client_secret) = inr body ->
  exchanged_token api before
    (h ++ [Call (PostToken code redirect_uri client_id client_secret)])
  = Some (access_token body).
Proof.
  revert before. induction h as [|a h IH]; intros before Hcalls Hapi.
  - rewrite app_nil_r in Hapi. cbn. now rewrite Hapi.
  - destruct a as [r| | | | |]; [discriminate Hcalls|..];
      cbn [app exchanged_token]; apply IH; try exact Hcalls;
      now rewrite <- app_assoc.
Qed.

Lemma bears_quiet api token h a :
  bears api token h -> is_call a = false -> bears api token (h ++ [a]).
Proof.
  intros [Ht Hall] Ha. split.
  - now apply exchanged_token_app.
  - rewrite calls_snoc. destruct a; try discriminate Ha;
      now rewrite app_nil_r.
Qed.

Lemma bears_call api token h r :
  bears api token h -> authorization r = Some (bearer token) ->
  bears api token (h ++ [Call r]).
Proof.
  intros [Ht Hall] Hr. split.
  - now apply exchanged_token_app.
  - rewrite calls_snoc. apply Forall_app. split; [exact Hall|].
    constructor; [now right | constructor].
Qed.

Lemma unauthorized_quiet h a :
  Forall unauthorized (calls h) -> is_call a = false ->
  Forall unauthorized (calls (h ++ [a])).
Proof.
  intros Hall Ha. rewrite calls_snoc.
  destruct a; try discriminate Ha; now rewrite app_nil_r.
Qed.

Lemma settled_quiet api h a :
  settled api h -> is_call a = false -> settled api (h ++ [a]).
Proof.
  intros [Hnone | [token Hb]] Ha.
  - left. now apply unauthorized_quiet.
  - right. exists token. now apply bears_quiet.
Qed.

Ltac bear :=
  lazymatch goal with
  | |- bears _ _ (_ ++ [Call _]) => apply bears_call; [bear | reflexivity]
  | |- bears _ _ (_ ++ [_]) => apply bears_quiet; [bear | reflexivity]
  | |- bears _ _ _ => eassumption
  | |- settled _ (_ ++ [_]) => apply settled_quiet; [bear | reflexivity]
  | |- settled _ _ => first [assumption | right; eexists; bear]
  | |- Forall unauthorized (calls (_ ++ [_])) =>
      apply unauthorized_quiet; [bear | reflexivity]
  | |- Forall unauthorized (calls _) => assumption
  end.

Ltac bear_post :=
  intros; cbn beta iota delta [gather_bears token_post]; bear.

Section TokenFacts.

Variable CLIENT_ID : string.
Variable CLIENT_SECRET : string.
Variable REDIRECT_URI : string.
Variable Date_getTime : string -> option Z.
Variable api : platform.

Lemma wp_bind_bears {A B} (m : M A) (k : A -> M B) token
    (Q : outcome B -> history -> Prop) h :
  wp m (fun _ h' => bears api token h') h ->
  (forall a h', bears api token h' -> wp (k a) Q h') ->
  (forall e h', bears api token h' -> Q (Thrown e) h') ->
  (forall h', bears api token h' -> Q OutOfFuel h') ->
  wp m (bind_post k Q) h.
Proof.
  intros Hm Hk He Hf. eapply wp_mono; [|exact Hm].
  intros [a|e|] h' Hpost; cbn beta iota delta [bind_post]; auto.
Qed.

Lemma getAccessToken_bears code h :
  calls h = [] ->
  wp (getAccessToken CLIENT_ID CLIENT_SECRET REDIRECT_URI api code)
    (token_post api) h.
Proof.
  intros Hh. unfold getAccessToken. wp_steps; cbn beta iota delta [token_post].
  - rewrite !calls_snoc, Hh. cbn. repeat constructor.
  - split.
    + apply (exchanged_token_first api [] h); assumption.
    + rewrite calls_snoc, Hh. cbn. constructor; [now left | constructor].
Qed.

Lemma getUserProfile_bears token h :
  bears api token h ->
  wp (getUserProfile api token) (fun _ h' => bears api token h') h.
Proof. intros Hh. unfold getUserProfile. wp_steps; bear. Qed.

Lemma searchAlbumsLoop_bears fuel : forall query token albums offset h,
  bears api token h ->
  wp (searchAlbumsLoop api fuel query token albums offset)
    (fun _ h' => bears api token h') h.
Proof.
  induction fuel as [|fuel IH]; intros query token albums offset h Hh;
    cbn [searchAlbumsLoop].
  - wp_steps. bear.
  - cbv zeta. wp_steps; try bear. cbv beta iota.
    match goal with |- context [?a <? ?b] => destruct (a <? b) end.
    + apply IH. bear.
    + wp_steps. bear.
Qed.

Lemma collectTracks_bears albums : forall token allTracks h,
  bears api token h ->
  wp (collectTracks api albums token allTracks)
    (fun _ h' => bears api token h') h.
Proof.
  induction albums as [|album rest IH]; intros token allTracks h Hh;
    cbn [collectTracks].
  - wp_steps. bear.
  - unfold getAlbumTracks. wp_steps; try bear. apply IH. bear.
Qed.

Lemma createPlaylist_bears userId token label h :
  bears api token h ->
  wp (createPlaylist api userId token label) (fun _ h' => bears api token h') h.
Proof. intros Hh. unfold createPlaylist. cbv zeta. wp_steps; bear. Qed.

Lemma addTracksFrom_bears playlistId trackURIs token i : forall h,
  bears api token h ->
  wp (addTracksFrom api playlistId trackURIs token i)
    (fun _ h' => bears api token h') h.
Proof.
  funelim (addTracksFrom api playlistId trackURIs token i); intros h Hh.
  - wp_steps; try bear.
    match goal with
    | IH : unit -> history -> forall h, bears _ _ h -> _ |- _ =>
        apply (IH tt h); bear
    end.
  - wp_steps. bear.
Qed.

Lemma gather_token fuel label code h :
  calls h = [] ->
  wp (gather CLIENT_ID CLIENT_SECRET REDIRECT_URI api fuel label code)
    (gather_bears api) h.
Proof.
  intros Hh. unfold gather. wp_steps.
  eapply wp_mono; [|apply getAccessToken_bears; now rewrite calls_snoc, Hh].
  intros [accessToken|e|] h1 H1;
    cbn beta iota delta [bind_post token_post] in *;
    [|now left..].
  wp_steps.
  apply wp_bind_bears with (token := accessToken);
    [apply getUserProfile_bears; bear| |bear_post..].
  intros userProfile h2 H2. wp_steps.
  apply wp_bind_bears with (token := accessToken);
    [unfold searchAlbumsByLabel; apply searchAlbumsLoop_bears; bear
    | |bear_post..].
  intros albums h3 H3. wp_steps.
  apply wp_bind_bears with (token := accessToken);
    [apply collectTracks_bears; bear| |bear_post..].
  intros allTracks h4 H4. wp_steps. exact H4.
Qed.

Lemma publish_bears label g h :
  bears api (g_accessToken g) h ->
  wp (publish Date_getTime api label g)
    (fun _ h' => bears api (g_accessToken g) h') h.
Proof.
  intros Hh. unfold publish. cbv zeta.
  destruct (Nat.eqb (List.length (g_allTracks g)) 0).
  - wp_steps. bear.
  - wp_steps.
    apply wp_bind_bears with (token := g_accessToken g);
      [apply createPlaylist_bears; bear| |bear_post..].
    intros newPlaylist h1 H1. wp_steps.
    apply wp_bind_bears with (token := g_accessToken g);
      [unfold addTracksToPlaylist; apply addTracksFrom_bears; bear
      | |bear_post..].
    intros [] h2 H2. wp_steps. bear.
Qed.

Lemma callback_settled fuel label code :
  wp (callback CLIENT_ID CLIENT_SECRET REDIRECT_URI Date_getTime api fuel label code)
    (fun _ h' => settled api h') [].
Proof.
  unfold callback. destruct (JS.falsy code).
  - wp_steps. left. constructor.
  - wp_steps. eapply wp_mono; [|apply gather_token; reflexivity].
    intros [g|e|] h1 H1;
      cbn beta iota delta [bind_post catch_post gather_bears] in *.
    + eapply wp_mono; [|apply publish_bears; exact H1].
      intros [[]|e|] h2 H2; cbn beta iota delta [catch_post].
      * right. now exists (g_accessToken g).
      * unfold on_error. wp_steps. bear.
      * right. now exists (g_accessToken g).
    + unfold on_error. wp_steps. bear.
    + exact H1.
Qed.

End TokenFacts.

(** X2. Every request of a run that carries an Authorization header
    carries [Bearer <token>], where [<token>] is the [access_token] of the
    platform's answer to the token request of that run: the token obtained
    at the start is the one used to the end, and no such request is sent
    unless the token request was answered. *)
Theorem requests_share_authorization
    CLIENT_ID CLIENT_SECRET REDIRECT_URI Date_getTime (api : platform)
    (fuel : nat) (currentLabel code : option string) :
  let h := snd (run CLIENT_ID CLIENT_SECRET REDIRECT_URI Date_getTime api
                  fuel currentLabel code) in
  Forall
    (fun r =>
       authorization r = None \/
       exists token,
         exchanged_token api [] h = Some token /\
         authorization r = Some (bearer token))
    (calls h).
Proof.
  intros h.
  pose proof (callback_settled CLIENT_ID CLIENT_SECRET REDIRECT_URI Date_getTime
                api fuel currentLabel code) as Hs.
  unfold wp in Hs. fold (run CLIENT_ID CLIENT_SECRET REDIRECT_URI Date_getTime
                           api fuel currentLabel code) in Hs.
  fold h in Hs. destruct Hs as [Hnone | [token [Ht Hall]]].
  - eapply Forall_impl; [|exact Hnone]. intros r Hr. now left.
  - eapply Forall_impl; [|exact Hall]. intros r [Hr|Hr]; [now left|].
    right. now exists token.
Qed.

(** The token of the README's example is the one the platform answered;
    a token answer without the field makes the profile request carry
    [Bearer undefined]. *)
Example crosstown_bearer :
  let api := Mock.serve Mock.crosstown in
  let h := snd (Mock.run_on api 5 (Some "Crosstown Rebels")) in
  let h' := snd (Mock.run_on (Mock.tokenless api) 5 (Some "Crosstown Rebels")) in
  exchanged_token api [] h = Some (Some "BQD-token") /\
  Forall (fun r => authorization r = None
                   \/ authorization r = Some "Bearer BQD-token") (calls h) /\
  exchanged_token (Mock.tokenless api) [] h' = Some None /\
  map authorization (calls h') = [None; Some "Bearer undefined"].
Proof.
  vm_compute. split; [reflexivity|]. split; [|split; reflexivity].
  repeat (apply Forall_cons;
          [first [left; reflexivity | right; reflexivity]|]).
  apply Forall_nil.
Qed.

(** ** The label, read while the run goes on *)

Lemma bind_read_label {B} (currentLabel : label_store)
    (k : option string -> M B) h :
  bind (read_label currentLabel) k h = k (currentLabel h) h.
Proof. reflexivity. Qed.

Lemma bind_ext {A B} (m : M A) (k1 k2 : A -> M B) h :
  (forall a h', k1 a h' = k2 a h') -> bind m k1 h = bind m k2 h.
Proof.
  intros Hk. unfold bind. destruct (m h) as [[a|e|] h']; auto.
Qed.

Lemma bind_cong {A B} (m1 m2 : M A) (k1 k2 : A -> M B) h :
  m1 h = m2 h -> (forall a h', k1 a h' = k2 a h') ->
  bind m1 k1 h = bind m2 k2 h.
Proof.
  intros Hm Hk. unfold bind. rewrite Hm.
  destruct (m2 h) as [[a|e|] h']; auto.
Qed.

Section LiveLabelFacts.

Variable CLIENT_ID : string.
Variable CLIENT_SECRET : string.
Variable REDIRECT_URI : string.
Variable Date_getTime : string -> option Z.
Variable api : platform.

(** The run with a fixed label is the live run during which the global is
    not overwritten. *)
Lemma run_live_fixed fuel (currentLabel : label_store) label code :
  (forall h, currentLabel h = label) ->
  run_live CLIENT_ID CLIENT_SECRET REDIRECT_URI Date_getTime api
    fuel currentLabel code
  = run CLIENT_ID CLIENT_SECRET REDIRECT_URI Date_getTime api fuel label code.
Proof.
  intros Hfix. unfold run_live, run, callback_live, callback.
  destruct (JS.falsy code); [reflexivity|].
  unfold try_catch.
  assert (Hbody :
            (g <- gather_live CLIENT_ID CLIENT_SECRET REDIRECT_URI api fuel
                    currentLabel (JS.of_opt code) ;;
             publish_live Date_getTime api currentLabel g) []
            = (g <- gather CLIENT_ID CLIENT_SECRET REDIRECT_URI api fuel label
                      (JS.of_opt code) ;;
               publish Date_getTime api label g) []);
    [|now rewrite Hbody].
  assert (Hgather : forall h,
            gather_live CLIENT_ID CLIENT_SECRET REDIRECT_URI api fuel
              currentLabel (JS.of_opt code) h
            = gather CLIENT_ID CLIENT_SECRET REDIRECT_URI api fuel label
                (JS.of_opt code) h).
  { intros h. unfold gather_live, gather.
    do 5 (apply bind_ext; intros).
    rewrite bind_read_label, Hfix. apply bind_ext; intros.
    rewrite bind_read_label, Hfix. reflexivity. }
  assert (Hpublish : forall g h,
            publish_live Date_getTime api currentLabel g h
            = publish Date_getTime api label g h).
  { intros g h. unfold publish_live, publish. cbv zeta.
    destruct (Nat.eqb (List.length (g_allTracks g)) 0).
    - now rewrite bind_read_label, Hfix.
    - apply bind_ext; intros. now rewrite bind_read_label, Hfix. }
  apply bind_cong; auto.
Qed.

End LiveLabelFacts.

Lemma wp_read (currentLabel : label_store) Q h :
  wp (read_label currentLabel) Q h <-> Q (Returned (currentLabel h)) h.
Proof. reflexivity. Qed.

Ltac wp_live :=
  repeat first
    [ wp_step
    | lazymatch goal with
      | |- wp (read_label ?s) ?Q ?h => refine (proj2 (wp_read s Q h) _)
      end ].

Ltac label_here :=
  lazymatch goal with
  | |- labelled _ (_ ++ [Call (GetSearch _ _ _ _)]) _ =>
      first [ eapply labelled_next_page; label_here
            | eapply labelled_first_page; label_here ]
  | |- labelled _ (_ ++ [Call (PostPlaylist _ _ _ _)]) _ =>
      eapply labelled_create; label_here
  | |- labelled _ (_ ++ [_]) _ =>
      eapply labelled_other; [label_here | reflexivity]
  | |- labelled _ _ _ => eassumption
  end.

Ltac label_post :=
  lazymatch goal with
  | |- unsearched_post _ (Returned _) _ =>
      cbn beta iota delta [unsearched_post]; label_here
  | |- unsearched_post _ _ _ =>
      cbn beta iota delta [unsearched_post]; eexists; label_here
  | |- labelled_post _ _ _ =>
      cbn beta iota delta [labelled_post]; eexists; label_here
  end.

Section LabelFacts.

Variable CLIENT_ID : string.
Variable CLIENT_SECRET : string.
Variable REDIRECT_URI : string.
Variable Date_getTime : string -> option Z.
Variable api : platform.
Variable currentLabel : label_store.

Lemma wp_bind_unsearched {A B} (m : M A) (k : A -> M B) h :
  wp m (unsearched_post currentLabel) h ->
  (forall a h', labelled currentLabel h' None ->
     wp (k a) (labelled_post currentLabel) h') ->
  wp m (bind_post k (labelled_post currentLabel)) h.
Proof.
  intros Hm Hk. eapply wp_mono; [|exact Hm].
  intros [a|e|] h' Hpost; cbn beta iota delta [bind_post]; auto.
Qed.

Lemma wp_bind_labelled {A B} (m : M A) (k : A -> M B) h :
  wp m (labelled_post currentLabel) h ->
  (forall a h' s, labelled currentLabel h' s ->
     wp (k a) (labelled_post currentLabel) h') ->
  wp m (bind_post k (labelled_post currentLabel)) h.
Proof.
  intros Hm Hk. eapply wp_mono; [|exact Hm].
  intros [a|e|] h' [s Hs]; cbn beta iota delta [bind_post]; eauto.
  - now exists s.
  - now exists s.
Qed.

Lemma getAccessToken_unsearched code h :
  labelled currentLabel h None ->
  wp (getAccessToken CLIENT_ID CLIENT_SECRET REDIRECT_URI api code)
    (unsearched_post currentLabel) h.
Proof. intros Hh. unfold getAccessToken. wp_steps; label_post. Qed.

Lemma getUserProfile_unsearched token h :
  labelled currentLabel h None ->
  wp (getUserProfile api token) (unsearched_post currentLabel) h.
Proof. intros Hh. unfold getUserProfile. wp_steps; label_post. Qed.

Lemma searchAlbumsLoop_labelled fuel : forall query token albums offset h,
  (labelled currentLabel h None /\
   query = label_query (currentLabel h) /\ offset = 0)
  \/ labelled currentLabel h (Some (bearer token, query, offset)) ->
  wp (searchAlbumsLoop api fuel query token albums offset)
    (labelled_post currentLabel) h.
Proof.
  induction fuel as [|fuel IH]; intros query token albums offset h Hh;
    cbn [searchAlbumsLoop].
  - wp_steps. destruct Hh as [(Hh & _ & _) | Hh]; label_post.
  - cbv zeta. destruct Hh as [(Hh & -> & ->) | Hh].
    + wp_steps; try label_post. cbv beta iota.
      match goal with |- context [?a <? ?b] => destruct (a <? b) end.
      * apply IH. right. label_here.
      * wp_steps. label_post.
    + wp_steps; try label_post. cbv beta iota.
      match goal with |- context [?a <? ?b] => destruct (a <? b) end.
      * apply IH. right. label_here.
      * wp_steps. label_post.
Qed.

Lemma collectTracks_labelled albums : forall token allTracks h s,
  labelled currentLabel h s ->
  wp (collectTracks api albums token allTracks) (labelled_post currentLabel) h.
Proof.
  induction albums as [|album rest IH]; intros token allTracks h s Hh;
    cbn [collectTracks].
  - wp_steps. label_post.
  - unfold getAlbumTracks. wp_steps; try label_post. eapply IH. label_here.
Qed.

Lemma createPlaylist_labelled userId token h s :
  labelled currentLabel h s ->
  wp (createPlaylist api userId token (currentLabel h))
    (labelled_post currentLabel) h.
Proof.
  intros Hh. unfold createPlaylist. cbv zeta.
  change ("Label Playlist: " +++ JS.of_opt (currentLabel h) +++ " (Chronological)")
    with (playlist_title (currentLabel h)).
  wp_steps; label_post.
Qed.

Lemma addTracksFrom_labelled playlistId trackURIs token i : forall h s,
  labelled currentLabel h s ->
  wp (addTracksFrom api playlistId trackURIs token i)
    (labelled_post currentLabel) h.
Proof.
  funelim (addTracksFrom api playlistId trackURIs token i); intros h s Hh.
  - wp_steps; try label_post.
    match goal with
    | IH : unit -> history -> forall h s, labelled _ h s -> _ |- _ =>
        eapply (IH tt h); label_here
    end.
  - wp_steps. label_post.
Qed.

Lemma gather_labelled fuel code h :
  labelled currentLabel h None ->
  wp (gather_live CLIENT_ID CLIENT_SECRET REDIRECT_URI api fuel currentLabel code)
    (labelled_post currentLabel) h.
Proof.
  intros Hh. unfold gather_live. wp_live.
  apply wp_bind_unsearched; [apply getAccessToken_unsearched; label_here|].
  intros accessToken h1 H1. wp_live.
  apply wp_bind_unsearched; [apply getUserProfile_unsearched; label_here|].
  intros userProfile h2 H2. wp_live.
  apply wp_bind_labelled.
  { unfold searchAlbumsByLabel. apply searchAlbumsLoop_labelled. left.
    split; [label_here | split; reflexivity]. }
  intros albums h3 s3 H3. wp_live.
  apply wp_bind_labelled; [eapply collectTracks_labelled; label_here|].
  intros allTracks h4 s4 H4. wp_live. label_post.
Qed.

Lemma publish_labelled g h s :
  labelled currentLabel h s ->
  wp (publish_live Date_getTime api currentLabel g) (labelled_post currentLabel) h.
Proof.
  intros Hh. unfold publish_live. cbv zeta.
  destruct (Nat.eqb (List.length (g_allTracks g)) 0).
  - wp_live. label_post.
  - wp_live.
    apply wp_bind_labelled; [eapply createPlaylist_labelled; label_here|].
    intros newPlaylist h1 s1 H1. wp_live.
    apply wp_bind_labelled;
      [unfold addTracksToPlaylist; eapply addTracksFrom_labelled; label_here|].
    intros [] h2 s2 H2. wp_live. label_post.
Qed.

Lemma callback_labelled fuel code :
  wp (callback_live CLIENT_ID CLIENT_SECRET REDIRECT_URI Date_getTime api
        fuel currentLabel code)
    (labelled_post currentLabel) [].
Proof.
  pose proof (labelled_start currentLabel) as H0.
  unfold callback_live. destruct (JS.falsy code).
  - wp_steps. label_post.
  - wp_steps. eapply wp_mono; [|apply gather_labelled; exact H0].
    intros [g|e|] h1 [s1 H1]; cbn beta iota delta [bind_post catch_post].
    + eapply wp_mono; [|eapply publish_labelled; exact H1].
      intros [[]|e|] h2 [s2 H2]; cbn beta iota delta [catch_post].
      * now exists s2.
      * unfold on_error. wp_steps. label_post.
      * now exists s2.
    + unfold on_error. wp_steps. label_post.
    + now exists s1.
Qed.

Lemma labelled_snoc_inv h a s :
  labelled currentLabel (h ++ [a]) s ->
  exists s0,
    labelled currentLabel h s0 /\
    match a with
    | Call (GetSearch auth q limit offset) =>
        limit = 50 /\ s = Some (auth, q, offset + 50) /\
        ((s0 = None /\ q = label_query (currentLabel h) /\ offset = 0)
         \/ s0 = Some (auth, q, offset))
    | Call (PostPlaylist _ _ name _) =>
        s = s0 /\ name = playlist_title (currentLabel h)
    | _ => s = s0
    end.
Proof.
  intros H. remember (h ++ [a]) as h1 eqn:E.
  destruct H as [|h0 auth H0|h0 auth q offset H0|h0 s0 userId auth description H0
                |h0 s0 a0 H0 Ha].
  - destruct h; discriminate E.
  - apply app_inj_tail in E. destruct E as [-> <-]. exists None.
    split; [exact H0|]. split; [reflexivity|]. split; [reflexivity|]. now left.
  - apply app_inj_tail in E. destruct E as [-> <-].
    exists (Some (auth, q, offset)).
    split; [exact H0|]. split; [reflexivity|]. split; [reflexivity|]. now right.
  - apply app_inj_tail in E. destruct E as [-> <-]. exists s0.
    split; [exact H0|]. split; reflexivity.
  - apply app_inj_tail in E. destruct E as [-> <-]. exists s0.
    split; [exact H0|]. destruct a0 as [[]| | | | |]; try discriminate Ha; reflexivity.
Qed.

Lemma labelled_prefix h1 h2 : forall s,
  labelled currentLabel (h1 ++ h2) s -> exists s', labelled currentLabel h1 s'.
Proof.
  induction h2 as [|a h2 IH] using rev_ind; intros s H.
  - rewrite app_nil_r in H. eauto.
  - rewrite app_assoc in H. apply labelled_snoc_inv in H.
    destruct H as (s0 & H0 & _). eauto.
Qed.

Lemma labelled_pages h s :
  labelled currentLabel h s ->
  match s with
  | None => filter is_search (calls h) = []
  | Some (auth, q, offset) =>
      exists k, offset = 50 * Z.of_nat (S k) /\
                filter is_search (calls h)
                = map (GetSearch auth q 50) (page_offsets (S k) 0)
  end.
Proof.
  induction 1 as [|h auth Hh IH|h auth q offset Hh IH
                 |h s userId auth description Hh IH|h s a Hh IH Ha];
    try rewrite calls_snoc, filter_app; cbn [filter is_search].
  - reflexivity.
  - rewrite IH. exists 0%nat. split; reflexivity.
  - destruct IH as (k & -> & IH). exists (S k). split; [lia|].
    rewrite IH, (page_offsets_snoc (S k)), map_app. cbn [map].
    now rewrite Z.add_0_l.
  - rewrite app_nil_r. exact IH.
  - assert (Hnone : filter is_search
                      match a with Call r => [r] | _ => [] end = []).
    { destruct a as [[]| | | | |]; try discriminate Ha; reflexivity. }
    rewrite Hnone, app_nil_r. exact IH.
Qed.

End LabelFacts.

Lemma in_calls_split (h : history) (r : request) :
  In r (calls h) -> exists pre post, h = pre ++ Call r :: post.
Proof.
  unfold calls. intros Hin. apply in_flat_map in Hin.
  destruct Hin as (a & Ha & Hr). destruct a; try contradiction.
  destruct Hr as [->|[]]. now apply in_split.
Qed.

(** X5. Whatever the platform answers, and whatever POST /start does to
    the global label in the meantime: the search requests of a run ask for
    the pages at the offsets 0, 50, 100, ... in turn, fifty releases each,
    never the same page twice, all with one Authorization header and one
    query; the query is [label:"<label>"] for the label the global held when
    the first page was asked for; and a playlist is created under the name
    [Label Playlist: <label> (Chronological)] for the label the global held
    when its creation was asked for.  So when the global is not overwritten
    during the run, every search request and the playlist carry the same
    label; when it is, they may differ (see [label_overwritten_mid_run]). *)
Theorem requests_carry_the_label
    CLIENT_ID CLIENT_SECRET REDIRECT_URI Date_getTime (api : platform)
    (fuel : nat) (currentLabel : label_store) (code : option string) :
  let h := snd (run_live CLIENT_ID CLIENT_SECRET REDIRECT_URI Date_getTime api
                  fuel currentLabel code) in
  (exists auth q k,
      filter is_search (calls h) = map (GetSearch auth q 50) (page_offsets k 0)) /\
  (forall pre auth q limit offset post,
      h = pre ++ Call (GetSearch auth q limit offset) :: post ->
      filter is_search (calls pre) = [] ->
      q = label_query (currentLabel pre)) /\
  (forall pre userId auth name description post,
      h = pre ++ Call (PostPlaylist userId auth name description) :: post ->
      name = playlist_title (currentLabel pre)) /\
  (forall label,
      (forall h', currentLabel h' = label) ->
      (exists auth k,
          filter is_search (calls h)
          = map (GetSearch auth (label_query label) 50) (page_offsets k 0)) /\
      (forall userId auth name description,
          In (PostPlaylist userId auth name description) (calls h) ->
          name = playlist_title label)).
Proof.
  intros h.
  destruct (callback_labelled CLIENT_ID CLIENT_SECRET REDIRECT_URI Date_getTime
              api currentLabel fuel code) as [s Hs].
  fold (run_live CLIENT_ID CLIENT_SECRET REDIRECT_URI Date_getTime api
          fuel currentLabel code) in Hs.
  fold h in Hs.
  assert (Hpages : exists auth q k,
             filter is_search (calls h)
             = map (GetSearch auth q 50) (page_offsets k 0)).
  { pose proof (labelled_pages _ _ _ Hs) as Hp.
    destruct s as [[[auth q] offset]|].
    - destruct Hp as (k & _ & Hp). now exists auth, q, (S k).
    - exists "", "", 0%nat. exact Hp. }
  assert (Hfirst : forall pre auth q limit offset post,
             h = pre ++ Call (GetSearch auth q limit offset) :: post ->
             filter is_search (calls pre) = [] ->
             q = label_query (currentLabel pre)).
  { intros pre auth q limit offset post Hh Hpre. rewrite Hh in Hs.
    change (pre ++ Call ?r :: post) with (pre ++ [Call r] ++ post) in Hs.
    rewrite app_assoc in Hs. apply labelled_prefix in Hs. destruct Hs as [s' Hs].
    apply labelled_snoc_inv in Hs.
    destruct Hs as (s0 & H0 & _ & _ & [(_ & Hq & _) | ->]); [exact Hq|].
    pose proof (labelled_pages _ _ _ H0) as Hp. cbn in Hp.
    destruct Hp as (k & _ & Hp). rewrite Hpre in Hp. discriminate Hp. }
  assert (Hcreate : forall pre userId auth name description post,
             h = pre ++ Call (PostPlaylist userId auth name description) :: post ->
             name = playlist_title (currentLabel pre)).
  { intros pre userId auth name description post Hh. rewrite Hh in Hs.
    change (pre ++ Call ?r :: post) with (pre ++ [Call r] ++ post) in Hs.
    rewrite app_assoc in Hs. apply labelled_prefix in Hs. destruct Hs as [s' Hs].
    apply labelled_snoc_inv in Hs. destruct Hs as (s0 & _ & _ & Hname).
    exact Hname. }
  split; [exact Hpages|]. split; [exact Hfirst|]. split; [exact Hcreate|].
  intros label Hfix. split.
  - destruct Hpages as (auth & q & [|k] & Hp).
    + now exists auth, 0%nat.
    + exists auth, (S k). rewrite Hp.
      assert (Hin : In (GetSearch auth q 50 0) (calls h)).
      { apply (proj1 (filter_In is_search _ (calls h))). rewrite Hp. now left. }
      destruct (in_calls_split _ _ Hin) as (pre & post & Hh).
      destruct (filter is_search (calls pre)) as [|r0 rs] eqn:Hpre.
      * rewrite (Hfirst _ _ _ _ _ _ Hh Hpre), Hfix. reflexivity.
      * exfalso.
        assert (Hsplit : filter is_search (calls h)
                         = (r0 :: rs) ++ GetSearch auth q 50 0
                             :: filter is_search (calls post)).
        { rewrite Hh at 1. rewrite calls_app, filter_app, Hpre. reflexivity. }
        rewrite Hp in Hsplit. cbn [page_offsets map app] in Hsplit.
        injection Hsplit as _ Htail.
        assert (Hin0 : In (GetSearch auth q 50 0)
                         (rs ++ GetSearch auth q 50 0
                             :: filter is_search (calls post)))
          by (apply in_or_app; right; now left).
        rewrite <- Htail in Hin0.
        apply in_map_iff in Hin0. destruct Hin0 as (o & [= Ho] & Hino).
        apply page_offsets_lower in Hino. lia.
  - intros userId auth name description Hin.
    destruct (in_calls_split _ _ Hin) as (pre & post & Hh).
    rewrite (Hcreate _ _ _ _ _ _ Hh), Hfix. reflexivity.
Qed.

(** POST /start overwrites the label while the first search page is
    awaited: the search asks for one label, the playlist is named after the
    other. *)
Example label_overwritten_mid_run :
  let h := snd Overwrite.run_on_crosstown in
  filter is_search (calls h)
  = [GetSearch "Bearer BQD-token" (label_query (Some "Alpha")) 50 0] /\
  exists description,
    filter is_create (calls h)
    = [PostPlaylist "user-1" "Bearer BQD-token" (playlist_title (Some "Beta"))
         description].
Proof. vm_compute. split; [reflexivity | eexists; reflexivity]. Qed.
